(** * error-rank-hunter: popup system and reader settings

    A shallow embedding of [js/popup-system.js] (sequence popups, scroll
    triggered system popups, image gallery) and of the settings script
    (theme and font size preferences), followed by the properties of the
    specification that are checked against it.

    The first half of the file holds the model, one module per script
    object; the second half holds the statements and their proofs. *)

From stdpp Require Import gmap strings list.
From Stdlib Require Import ZArith Lia.

Local Open Scope string_scope.
Local Open Scope list_scope.
Local Open Scope nat_scope.

(** ** Settings: theme and font size preferences *)

Module Settings.

(** A toggle control ([.theme-toggle-btn] or [.font-size-btn]): the value of
    its [data-theme] / [data-size] attribute and whether it carries the
    [is-active] class. *)
Record Button := mkButton {
  btn_value : option string;
  btn_active : bool
}.

(** What the settings script reads and writes. *)
Record Page := mkPage {
  root : gmap string string;            (* attributes of document.documentElement *)
  storage : gmap string string;         (* localStorage *)
  prefersDark : bool;                   (* matchMedia('(prefers-color-scheme: dark)').matches *)
  themeButtons : list Button;           (* document.querySelectorAll('.theme-toggle-btn') *)
  fontButtons : list Button;            (* document.querySelectorAll('.font-size-btn') *)
  warnings : list string;               (* console.warn, oldest first *)
  dispatched : list (string * string)   (* window.dispatchEvent: (type, detail), oldest first *)
}.

Definition KEY_theme : string := "story-theme".
Definition KEY_fontSize : string := "story-font-size".
Definition FONT_SIZES : list string := ["small"; "normal"; "large"; "x-large"].
Definition THEMES : list string := ["light"; "dark"].
Definition DEFAULT_THEME : string := "light".
Definition DEFAULT_FONT_SIZE : string := "normal".

(** [Array.prototype.includes] on an array of strings. *)
Definition includes (xs : list string) (x : string) : bool :=
  bool_decide (x ∈ xs).

(** [Array.prototype.indexOf]: first position of [x], or -1. *)
Fixpoint indexOf_from (k : Z) (xs : list string) (x : string) : Z :=
  match xs with
  | [] => (-1)%Z
  | y :: ys => if String.eqb y x then k else indexOf_from (k + 1)%Z ys x
  end.
Definition indexOf := indexOf_from 0%Z.

(** [xs[i]] for a JS number [i]; [None] is [undefined]. *)
Definition at_index (xs : list string) (i : Z) : option string :=
  if (i <? 0)%Z then None else xs !! Z.to_nat i.

(** JS truthiness of a value that is a string or null. *)
Definition truthy (o : option string) : bool :=
  match o with
  | Some s => negb (String.eqb s "")
  | None => false
  end.

(** [o || d] for a string-or-null [o]. *)
Definition or_default (o : option string) (d : string) : string :=
  match o with
  | Some s => if String.eqb s "" then d else s
  | None => d
  end.

Definition setAttribute (k v : string) (p : Page) : Page :=
  mkPage (<[k := v]> (root p)) (storage p) (prefersDark p) (themeButtons p)
         (fontButtons p) (warnings p) (dispatched p).

Definition setItem (k v : string) (p : Page) : Page :=
  mkPage (root p) (<[k := v]> (storage p)) (prefersDark p) (themeButtons p)
         (fontButtons p) (warnings p) (dispatched p).

Definition warn (msg : string) (p : Page) : Page :=
  mkPage (root p) (storage p) (prefersDark p) (themeButtons p)
         (fontButtons p) (warnings p ++ [msg]) (dispatched p).

Definition dispatchEvent (type detail : string) (p : Page) : Page :=
  mkPage (root p) (storage p) (prefersDark p) (themeButtons p)
         (fontButtons p) (warnings p) (dispatched p ++ [(type, detail)]).

(** [btn.classList.toggle('is-active', btnValue === v)] *)
Definition toggle_active (v : string) (b : Button) : Button :=
  mkButton (btn_value b)
           (match btn_value b with
            | Some s => String.eqb s v
            | None => false
            end).

Definition updateThemeButtons (theme : string) (p : Page) : Page :=
  mkPage (root p) (storage p) (prefersDark p)
         (map (toggle_active theme) (themeButtons p))
         (fontButtons p) (warnings p) (dispatched p).

Definition updateFontSizeButtons (size : string) (p : Page) : Page :=
  mkPage (root p) (storage p) (prefersDark p) (themeButtons p)
         (map (toggle_active size) (fontButtons p))
         (warnings p) (dispatched p).

(** The setters take a string, as their JSDoc declares. *)
Definition setTheme (theme : string) (save : bool) (p : Page) : Page :=
  if negb (includes THEMES theme) then
    warn ("Invalid theme: " +:+ theme) p
  else
    let p := setAttribute "data-theme" theme p in
    let p := if save then setItem KEY_theme theme p else p in
    let p := updateThemeButtons theme p in
    dispatchEvent "themechange" theme p.

Definition getTheme (p : Page) : string :=
  or_default (root p !! "data-theme") DEFAULT_THEME.

Definition toggleTheme (p : Page) : Page :=
  let currentTheme := or_default (root p !! "data-theme") DEFAULT_THEME in
  let newTheme := if String.eqb currentTheme "dark" then "light" else "dark" in
  setTheme newTheme true p.

Definition setFontSize (size : string) (save : bool) (p : Page) : Page :=
  if negb (includes FONT_SIZES size) then
    warn ("Invalid font size: " +:+ size) p
  else
    let p := setAttribute "data-font-size" size p in
    let p := if save then setItem KEY_fontSize size p else p in
    let p := updateFontSizeButtons size p in
    dispatchEvent "fontsizechange" size p.

Definition getFontSize (p : Page) : string :=
  or_default (root p !! "data-font-size") DEFAULT_FONT_SIZE.

(** [setFontSize(FONT_SIZES[i])]. Out of range the argument is [undefined],
    which [includes] rejects and the warning prints as "undefined": the same
    effect as the string "undefined". *)
Definition setFontSize_at (i : Z) (p : Page) : Page :=
  setFontSize (default "undefined" (at_index FONT_SIZES i)) true p.

Definition increaseFontSize (p : Page) : Page :=
  let currentIndex := indexOf FONT_SIZES (getFontSize p) in
  if (currentIndex <? Z.of_nat (length FONT_SIZES) - 1)%Z
  then setFontSize_at (currentIndex + 1)%Z p
  else p.

Definition decreaseFontSize (p : Page) : Page :=
  let currentIndex := indexOf FONT_SIZES (getFontSize p) in
  if (currentIndex >? 0)%Z
  then setFontSize_at (currentIndex - 1)%Z p
  else p.

Definition initSettings (p : Page) : Page :=
  let savedTheme := storage p !! KEY_theme in
  let p :=
    if truthy savedTheme && includes THEMES (default "" savedTheme)
    then setTheme (default "" savedTheme) false p
    else setTheme (if prefersDark p then "dark" else "light") false p in
  let savedFontSize := storage p !! KEY_fontSize in
  if truthy savedFontSize && includes FONT_SIZES (default "" savedFontSize)
  then setFontSize (default "" savedFontSize) false p
  else setFontSize DEFAULT_FONT_SIZE false p.

(** The listener on the system colour-scheme media query. *)
Definition onSystemThemeChange (matches : bool) (p : Page) : Page :=
  let p := mkPage (root p) (storage p) matches (themeButtons p)
                  (fontButtons p) (warnings p) (dispatched p) in
  if negb (truthy (storage p !! KEY_theme))
  then setTheme (if matches then "dark" else "light") false p
  else p.

(** A page before the script has run: nothing stored, no attributes. *)
Definition blank (dark : bool) : Page :=
  mkPage ∅ ∅ dark [mkButton (Some "light") false; mkButton (Some "dark") false]
         [mkButton (Some "small") false; mkButton (Some "normal") false;
          mkButton (Some "large") false; mkButton (Some "x-large") false]
         [] [].

(** Pages on which the reader chose dark with large, x-large or small type. *)
Definition reader_page : Page :=
  setFontSize "large" true (setTheme "dark" true (blank false)).
Definition largest_page : Page := setFontSize "x-large" true reader_page.
Definition smallest_page : Page := setFontSize "small" true reader_page.

(** A page on which another script left attributes the store does not know. *)
Definition foreign_page : Page :=
  setAttribute "data-font-size" "huge" (setAttribute "data-theme" "sepia" (blank false)).


(** What page scripts and the bound controls can ask of the store. A click on
    a theme or font-size button is [SetTheme v true] / [SetFontSize v true]
    with the button's attribute. *)
Inductive action :=
  | SetTheme (v : string) (save : bool)
  | ToggleTheme
  | SetFontSize (v : string) (save : bool)
  | IncreaseFontSize
  | DecreaseFontSize
  | SystemThemeChange (matches : bool).

Definition act (a : action) (p : Page) : Page :=
  match a with
  | SetTheme v save => setTheme v save p
  | ToggleTheme => toggleTheme p
  | SetFontSize v save => setFontSize v save p
  | IncreaseFontSize => increaseFontSize p
  | DecreaseFontSize => decreaseFontSize p
  | SystemThemeChange matches => onSystemThemeChange matches p
  end.

Definition acts (l : list action) (p : Page) : Page := foldl (fun p a => act a p) p l.

(** The applied theme and font size are members of their enumerations. *)
Definition applied_valid (p : Page) : Prop :=
  getTheme p ∈ THEMES ∧ getFontSize p ∈ FONT_SIZES.


(** Relative to [p0], the storage of [p] differs at most in the two keys of
    the store, and what it holds there now is a member of the enumeration. *)
Definition writes_valid (p0 p : Page) : Prop :=
  ∀ k, storage p !! k = storage p0 !! k ∨
       (k = KEY_theme ∧ ∃ v, v ∈ THEMES ∧ storage p !! k = Some v) ∨
       (k = KEY_fontSize ∧ ∃ v, v ∈ FONT_SIZES ∧ storage p !! k = Some v).


End Settings.

(** ** Settings panel *)

Module SettingsPanel.

Record Panel := mkPanel {
  panel : option bool;              (* .settings-panel and whether it carries is-open *)
  trigger : option (option string); (* the first .settings-trigger and its aria-expanded *)
  dropdown : bool                   (* a .settings-dropdown exists *)
}.

Definition toggleSettingsPanel (forceState : option bool) (s : Panel) : Panel :=
  match panel s with
  | None => s
  | Some isOpen =>
      let shouldOpen := match forceState with Some b => b | None => negb isOpen end in
      mkPanel (Some shouldOpen)
              (match trigger s with
               | Some _ => Some (Some (if shouldOpen then "true" else "false"))
               | None => None
               end)
              (dropdown s)
  end.

(** [inside] is [dropdown.contains(event.target)]. *)
Definition handleOutsideClick (inside : bool) (s : Panel) : Panel :=
  match panel s with
  | Some true => if dropdown s && negb inside then toggleSettingsPanel (Some false) s else s
  | _ => s
  end.

(** The inputs [setupEventListeners] binds, and the public
    [StorySettings.toggleSettingsPanel]. A click on the trigger stops
    propagating, so the document's click handler does not see it. *)
Inductive input :=
  | ClickTrigger
  | ClickDocument (inside : bool)
  | Escape
  | Call (forceState : option bool).

Definition step (i : input) (s : Panel) : Panel :=
  match i with
  | ClickTrigger => match trigger s with Some _ => toggleSettingsPanel None s | None => s end
  | ClickDocument inside => handleOutsideClick inside s
  | Escape => toggleSettingsPanel (Some false) s
  | Call forceState => toggleSettingsPanel forceState s
  end.

Definition run (l : list input) (s : Panel) : Panel := foldl (fun s i => step i s) s l.

(** [aria-expanded] on the trigger says whether the panel is open. *)
Definition aria_mirrors (s : Panel) : Prop :=
  ∀ b a, panel s = Some b → trigger s = Some a →
         a = Some (if b then "true" else "false").

Definition closed_panel : Panel := mkPanel (Some false) (Some None) true.

(** An open panel on a page with neither trigger nor dropdown. *)
Definition bare_panel : Panel := mkPanel (Some true) None false.

End SettingsPanel.

(** ** Image gallery *)

(** A method either returns or is left by a [TypeError]; both carry the object
    as mutated up to that point. *)
Inductive result (W : Type) :=
  | Ok (w : W)
  | Err (w : W).
Arguments Ok {W} w.
Arguments Err {W} w.

Definition bind {W} (r : result W) (f : W -> result W) : result W :=
  match r with
  | Ok w => f w
  | Err w => Err w
  end.

Definition state_of {W} (r : result W) : W :=
  match r with Ok w | Err w => w end.

Notation "r >>= f" := (bind r f) (at level 50, left associativity).

Module ImageGallery.

(** The overlay element built by [createGallery], reduced to what the
    methods read and write. *)
Record Overlay := mkOverlay {
  is_visible : bool;          (* class is-visible *)
  header_title : string;      (* .image-gallery-title *)
  page_total : nat;           (* the N of "Page k of N" *)
  page_label : Z;             (* number shown in span.current-page *)
  img_src : string;
  img_alt : Z;                (* alt is "Page k" *)
  prev_disabled : bool;
  next_disabled : bool;
  dots : list bool            (* is-active of each .image-gallery-dot; data-page is the position *)
}.

Record Gallery := mkGallery {
  container : option Overlay; (* this.container; the element is in the body iff non-null *)
  isOpen : bool;
  currentPage : Z;
  images : list string;
  title : string;
  keyBound : bool;            (* this.keyHandler is registered on document *)
  scroll_locked : bool;       (* document.body.style.overflow = 'hidden' *)
  warnings : list string      (* console.warn *)
}.

Record Options := mkOptions {
  opt_images : option (list string);
  opt_title : option string
}.

Definition initial : Gallery :=
  mkGallery None false 0 [] "" false false [].

Definition set_container (c : option Overlay) (g : Gallery) : Gallery :=
  mkGallery c (isOpen g) (currentPage g) (images g) (title g) (keyBound g)
            (scroll_locked g) (warnings g).

Definition set_currentPage (i : Z) (g : Gallery) : Gallery :=
  mkGallery (container g) (isOpen g) i (images g) (title g) (keyBound g)
            (scroll_locked g) (warnings g).

Definition image_at (imgs : list string) (i : Z) : string :=
  default "undefined" (Settings.at_index imgs i).

Definition len (g : Gallery) : Z := Z.of_nat (length (images g)).

Definition updateNavState (g : Gallery) : result Gallery :=
  match container g with
  | None => Err g
  | Some c =>
      Ok (set_container
            (Some (mkOverlay (is_visible c) (header_title c) (page_total c)
                             (page_label c) (img_src c) (img_alt c)
                             (currentPage g =? 0)%Z
                             (currentPage g =? len g - 1)%Z
                             (dots c)))
            g)
  end.

Definition goToPage (pageIndex : Z) (g : Gallery) : result Gallery :=
  if ((pageIndex <? 0) || (pageIndex >=? len g))%Z then Ok g
  else
    let g := set_currentPage pageIndex g in
    match container g with
    | None => Err g
    | Some c =>
        let c := mkOverlay (is_visible c) (header_title c) (page_total c)
                           (currentPage g + 1)%Z
                           (image_at (images g) (currentPage g))
                           (currentPage g + 1)%Z
                           (prev_disabled c) (next_disabled c)
                           (imap (fun i _ => (Z.of_nat i =? currentPage g)%Z) (dots c)) in
        updateNavState (set_container (Some c) g)
    end.

Definition prevPage (g : Gallery) : result Gallery :=
  if (currentPage g >? 0)%Z then goToPage (currentPage g - 1)%Z g else Ok g.

Definition nextPage (g : Gallery) : result Gallery :=
  if (currentPage g <? len g - 1)%Z then goToPage (currentPage g + 1)%Z g else Ok g.

Definition bindGalleryEvents (g : Gallery) : Gallery :=
  mkGallery (container g) (isOpen g) (currentPage g) (images g) (title g) true
            (scroll_locked g) (warnings g).

Definition createGallery (g : Gallery) : result Gallery :=
  let c := mkOverlay false (title g) (length (images g)) 1
                     (image_at (images g) 0) 1 false false
                     (imap (fun i _ => (i =? 0)%nat) (images g)) in
  updateNavState (bindGalleryEvents (set_container (Some c) g)).

Definition open (options : Options) (g : Gallery) : result Gallery :=
  if isOpen g then Ok g
  else
    let g := mkGallery (container g) (isOpen g) 0
                       (default [] (opt_images options))
                       (Settings.or_default (opt_title options) "Gallery")
                       (keyBound g) (scroll_locked g) (warnings g) in
    if (length (images g) =? 0)%nat then
      Ok (mkGallery (container g) (isOpen g) (currentPage g) (images g) (title g)
                    (keyBound g) (scroll_locked g)
                    (warnings g ++ ["ImageGallery: No images provided"]))
    else
      createGallery g >>= fun g =>
      Ok (mkGallery (container g) true (currentPage g) (images g) (title g)
                    (keyBound g) true (warnings g)).

(** The callback handed to [requestAnimationFrame] by [open]. *)
Definition open_frame (g : Gallery) : result Gallery :=
  match container g with
  | None => Err g
  | Some c =>
      Ok (set_container
            (Some (mkOverlay true (header_title c) (page_total c) (page_label c)
                             (img_src c) (img_alt c) (prev_disabled c)
                             (next_disabled c) (dots c))) g)
  end.

Definition close (g : Gallery) : result Gallery :=
  if negb (isOpen g) then Ok g
  else
    let g := mkGallery (container g) false (currentPage g) (images g) (title g)
                       false false (warnings g) in
    match container g with
    | None => Err g
    | Some c =>
        Ok (set_container
              (Some (mkOverlay false (header_title c) (page_total c) (page_label c)
                               (img_src c) (img_alt c) (prev_disabled c)
                               (next_disabled c) (dots c))) g)
    end.

(** The callback [close] leaves with [setTimeout(..., 300)]. *)
Definition close_timeout (g : Gallery) : result Gallery :=
  Ok (set_container None g).

Definition keyHandler (key : string) (g : Gallery) : result Gallery :=
  if negb (isOpen g) then Ok g
  else if String.eqb key "Escape" then close g
  else if String.eqb key "ArrowLeft" then prevPage g
  else if String.eqb key "ArrowRight" then nextPage g
  else Ok g.

(** The state every method keeps while the gallery is open. *)
Definition open_gallery (g : Gallery) : Prop :=
  isOpen g = true ∧
  (0 <= currentPage g < len g)%Z ∧
  ∃ c, container g = Some c ∧
       prev_disabled c = (currentPage g =? 0)%Z ∧
       next_disabled c = (currentPage g =? len g - 1)%Z.

(** The galleries a reader can be looking at: opened by [open], shown by the
    animation frame, and browsed with the three navigation methods. *)
Inductive browsing : Gallery → Prop :=
  | browse_open (o : Options) (g0 g : Gallery) :
      isOpen g0 = false → open o g0 = Ok g → isOpen g = true → browsing g
  | browse_frame (g g' : Gallery) :
      browsing g → open_frame g = Ok g' → browsing g'
  | browse_goTo (i : Z) (g g' : Gallery) :
      browsing g → goToPage i g = Ok g' → browsing g'
  | browse_prev (g g' : Gallery) :
      browsing g → prevPage g = Ok g' → browsing g'
  | browse_next (g g' : Gallery) :
      browsing g → nextPage g = Ok g' → browsing g'.

(** [op] returns, and the gallery is still open on the same images. *)
Definition keeps_open (op : Gallery → result Gallery) (g : Gallery) : Prop :=
  ∃ g', op g = Ok g' ∧ open_gallery g' ∧ images g' = images g.

Definition pamphlet : Options :=
  mkOptions (Some ["p1.png"; "p2.png"; "p3.png"]) (Some "Pamphlet").

Definition first_page : Gallery := state_of (open pamphlet initial).
Definition last_page : Gallery := state_of (open pamphlet initial >>= goToPage 2).

(** A gallery that was browsed to its second page and closed again. *)
Definition browsed_and_closed : Gallery :=
  state_of (open pamphlet initial >>= nextPage >>= close >>= close_timeout).


Definition two_pages : Options := mkOptions (Some ["a.png"; "b.png"]) None.

End ImageGallery.

(** ** Timers

    The browser's event loop as far as the popups use it: a clock in
    milliseconds and the callbacks given to [setTimeout], each with the time at
    which it falls due. Callbacks due at the same time run in the order in which
    they were scheduled. Every delay in the scripts is positive, so a callback
    never falls due in the millisecond in which it is scheduled. An exception
    that leaves a callback is counted and the loop goes on. *)

Module Loop.

Record world (S C : Type) := mkWorld {
  clock : nat;                (* milliseconds since the page was loaded *)
  pending : list (nat * C);   (* (due time, callback), in scheduling order *)
  uncaught : nat;             (* errors that reached the event loop *)
  page : S
}.
Arguments mkWorld {S C} _ _ _ _.
Arguments clock {S C} _.
Arguments pending {S C} _.
Arguments uncaught {S C} _.
Arguments page {S C} _.

Section ops.
Context {S C : Type}.

Definition setTimeout (cb : C) (delay : nat) (w : world S C) : world S C :=
  mkWorld (clock w) (pending w ++ [(clock w + delay, cb)]) (uncaught w) (page w).

Definition with_page (f : S -> S) (w : world S C) : world S C :=
  mkWorld (clock w) (pending w) (uncaught w) (f (page w)).

(** A handler or callback has finished, normally or not. *)
Definition settle (r : result (world S C)) : world S C :=
  match r with
  | Ok w => w
  | Err w => mkWorld (clock w) (pending w) (Datatypes.S (uncaught w)) (page w)
  end.

Variable fire : C -> world S C -> result (world S C).

Definition fire_all (due : list (nat * C)) (w : world S C) : world S C :=
  foldl (fun w t => settle (fire t.2 w)) w due.

(** One millisecond passes. *)
Definition tick (w : world S C) : world S C :=
  let now := Datatypes.S (clock w) in
  fire_all (filter (fun t => t.1 = now) (pending w))
           (mkWorld now (filter (fun t => t.1 ≠ now) (pending w)) (uncaught w) (page w)).

Fixpoint elapse (ms : nat) (w : world S C) : world S C :=
  match ms with
  | O => w
  | Datatypes.S ms => elapse ms (tick w)
  end.

(** [n] listeners registered for the same event run one after the other. *)
Fixpoint dispatch (n : nat) (h : world S C -> result (world S C)) (w : world S C)
  : world S C :=
  match n with
  | O => w
  | Datatypes.S n => dispatch n h (settle (h w))
  end.
End ops.

End Loop.

(** The shared backdrop element and the scroll lock on the body. *)
Record Backdrop := mkBackdrop {
  bd_present : bool;            (* #popup-backdrop exists *)
  bd_visible : bool;            (* class is-visible *)
  bd_scroll_locked : bool       (* document.body.style.overflow = 'hidden' *)
}.

Definition showBackdrop (b : Backdrop) : Backdrop := mkBackdrop true true true.
Definition hideBackdrop (b : Backdrop) : Backdrop := mkBackdrop true false false.

(** What a popup shows: the markup assembled from an item or descriptor. *)
Inductive content :=
  | Img (src alt : string)
  | Html (markup : string)
  | Blank.

(** ** Scenario A: sequence popups *)

Module SequencePopups.
Import Loop.

Record Item := mkItem {
  type : string;
  item_content : string;
  alt : option string
}.

Inductive hint := ClickToContinue | ClickToBegin.

Record Container := mkContainer {
  attached : bool;                      (* child of document.body *)
  visible : bool;                       (* class is-visible *)
  shown : option (content * hint)       (* innerHTML; None while empty *)
}.

Record Seq := mkSeq {
  items : list Item;
  currentIndex : nat;
  container : option Container;         (* this.container *)
  isActive : bool;
  onComplete : option nat;              (* the callback, by name *)
  handlerBound : bool;                  (* this._handleClick / _handleKeydown are registered *)
  staleHandlers : nat;                  (* registered pairs no longer referenced by the object *)
  backdrop : Backdrop;
  rendered : list nat;                  (* indices rendered by showCurrentPopup, oldest first *)
  completed : list nat                  (* callbacks invoked, oldest first *)
}.

Inductive callback := NextTimeout | CompleteTimeout.

Abbreviation W := (world Seq callback).

Definition initial : Seq :=
  mkSeq [] 0 None false None false 0 (mkBackdrop false false false) [] [].

Definition fresh : W := mkWorld 0 [] 0 initial.

Definition set_container (c : option Container) (s : Seq) : Seq :=
  mkSeq (items s) (currentIndex s) c (isActive s) (onComplete s) (handlerBound s)
        (staleHandlers s) (backdrop s) (rendered s) (completed s).

Definition set_backdrop (b : Backdrop) (s : Seq) : Seq :=
  mkSeq (items s) (currentIndex s) (container s) (isActive s) (onComplete s)
        (handlerBound s) (staleHandlers s) b (rendered s) (completed s).

Definition set_isActive (b : bool) (s : Seq) : Seq :=
  mkSeq (items s) (currentIndex s) (container s) b (onComplete s)
        (handlerBound s) (staleHandlers s) (backdrop s) (rendered s) (completed s).

(** [this.container.classList.add/remove('is-visible')] *)
Definition set_visible (v : bool) (w : W) : result W :=
  match container (page w) with
  | None => Err w
  | Some c =>
      Ok (with_page (set_container (Some (mkContainer (attached c) v (shown c)))) w)
  end.

Definition createContainer (w : W) : W :=
  with_page (set_container (Some (mkContainer true false None))) w.

Definition render (i : nat) (its : list Item) (item : Item) : content * hint :=
  (if String.eqb (type item) "image"
   then Img (item_content item) (Settings.or_default (alt item) "Story image")
   else if String.eqb (type item) "html" then Html (item_content item)
   else Blank,
   if (Z.of_nat i <? Z.of_nat (length its) - 1)%Z then ClickToContinue else ClickToBegin).

Definition complete (w : W) : result W :=
  let w := with_page (set_isActive false) w in
  set_visible false w >>= fun w =>
  let w := with_page (fun s => set_backdrop (hideBackdrop (backdrop s)) s) w in
  Ok (setTimeout CompleteTimeout 300 w).

Definition showCurrentPopup (w : W) : result W :=
  let s := page w in
  match items s !! currentIndex s with
  | None => complete w
  | Some item =>
      match container s with
      | None => Err w
      | Some c =>
          Ok (with_page
                (fun s =>
                   mkSeq (items s) (currentIndex s)
                         (Some (mkContainer (attached c) true
                                  (Some (render (currentIndex s) (items s) item))))
                         (isActive s) (onComplete s) (handlerBound s) (staleHandlers s)
                         (backdrop s) (rendered s ++ [currentIndex s]) (completed s))
                w)
      end
  end.

Definition bindEvents (w : W) : W :=
  with_page
    (fun s =>
       mkSeq (items s) (currentIndex s) (container s) (isActive s) (onComplete s) true
             (if handlerBound s then S (staleHandlers s) else staleHandlers s)
             (backdrop s) (rendered s) (completed s))
    w.

Definition unbindEvents (w : W) : W :=
  with_page
    (fun s =>
       mkSeq (items s) (currentIndex s) (container s) (isActive s) (onComplete s) false
             (staleHandlers s) (backdrop s) (rendered s) (completed s))
    w.

Definition init (its : list Item) (cb : option nat) (w : W) : result W :=
  let w := with_page
             (fun s =>
                mkSeq its 0 (container s) true cb (handlerBound s) (staleHandlers s)
                      (backdrop s) (rendered s) (completed s))
             w in
  let w := createContainer w in
  let w := with_page (fun s => set_backdrop (showBackdrop (backdrop s)) s) w in
  showCurrentPopup w >>= fun w =>
  Ok (bindEvents w).

Definition next (w : W) : result W :=
  set_visible false w >>= fun w =>
  Ok (setTimeout NextTimeout 300 w).

Definition next_timeout (w : W) : result W :=
  let w := with_page
             (fun s =>
                mkSeq (items s) (S (currentIndex s)) (container s) (isActive s)
                      (onComplete s) (handlerBound s) (staleHandlers s) (backdrop s)
                      (rendered s) (completed s))
             w in
  if (currentIndex (page w) <? length (items (page w)))%nat
  then showCurrentPopup w
  else complete w.

Definition complete_timeout (w : W) : result W :=
  match container (page w) with
  | None => Err w
  | Some c =>
      let w := with_page (set_container (Some (mkContainer false (visible c) (shown c)))) w in
      let w := unbindEvents w in
      Ok (with_page
            (fun s =>
               mkSeq (items s) (currentIndex s) (container s) (isActive s) (onComplete s)
                     (handlerBound s) (staleHandlers s) (backdrop s) (rendered s)
                     (match onComplete s with
                      | Some f => completed s ++ [f]
                      | None => completed s
                      end))
            w)
  end.

Definition fire (cb : callback) : W -> result W :=
  match cb with
  | NextTimeout => next_timeout
  | CompleteTimeout => complete_timeout
  end.

Definition handleClick (w : W) : result W :=
  if isActive (page w) then next w else Ok w.

Definition advance_key (key : string) : bool :=
  String.eqb key "Enter" || String.eqb key " " || String.eqb key "Escape".

Definition handleKeydown (key : string) (w : W) : result W :=
  if isActive (page w) && advance_key key then next w else Ok w.

Definition listeners (w : W) : nat :=
  staleHandlers (page w) + (if handlerBound (page w) then 1 else 0).

Inductive event :=
  | Click
  | KeyDown (key : string)
  | Wait (ms : nat).

Definition step (e : event) (w : W) : W :=
  match e with
  | Click => dispatch (listeners w) handleClick w
  | KeyDown key => dispatch (listeners w) (handleKeydown key) w
  | Wait ms => elapse fire ms w
  end.

Definition run (evs : list event) (w : W) : W := foldl (fun w e => step e w) w evs.

(** [PopupSystem.sequence.start] *)
Definition start (its : list Item) (cb : option nat) (w : W) : W :=
  settle (init its cb w).

Definition is_advance (e : event) : bool :=
  match e with
  | Click => true
  | KeyDown key => advance_key key
  | Wait _ => false
  end.

Definition advances (evs : list event) : nat := length (filter (fun e => is_advance e = true) evs).

Definition waited (evs : list event) : nat :=
  foldr (fun e n => match e with Wait ms => ms + n | _ => n end) 0 evs.

(** No sequence is running and none is winding down. *)
Definition quiescent (w : W) : Prop :=
  pending w = [] ∧ handlerBound (page w) = false ∧ staleHandlers (page w) = 0.

Definition is_next (c : callback) : bool :=
  match c with
  | NextTimeout => true
  | CompleteTimeout => false
  end.

(** The timers of a list that advance ([b = true]) or complete ([b = false]). *)
Definition count (b : bool) (l : list (nat * callback)) : nat :=
  length (filter (fun t => is_next t.2 = b) l).

Definition is_wait (e : event) : bool :=
  match e with
  | Wait _ => true
  | _ => false
  end.

(** The stages of one run of the presenter over the items [its] with the
    callback [cb], started on a page whose logs held [r0] and [c0]. *)
Section stages.
Variables (its : list Item) (cb : nat) (r0 c0 : list nat) (u0 : nat).

Record steady (w : W) : Prop := {
  st_items : items (page w) = its;
  st_callback : onComplete (page w) = Some cb;
  st_container : is_Some (container (page w));
  st_stale : staleHandlers (page w) = 0;
  st_uncaught : uncaught w = u0
}.

(** Some item is on display; [a] advances have been accepted, of which
    those not yet carried out wait as timers, none due later than [D]. *)
Record showing (D a : nat) (w : W) : Prop := {
  sh_steady : steady w;
  sh_bound : handlerBound (page w) = true;
  sh_active : isActive (page w) = true;
  sh_index : currentIndex (page w) < length its;
  sh_rendered : rendered (page w) = r0 ++ seq 0 (S (currentIndex (page w)));
  sh_completed : completed (page w) = c0;
  sh_pending :
    Forall (fun t => t.2 = NextTimeout ∧ clock w < t.1 ≤ D) (pending w);
  sh_deadline : D ≤ clock w + 300;
  sh_count : currentIndex (page w) + length (pending w) = a
}.

(** [complete] has run; its timer falls due at [T]. *)
Record winding_down (T : nat) (w : W) : Prop := {
  wd_steady : steady w;
  wd_bound : handlerBound (page w) = true;
  wd_active : isActive (page w) = false;
  wd_rendered : rendered (page w) = r0 ++ seq 0 (length its);
  wd_completed : completed (page w) = c0;
  wd_pending : pending w = [(T, CompleteTimeout)];
  wd_due : clock w < T
}.

Record finished (w : W) : Prop := {
  fi_steady : steady w;
  fi_bound : handlerBound (page w) = false;
  fi_active : isActive (page w) = false;
  fi_rendered : rendered (page w) = r0 ++ seq 0 (length its);
  fi_completed : completed (page w) = c0 ++ [cb];
  fi_pending : pending w = []
}.

(** The last advance has been carried out: the callback has run, or will
    have run by [deadline]. *)
Definition concluding (deadline : nat) (w : W) : Prop :=
  (∃ T, winding_down T w ∧ T ≤ deadline) ∨ finished w.

(** [a] advances have been accepted, no fewer than there are items. The
    timers in [due] have fallen due and are about to run; every advance, run
    or still to run, is accounted for by the index, and every completion by
    the callback log. Advance timers are due by [D], the others by
    [D + 300]. *)
Record overrun (a D : nat) (due : list (nat * callback)) (w : W) : Prop := {
  ov_steady : steady w;
  ov_count : currentIndex (page w) + count true (due ++ pending w) = a;
  ov_showing :
    currentIndex (page w) < length its →
    isActive (page w) = true ∧
    rendered (page w) = r0 ++ seq 0 (S (currentIndex (page w))) ∧
    completed (page w) = c0 ∧
    count false (due ++ pending w) = 0;
  ov_completing :
    length its ≤ currentIndex (page w) →
    isActive (page w) = false ∧
    rendered (page w) = r0 ++ seq 0 (length its) ∧
    ∃ k, completed (page w) = c0 ++ replicate k cb ∧
         k + count false (due ++ pending w) = S (currentIndex (page w) - length its);
  ov_pending :
    Forall (fun t => clock w < t.1 ≤ D + 300 ∧ (is_next t.2 = true → t.1 ≤ D)) (pending w);
  ov_due : Forall (fun t => is_next t.2 = true → clock w ≤ D) due
}.
End stages.

(** A reader who advances three times, with pauses and a stray key. *)
Definition three_advances : list event :=
  [Click; Wait 120; KeyDown "Enter"; KeyDown "a"; Wait 300; Click].

Definition fidgeting : list event :=
  [Click; Wait 100; KeyDown "Enter"; Wait 250].

Definition story : list Item :=
  [mkItem "html" "<p>Welcome</p>" None;
   mkItem "image" "system/boot.png" (Some "Boot screen");
   mkItem "html" "<p>Begin</p>" None].

End SequencePopups.

(** ** Scenario B: scroll triggered system popups *)

Module SystemPopups.
Import Loop.

(** A marker element ([data-system-popup]) with the [dataset] entries the
    script reads, and whether the intersection observer watches it. *)
Record Trigger := mkTrigger {
  popupTriggered : option string;
  popupImage : option string;
  popupHtml : option string;
  popupGlitch : option string;
  observed : bool
}.

(** A queued descriptor. *)
Record PopupData := mkPopupData {
  image : option string;
  html : option string;
  glitch : bool
}.

(** A popup element in [document.body]. *)
Record Popup := mkPopup {
  el : nat;                             (* identity of the element *)
  glitch_enter : bool;
  body_content : content;
  visible : bool                        (* class is-visible *)
}.

Record Sys := mkSys {
  markers : list Trigger;               (* the marker elements of the document, in document order *)
  triggers : list nat;                  (* this.triggers: positions in [markers] *)
  queue : list PopupData;
  currentPopup : option nat;            (* this.currentPopup, by element identity *)
  isShowingPopup : bool;
  observer : bool;                      (* this.observer is not null *)
  bound : bool;                         (* the click and keydown listeners are registered *)
  body : list Popup;                    (* popup elements attached to the body, oldest first *)
  created : nat;                        (* elements created so far: the next identity *)
  backdrop : Backdrop;
  presented : list PopupData            (* descriptors turned into popups, oldest first *)
}.

Inductive callback := CloseTimeout | ShowNextTimeout.

Abbreviation W := (world Sys callback).

Record entry := mkEntry {
  target : nat;                         (* position of the marker in [markers] *)
  isIntersecting : bool
}.

Definition loaded (ms : list Trigger) : W :=
  mkWorld 0 [] 0
          (mkSys ms [] [] None false false false [] 0 (mkBackdrop false false false) []).

Definition set_markers (ms : list Trigger) (s : Sys) : Sys :=
  mkSys ms (triggers s) (queue s) (currentPopup s) (isShowingPopup s) (observer s)
        (bound s) (body s) (created s) (backdrop s) (presented s).

Definition set_queue (q : list PopupData) (s : Sys) : Sys :=
  mkSys (markers s) (triggers s) q (currentPopup s) (isShowingPopup s) (observer s)
        (bound s) (body s) (created s) (backdrop s) (presented s).

Definition set_isShowingPopup (b : bool) (s : Sys) : Sys :=
  mkSys (markers s) (triggers s) (queue s) (currentPopup s) b (observer s)
        (bound s) (body s) (created s) (backdrop s) (presented s).

Definition set_body (l : list Popup) (s : Sys) : Sys :=
  mkSys (markers s) (triggers s) (queue s) (currentPopup s) (isShowingPopup s)
        (observer s) (bound s) l (created s) (backdrop s) (presented s).

Definition set_backdrop (b : Backdrop) (s : Sys) : Sys :=
  mkSys (markers s) (triggers s) (queue s) (currentPopup s) (isShowingPopup s)
        (observer s) (bound s) (body s) (created s) b (presented s).

Definition observe (i : nat) (ms : list Trigger) : list Trigger :=
  alter (fun t => mkTrigger (popupTriggered t) (popupImage t) (popupHtml t)
                            (popupGlitch t) true) i ms.

Definition unobserve (i : nat) (ms : list Trigger) : list Trigger :=
  alter (fun t => mkTrigger (popupTriggered t) (popupImage t) (popupHtml t)
                            (popupGlitch t) false) i ms.

Definition set_popupTriggered (v : option string) (i : nat) (ms : list Trigger)
  : list Trigger :=
  alter (fun t => mkTrigger v (popupImage t) (popupHtml t) (popupGlitch t) (observed t))
        i ms.

Definition descriptor (t : Trigger) : PopupData :=
  mkPopupData (popupImage t) (popupHtml t)
              (match popupGlitch t with
               | Some v => String.eqb v "true"
               | None => false
               end).

Definition popup_content (d : PopupData) : content :=
  if Settings.truthy (image d) then Img (default "" (image d)) "System notification"
  else if Settings.truthy (html d) then Html (default "" (html d))
  else Blank.

Definition showNextPopup (w : W) : W :=
  match queue (page w) with
  | [] => with_page (set_isShowingPopup false) w
  | popupData :: rest =>
      with_page
        (fun s =>
           mkSys (markers s) (triggers s) rest (Some (created s)) true (observer s)
                 (bound s)
                 (body s ++ [mkPopup (created s) (glitch popupData)
                                     (popup_content popupData) true])
                 (S (created s)) (showBackdrop (backdrop s))
                 (presented s ++ [popupData]))
        w
  end.

(** The body of the [forEach] in [handleIntersection]. The observer reports
    only elements it was given, which are markers. *)
Definition handleEntry (w : W) (e : entry) : W :=
  if isIntersecting e then
    match markers (page w) !! target e with
    | None => w
    | Some trigger =>
        if Settings.truthy (popupTriggered trigger) then w
        else
          let w := with_page
                     (fun s => set_markers
                                 (set_popupTriggered (Some "true") (target e) (markers s)) s)
                     w in
          let w := with_page
                     (fun s => set_queue (queue s ++ [descriptor trigger]) s) w in
          let w := if negb (isShowingPopup (page w)) then showNextPopup w else w in
          with_page (fun s => set_markers (unobserve (target e) (markers s)) s) w
    end
  else w.

Definition handleIntersection (entries : list entry) (w : W) : W :=
  foldl handleEntry w entries.

Definition hide_popup (id : nat) (l : list Popup) : list Popup :=
  map (fun p => if (el p =? id)%nat
                then mkPopup (el p) (glitch_enter p) (body_content p) false
                else p) l.

Definition closeCurrentPopup (w : W) : W :=
  match currentPopup (page w) with
  | None => w
  | Some id =>
      let w := with_page (fun s => set_body (hide_popup id (body s)) s) w in
      let w := with_page (fun s => set_backdrop (hideBackdrop (backdrop s)) s) w in
      setTimeout CloseTimeout 300 w
  end.

Definition close_timeout (w : W) : W :=
  let w :=
    match currentPopup (page w) with
    | Some id =>
        with_page
          (fun s =>
             mkSys (markers s) (triggers s) (queue s) None (isShowingPopup s)
                   (observer s) (bound s)
                   (filter (fun p => el p ≠ id) (body s))
                   (created s) (backdrop s) (presented s))
          w
    | None => w
    end in
  setTimeout ShowNextTimeout 200 w.

Definition fire (cb : callback) (w : W) : result W :=
  match cb with
  | CloseTimeout => Ok (close_timeout w)
  | ShowNextTimeout => Ok (showNextPopup w)
  end.

Definition bindEvents (w : W) : W :=
  with_page
    (fun s =>
       mkSys (markers s) (triggers s) (queue s) (currentPopup s) (isShowingPopup s)
             (observer s) true (body s) (created s) (backdrop s) (presented s))
    w.

Definition init (w : W) : W :=
  let all := seq 0 (length (markers (page w))) in
  let w := with_page
             (fun s =>
                mkSys (markers s) all (queue s) (currentPopup s) (isShowingPopup s)
                      (observer s) (bound s) (body s) (created s) (backdrop s)
                      (presented s))
             w in
  if (length (triggers (page w)) =? 0)%nat then w
  else
    let w := with_page
               (fun s =>
                  mkSys (foldl (fun ms i => observe i ms) (markers s) (triggers s))
                        (triggers s) (queue s) (currentPopup s) (isShowingPopup s)
                        true (bound s) (body s) (created s) (backdrop s) (presented s))
               w in
    bindEvents w.

Definition reset (w : W) : result W :=
  if negb (observer (page w)) && negb (length (triggers (page w)) =? 0)%nat
  then Err w
  else
    Ok (with_page
          (fun s =>
             mkSys (foldl (fun ms i => observe i (set_popupTriggered None i ms))
                          (markers s) (triggers s))
                   (triggers s) [] (currentPopup s) (isShowingPopup s) (observer s)
                   (bound s) (body s) (created s) (backdrop s) (presented s))
          w).

Definition handleClick (w : W) : W :=
  if isShowingPopup (page w) && bool_decide (is_Some (currentPopup (page w)))
  then closeCurrentPopup w else w.

Definition dismiss_key (key : string) : bool :=
  String.eqb key "Escape" || String.eqb key "Enter" || String.eqb key " ".

Definition handleKeydown (key : string) (w : W) : W :=
  if isShowingPopup (page w) && dismiss_key key then closeCurrentPopup w else w.

Inductive event :=
  | Intersect (entries : list entry)
  | Click
  | KeyDown (key : string)
  | Wait (ms : nat).

Definition step (e : event) (w : W) : W :=
  match e with
  | Intersect entries => if observer (page w) then handleIntersection entries w else w
  | Click => if bound (page w) then handleClick w else w
  | KeyDown key => if bound (page w) then handleKeydown key w else w
  | Wait ms => elapse fire ms w
  end.

Definition run (evs : list event) (w : W) : W := foldl (fun w e => step e w) w evs.

(** Popups the reader can see. *)
Definition visible_popups (w : W) : list Popup :=
  filter (fun p => visible p = true) (body (page w)).

Definition marker (img : string) : Trigger :=
  mkTrigger None (Some img) None None false.

Definition enters (i : nat) : entry := mkEntry i true.

(** Three markers scroll into the band, then the reader clicks twice within
    the 300 ms of the exit animation. *)
Definition three_markers : W :=
  init (loaded [marker "a.png"; marker "b.png"; marker "c.png"]).

Definition hasty_reader : list event :=
  [Intersect [enters 0]; Intersect [enters 1]; Intersect [enters 2];
   Click; Wait 100; Click; Wait 500].

(** A dismissal that is left to finish: the input, then at least the 500 ms
    of exit animation and pause. *)
Definition dismissal (extra : nat) : list event := [Click; Wait (500 + extra)].

Definition is_dismiss (e : event) : bool :=
  match e with
  | Click => true
  | KeyDown key => dismiss_key key
  | _ => false
  end.

(** The exit animation of a popup is running. *)
Definition closing (w : W) : bool :=
  existsb (fun t => match t.2 with CloseTimeout => true | ShowNextTimeout => false end)
          (pending w).

(** No dismissing input arrives while a popup is closing. *)
Fixpoint unhurried (evs : list event) (w : W) : Prop :=
  match evs with
  | [] => True
  | e :: evs =>
      (is_dismiss e = true → closing w = false) ∧ unhurried evs (step e w)
  end.

(** The global states of the queue. *)
Inductive stage :=
  | Idle
  | Presenting
  | Closing (T : nat)
  | Gap (T : nat).

Definition in_stage (s : stage) (w : W) : Prop :=
  match s with
  | Idle =>
      isShowingPopup (page w) = false ∧ currentPopup (page w) = None ∧
      body (page w) = [] ∧ pending w = [] ∧ queue (page w) = []
  | Presenting =>
      isShowingPopup (page w) = true ∧ pending w = [] ∧
      ∃ p, currentPopup (page w) = Some (el p) ∧ body (page w) = [p]
  | Closing T =>
      isShowingPopup (page w) = true ∧ pending w = [(T, CloseTimeout)] ∧ clock w < T ∧
      ∃ p, currentPopup (page w) = Some (el p) ∧ body (page w) = [p]
  | Gap T =>
      isShowingPopup (page w) = true ∧ pending w = [(T, ShowNextTimeout)] ∧ clock w < T ∧
      currentPopup (page w) = None ∧ body (page w) = []
  end.

Definition orderly (w : W) : Prop := ∃ s, in_stage s w.

(** The entries [es] report markers of [w] that are in the band and not yet
    consumed; [ds] are their descriptors, in the same order. *)
Definition fresh_entries (w : W) (es : list entry) (ds : list PopupData) : Prop :=
  Forall2 (fun e d => isIntersecting e = true ∧
                      ∃ t, markers (page w) !! target e = Some t ∧
                           Settings.truthy (popupTriggered t) = false ∧
                           descriptor t = d) es ds.

(** The reader of [hasty_reader] with the second click held back until the
    first popup has gone. *)
Definition patient_reader : list event :=
  [Intersect [enters 0]; Intersect [enters 1]; Intersect [enters 2];
   Click; Wait 100; Wait 500; Click; Wait 500].

(** Marker [i] has been consumed: its [data-popup-triggered] is set. *)
Definition consumed (i : nat) (w : W) : Prop :=
  ∃ t, markers (page w) !! i = Some t ∧ Settings.truthy (popupTriggered t) = true.

(** What [reset] does to one marker: the flag is deleted and the observer
    watches it again. *)
Definition rearm (t : Trigger) : Trigger :=
  mkTrigger None (popupImage t) (popupHtml t) (popupGlitch t) true.

Definition no_extras : list nat := [0; 0; 0].

End SystemPopups.

(** ** Scenario C: document viewer *)

Module DocumentViewer.
Import Loop.

Record Options := mkOptions {
  type : option string;
  src : option string;
  content : option string;
  title : option string
}.

(** An attachment link of the page: its data attributes, its [href] and its
    text content without the surrounding white space. *)
Record Link := mkLink {
  data_type : option string;
  data_src : option string;
  href : string;
  data_content : option string;
  data_title : option string;
  text : string
}.

(** The markup of the viewer's body, by the element it consists of. *)
Inductive Body :=
  | Iframe (src title : string)
  | Picture (src alt : string)
  | Article (markup : string).

Record Container := mkContainer {
  visible : bool;            (* class is-visible *)
  icon : string;
  heading : string;
  body : Body
}.

Record Viewer := mkViewer {
  container : option Container;   (* this.container, the element #document-viewer *)
  isOpen : bool;
  backdrop : Backdrop;
  onceListeners : nat;            (* click listeners waiting on the backdrop *)
  bound : bool                    (* the document listeners of [init] *)
}.

Inductive callback := RemoveTimeout.

Definition W := world Viewer callback.

Definition initial : Viewer := mkViewer None false (mkBackdrop false false false) 0 false.

Definition fresh : W := mkWorld 0 [] 0 initial.

(** A value spliced into a template literal. *)
Definition spliced (o : option string) : string := default "undefined" o.

Definition set_visible (v : bool) (c : Container) : Container :=
  mkContainer v (icon c) (heading c) (body c).

(** The icon and the body chosen by the [switch] on the type. *)
Definition presentation (o : Options) : string * Body :=
  let picture := Picture (spliced (src o)) (spliced (title o)) in
  match type o with
  | Some t =>
      if String.eqb t "pdf" then ("📄", Iframe (spliced (src o)) (spliced (title o)))
      else if String.eqb t "image" then ("🖼️", picture)
      else if String.eqb t "article" then ("📰", Article (spliced (content o)))
      else ("", picture)
  | None => ("", picture)
  end.

Definition createContainer (o : Options) (s : Viewer) : Viewer :=
  mkViewer (Some (mkContainer false (presentation o).1 (spliced (title o))
                              (presentation o).2))
           (isOpen s) (backdrop s) (onceListeners s) (bound s).

Definition open (o : Options) (w : W) : W :=
  with_page
    (fun s =>
       let s := createContainer o s in
       mkViewer (set_visible true <$> container s) true (showBackdrop (backdrop s))
                (S (onceListeners s)) (bound s))
    w.

Definition close (w : W) : W :=
  match container (page w) with
  | None => w
  | Some c =>
      setTimeout RemoveTimeout 300
        (with_page
           (fun s =>
              mkViewer (Some (set_visible false c)) false (hideBackdrop (backdrop s))
                       (onceListeners s) (bound s))
           w)
  end.

Definition remove_timeout (w : W) : W :=
  match container (page w) with
  | None => w
  | Some _ =>
      with_page
        (fun s => mkViewer None (isOpen s) (backdrop s) (onceListeners s) (bound s)) w
  end.

Definition fire (cb : callback) (w : W) : result W :=
  match cb with
  | RemoveTimeout => Ok (remove_timeout w)
  end.

Definition init (w : W) : W :=
  with_page
    (fun s => mkViewer (container s) (isOpen s) (backdrop s) (onceListeners s) true) w.

(** The click listener of the document, for a click on the link [l]. *)
Definition handleClick (l : Link) (w : W) : W :=
  open (mkOptions (Some (Settings.or_default (data_type l) "image"))
                  (Some (Settings.or_default (data_src l) (href l)))
                  (data_content l)
                  (Some (Settings.or_default (data_title l) (text l))))
       w.

Definition handleKeydown (key : string) (w : W) : W :=
  if isOpen (page w) && String.eqb key "Escape" then close w else w.

(** A click on the backdrop runs the listeners waiting there, each once. *)
Definition clickBackdrop (w : W) : W :=
  dispatch (onceListeners (page w)) (fun w => Ok (close w))
    (with_page
       (fun s => mkViewer (container s) (isOpen s) (backdrop s) 0 (bound s)) w).

Inductive event :=
  | ClickLink (l : Link)        (* a click on an attachment link outside the viewer *)
  | ClickCloseButton
  | ClickBackdrop
  | KeyDown (key : string)
  | Open (o : Options)          (* PopupSystem.document.open *)
  | Close                       (* PopupSystem.document.close *)
  | Wait (ms : nat).

Definition step (e : event) (w : W) : W :=
  match e with
  | ClickLink l => if bound (page w) then handleClick l w else w
  | ClickCloseButton => match container (page w) with Some _ => close w | None => w end
  | ClickBackdrop => clickBackdrop w
  | KeyDown key => if bound (page w) then handleKeydown key w else w
  | Open o => open o w
  | Close => close w
  | Wait ms => elapse fire ms w
  end.

Definition run (evs : list event) (w : W) : W := foldl (fun w e => step e w) w evs.

(** The page once [initPopupSystem] has run. *)
Definition loaded : W := init fresh.

(** The backdrop, the scroll lock and the visibility of the viewer follow
    [isOpen]; timers are at most 300 ms away; a closed viewer that is still in
    the document has its removal pending; a document on display has a
    listener waiting on the backdrop. *)
Definition coherent (w : W) : Prop :=
  bd_visible (backdrop (page w)) = isOpen (page w) ∧
  bd_scroll_locked (backdrop (page w)) = isOpen (page w) ∧
  (∀ c, container (page w) = Some c → visible c = isOpen (page w)) ∧
  Forall (fun t => clock w < t.1 ≤ clock w + 300) (pending w) ∧
  (is_Some (container (page w)) → isOpen (page w) = false → pending w ≠ []) ∧
  (is_Some (container (page w)) → isOpen (page w) = true →
   0 < onceListeners (page w)) ∧
  bound (page w) = true.

(** The inputs that are meant to close the viewer. *)
Definition closes (e : event) : bool :=
  match e with
  | ClickCloseButton | ClickBackdrop | Close => true
  | KeyDown key => String.eqb key "Escape"
  | _ => false
  end.

(** The inputs that open a document. *)
Definition opens (e : event) : bool :=
  match e with
  | ClickLink _ | Open _ => true
  | _ => false
  end.

Definition memo : Options :=
  mkOptions (Some "article") None (Some "<p>Internal memo</p>") (Some "Memo").

Definition scan : Options :=
  mkOptions (Some "pdf") (Some "files/scan.pdf") None (Some "Scan").

End DocumentViewer.

(** * Properties *)

(** Closed decidable statements are settled by evaluating their decision
    procedure. *)
Ltac by_compute :=
  lazymatch goal with
  | |- ¬ _ => apply (bool_decide_eq_false_1 _); vm_compute; reflexivity
  | |- _ => apply (bool_decide_eq_true_1 _); vm_compute; reflexivity
  end.

(** ** The event loop *)

Section loop_props.
Import Loop.
Context {S C : Type}.
Variable fire : C → world S C → result (world S C).
Hypothesis fire_clock : ∀ cb w, clock (settle (fire cb w)) = clock w.

Lemma clock_fire_all (due : list (nat * C)) (w : world S C) :
  clock (fire_all fire due w) = clock w.
Proof.
  revert w. induction due as [|t due IH]; intros w; simpl; [done|].
  rewrite IH. apply fire_clock.
Qed.

Lemma clock_tick (w : world S C) : clock (tick fire w) = Datatypes.S (clock w).
Proof. unfold tick. by rewrite clock_fire_all. Qed.

Lemma clock_elapse (ms : nat) (w : world S C) :
  clock (elapse fire ms w) = clock w + ms.
Proof.
  revert w. induction ms as [|ms IH]; intros w; simpl; [lia|].
  rewrite IH, clock_tick. lia.
Qed.
End loop_props.

Section loop_props_free.
Import Loop.
Context {S C : Type}.
Variable fire : C → world S C → result (world S C).

Lemma elapse_add (a b : nat) (w : world S C) :
  elapse fire (a + b) w = elapse fire b (elapse fire a w).
Proof. revert w. induction a as [|a IH]; intros w; simpl; [done|]. apply IH. Qed.

Lemma elapse_invariant (I : world S C → Prop) (ms : nat) (w : world S C) :
  (∀ w, I w → I (tick fire w)) → I w → I (elapse fire ms w).
Proof.
  intros Htick. revert w. induction ms as [|ms IH]; intros w Hw; simpl; [done|].
  apply IH, Htick, Hw.
Qed.

(** A millisecond in which nothing falls due only moves the clock. *)
Lemma tick_nothing_due (w : world S C) :
  Forall (fun t => t.1 ≠ Datatypes.S (clock w)) (pending w) →
  tick fire w = mkWorld (Datatypes.S (clock w)) (pending w) (uncaught w) (page w).
Proof.
  intros Hnone. unfold tick.
  assert (filter (fun t : nat * C => t.1 = Datatypes.S (clock w)) (pending w) = []) as ->.
  { induction Hnone as [|t l Ht _ IH]; [done|].
    rewrite filter_cons_False by done. exact IH. }
  assert (filter (fun t : nat * C => t.1 ≠ Datatypes.S (clock w)) (pending w) = pending w) as ->.
  { induction Hnone as [|t l Ht _ IH]; [done|].
    rewrite filter_cons_True by done. by rewrite IH. }
  reflexivity.
Qed.

Lemma elapse_nothing_pending (ms : nat) (w : world S C) :
  pending w = [] →
  elapse fire ms w = mkWorld (clock w + ms) [] (uncaught w) (page w).
Proof.
  revert w. induction ms as [|ms IH]; intros w Hp; simpl.
  { destruct w; simpl in *. by rewrite Hp, Nat.add_0_r. }
  rewrite tick_nothing_due by (rewrite Hp; constructor).
  rewrite IH by (simpl; exact Hp). simpl. f_equal. lia.
Qed.

(** A single pending timer fires when its time has come, and not before. *)
Lemma elapse_single (k : nat) (w : world S C) (T : nat) (cb : C) :
  pending w = [(T, cb)] → T = clock w + Datatypes.S k →
  elapse fire (Datatypes.S k) w
  = settle (fire cb (mkWorld T [] (uncaught w) (page w))).
Proof.
  revert w. induction k as [|k IH]; intros w Hp HT.
  - simpl. unfold tick. rewrite Hp.
    rewrite filter_cons_True, filter_cons_False by (simpl; lia).
    rewrite !filter_nil. simpl. by replace (Datatypes.S (clock w)) with T by lia.
  - change (elapse fire (Datatypes.S (Datatypes.S k)) w)
      with (elapse fire (Datatypes.S k) (tick fire w)).
    rewrite tick_nothing_due by (rewrite Hp; constructor; [simpl; lia|constructor]).
    rewrite IH; [reflexivity|exact Hp|simpl; lia].
Qed.
End loop_props_free.

(** ** Preference store *)

Section settings_props.
Import Settings.

Lemma or_default_nonempty (s d : string) : s ≠ "" → or_default (Some s) d = s.
Proof.
  intros Hs. unfold or_default.
  destruct (String.eqb_spec s "") as [->|_]; [contradiction|reflexivity].
Qed.

Lemma themes_nonempty (t : string) : t ∈ THEMES → t ≠ "".
Proof. unfold THEMES. rewrite !elem_of_cons, elem_of_nil. intros [->|[->|[]]]; discriminate. Qed.

Lemma font_sizes_nonempty (f : string) : f ∈ FONT_SIZES → f ≠ "".
Proof.
  unfold FONT_SIZES. rewrite !elem_of_cons, elem_of_nil.
  intros [->|[->|[->|[->|[]]]]]; discriminate.
Qed.

Lemma setTheme_valid (t : string) (save : bool) (p : Page) :
  t ∈ THEMES →
  setTheme t save p =
  dispatchEvent "themechange" t
    (updateThemeButtons t
       (let q := setAttribute "data-theme" t p in
        if save then setItem KEY_theme t q else q)).
Proof. intros Ht. unfold setTheme, includes. rewrite bool_decide_eq_true_2; done. Qed.

Lemma setTheme_invalid (t : string) (save : bool) (p : Page) :
  t ∉ THEMES → setTheme t save p = warn ("Invalid theme: " +:+ t) p.
Proof. intros Ht. unfold setTheme, includes. rewrite bool_decide_eq_false_2; done. Qed.

Lemma setFontSize_valid (f : string) (save : bool) (p : Page) :
  f ∈ FONT_SIZES →
  setFontSize f save p =
  dispatchEvent "fontsizechange" f
    (updateFontSizeButtons f
       (let q := setAttribute "data-font-size" f p in
        if save then setItem KEY_fontSize f q else q)).
Proof. intros Hf. unfold setFontSize, includes. rewrite bool_decide_eq_true_2; done. Qed.

Lemma setFontSize_invalid (f : string) (save : bool) (p : Page) :
  f ∉ FONT_SIZES → setFontSize f save p = warn ("Invalid font size: " +:+ f) p.
Proof. intros Hf. unfold setFontSize, includes. rewrite bool_decide_eq_false_2; done. Qed.

Lemma root_setTheme (t : string) (save : bool) (p : Page) :
  t ∈ THEMES → root (setTheme t save p) = <["data-theme" := t]> (root p).
Proof. intros Ht. rewrite setTheme_valid by done. by destruct save. Qed.

Lemma root_setFontSize (f : string) (save : bool) (p : Page) :
  f ∈ FONT_SIZES → root (setFontSize f save p) = <["data-font-size" := f]> (root p).
Proof. intros Hf. rewrite setFontSize_valid by done. by destruct save. Qed.

Lemma getTheme_setTheme (t : string) (save : bool) (p : Page) :
  t ∈ THEMES → getTheme (setTheme t save p) = t.
Proof.
  intros Ht. unfold getTheme. rewrite root_setTheme, lookup_insert_eq by done.
  apply or_default_nonempty, themes_nonempty, Ht.
Qed.

Lemma getFontSize_setFontSize (f : string) (save : bool) (p : Page) :
  f ∈ FONT_SIZES → getFontSize (setFontSize f save p) = f.
Proof.
  intros Hf. unfold getFontSize. rewrite root_setFontSize, lookup_insert_eq by done.
  apply or_default_nonempty, font_sizes_nonempty, Hf.
Qed.

(** The two setters touch different attributes. *)
Lemma getTheme_setFontSize (f : string) (save : bool) (p : Page) :
  getTheme (setFontSize f save p) = getTheme p.
Proof.
  destruct (decide (f ∈ FONT_SIZES)) as [Hf|Hf].
  - unfold getTheme. rewrite root_setFontSize by done. by rewrite lookup_insert_ne.
  - by rewrite setFontSize_invalid.
Qed.

Lemma storage_unsaved_theme (t : string) (p : Page) :
  storage (setTheme t false p) = storage p.
Proof.
  destruct (decide (t ∈ THEMES)) as [Ht|Ht].
  - by rewrite setTheme_valid.
  - by rewrite setTheme_invalid.
Qed.

Lemma storage_unsaved_font (f : string) (p : Page) :
  storage (setFontSize f false p) = storage p.
Proof.
  destruct (decide (f ∈ FONT_SIZES)) as [Hf|Hf].
  - by rewrite setFontSize_valid.
  - by rewrite setFontSize_invalid.
Qed.

(** C4. For every valid theme and every valid font size, the setter followed
    by the getter gives the value back, and the attribute on the document
    root ([data-theme], [data-font-size]) holds it; whether the setter was
    asked to persist the value makes no difference. *)
Theorem set_then_get (p : Page) (save : bool) (t f : string)
    (Ht : t ∈ THEMES) (Hf : f ∈ FONT_SIZES) :
  (getTheme (setTheme t save p) = t ∧
   root (setTheme t save p) !! "data-theme" = Some t) ∧
  (getFontSize (setFontSize f save p) = f ∧
   root (setFontSize f save p) !! "data-font-size" = Some f).
Proof.
  repeat split.
  - by apply getTheme_setTheme.
  - rewrite root_setTheme by done. apply lookup_insert_eq.
  - by apply getFontSize_setFontSize.
  - rewrite root_setFontSize by done. apply lookup_insert_eq.
Qed.

Lemma set_then_get_witness :
  ("dark" ∈ THEMES ∧ "x-large" ∈ FONT_SIZES) ∧
  (getTheme (setTheme "dark" true (blank false)) = "dark" ∧
   root (setTheme "dark" true (blank false)) !! "data-theme" = Some "dark") ∧
  (getFontSize (setFontSize "x-large" true (blank false)) = "x-large" ∧
   root (setFontSize "x-large" true (blank false)) !! "data-font-size" = Some "x-large").
Proof.
  assert (Ht : "dark" ∈ THEMES) by by_compute.
  assert (Hf : "x-large" ∈ FONT_SIZES) by by_compute.
  split; [done|].
  exact (set_then_get (blank false) true "dark" "x-large" Ht Hf).
Defined.

(** C5. A value outside the enumeration is rejected: the setter only logs a
    warning. The getter result, the root attributes, the stored values, the
    toggle controls and the dispatched events are what they were, and the
    call returns normally (the rejecting branch is [console.warn] followed
    by [return]). *)
Theorem set_invalid_rejected (p : Page) (save : bool) (t f : string)
    (Ht : t ∉ THEMES) (Hf : f ∉ FONT_SIZES) :
  (setTheme t save p = warn ("Invalid theme: " +:+ t) p ∧
   getTheme (setTheme t save p) = getTheme p ∧
   root (setTheme t save p) = root p ∧
   storage (setTheme t save p) = storage p ∧
   warnings (setTheme t save p) = (warnings p ++ ["Invalid theme: " +:+ t])%list) ∧
  (setFontSize f save p = warn ("Invalid font size: " +:+ f) p ∧
   getFontSize (setFontSize f save p) = getFontSize p ∧
   root (setFontSize f save p) = root p ∧
   storage (setFontSize f save p) = storage p ∧
   warnings (setFontSize f save p) = (warnings p ++ ["Invalid font size: " +:+ f])%list).
Proof.
  rewrite setTheme_invalid, setFontSize_invalid by done. done.
Qed.

Lemma set_invalid_rejected_witness :
  (("sepia" ∉ THEMES) ∧ ("huge" ∉ FONT_SIZES)) ∧
  setTheme "sepia" true reader_page = warn "Invalid theme: sepia" reader_page ∧
  setFontSize "huge" true reader_page = warn "Invalid font size: huge" reader_page.
Proof.
  assert (Ht : "sepia" ∉ THEMES) by by_compute.
  assert (Hf : "huge" ∉ FONT_SIZES) by by_compute.
  split; [done|].
  destruct (set_invalid_rejected reader_page true "sepia" "huge" Ht Hf)
    as [(H1 & _) (H2 & _)].
  split; [exact H1|exact H2].
Defined.

Lemma font_index_cases (i : nat) (s : string) :
  FONT_SIZES !! i = Some s →
  (i = 0 ∧ s = "small") ∨ (i = 1 ∧ s = "normal") ∨
  (i = 2 ∧ s = "large") ∨ (i = 3 ∧ s = "x-large").
Proof.
  destruct i as [|[|[|[|i]]]]; simpl; intros H; inversion H; auto 6.
Qed.

Lemma increaseFontSize_at (p : Page) (i : nat) (s : string) :
  FONT_SIZES !! i = Some s → getFontSize p = s →
  increaseFontSize p =
  if (i <? 3)%nat then setFontSize (default s (FONT_SIZES !! S i)) true p else p.
Proof.
  intros Hi Hs. unfold increaseFontSize. rewrite Hs.
  destruct (font_index_cases _ _ Hi) as [[-> ->]|[[-> ->]|[[-> ->]|[-> ->]]]];
    reflexivity.
Qed.

Lemma decreaseFontSize_at (p : Page) (i : nat) (s : string) :
  FONT_SIZES !! i = Some s → getFontSize p = s →
  decreaseFontSize p =
  if (0 <? i)%nat then setFontSize (default s (FONT_SIZES !! Nat.pred i)) true p else p.
Proof.
  intros Hi Hs. unfold decreaseFontSize. rewrite Hs.
  destruct (font_index_cases _ _ Hi) as [[-> ->]|[[-> ->]|[[-> ->]|[-> ->]]]];
    reflexivity.
Qed.

Lemma iter_fixed {A} (g : A → A) (x : A) (n : nat) : g x = x → Nat.iter n g x = x.
Proof. intros Hg. induction n as [|n IH]; simpl; [done|]. by rewrite IH. Qed.

(** C6. From a font size at position [i] of the ordered enumeration
    [small, normal, large, x-large], [increaseFontSize] leads to position
    [min (i + 1) 3] and [decreaseFontSize] to position [i - 1] (0 when
    [i = 0]): one step, no wraparound. The result is a member of the
    enumeration, and at the upper (lower) end any number of increases
    (decreases) leaves the whole page state as it was. *)
Theorem font_stepping (p : Page) (i : nat) (s : string)
    (Hi : FONT_SIZES !! i = Some s) (Hs : getFontSize p = s) :
  FONT_SIZES !! Nat.min (S i) 3 = Some (getFontSize (increaseFontSize p)) ∧
  FONT_SIZES !! Nat.pred i = Some (getFontSize (decreaseFontSize p)) ∧
  getFontSize (increaseFontSize p) ∈ FONT_SIZES ∧
  getFontSize (decreaseFontSize p) ∈ FONT_SIZES ∧
  (i = 3 → ∀ n, Nat.iter n increaseFontSize p = p) ∧
  (i = 0 → ∀ n, Nat.iter n decreaseFontSize p = p).
Proof.
  assert (Hup : FONT_SIZES !! Nat.min (S i) 3 = Some (getFontSize (increaseFontSize p))).
  { rewrite (increaseFontSize_at p i s Hi Hs).
    destruct (font_index_cases _ _ Hi) as [[-> ->]|[[-> ->]|[[-> ->]|[-> ->]]]];
      simpl; rewrite ?getFontSize_setFontSize by by_compute; congruence. }
  assert (Hdn : FONT_SIZES !! Nat.pred i = Some (getFontSize (decreaseFontSize p))).
  { rewrite (decreaseFontSize_at p i s Hi Hs).
    destruct (font_index_cases _ _ Hi) as [[-> ->]|[[-> ->]|[[-> ->]|[-> ->]]]];
      simpl; rewrite ?getFontSize_setFontSize by by_compute; congruence. }
  split; [exact Hup|]. split; [exact Hdn|].
  split; [eapply list_elem_of_lookup_2, Hup|].
  split; [eapply list_elem_of_lookup_2, Hdn|].
  split; intros -> n; apply iter_fixed.
  - by rewrite (increaseFontSize_at p 3 s Hi Hs).
  - by rewrite (decreaseFontSize_at p 0 s Hi Hs).
Qed.

Lemma font_stepping_witness :
  (FONT_SIZES !! 3 = Some "x-large" ∧ getFontSize largest_page = "x-large") ∧
  (∀ n, Nat.iter n increaseFontSize largest_page = largest_page) ∧
  FONT_SIZES !! 2 = Some (getFontSize (decreaseFontSize largest_page)) ∧
  (FONT_SIZES !! 0 = Some "small" ∧ getFontSize smallest_page = "small") ∧
  (∀ n, Nat.iter n decreaseFontSize smallest_page = smallest_page) ∧
  FONT_SIZES !! 1 = Some (getFontSize (increaseFontSize smallest_page)).
Proof.
  assert (Htop : getFontSize largest_page = "x-large") by (vm_compute; reflexivity).
  assert (Hbot : getFontSize smallest_page = "small") by (vm_compute; reflexivity).
  destruct (font_stepping largest_page 3 "x-large" eq_refl Htop)
    as (_ & Hdn & _ & _ & Hfix & _).
  destruct (font_stepping smallest_page 0 "small" eq_refl Hbot)
    as (Hup & _ & _ & _ & _ & Hfix').
  split; [split; [reflexivity|exact Htop]|].
  split; [exact (Hfix eq_refl)|].
  split; [exact Hdn|].
  split; [split; [reflexivity|exact Hbot]|].
  split; [exact (Hfix' eq_refl)|exact Hup].
Defined.

(** C7. Initialisation never writes to storage. When the stored theme is
    absent or not a valid theme and the system preference is dark, the theme
    after initialisation is "dark"; when the stored font size is absent or
    not a valid size, the font size after initialisation is the default
    "normal". *)
Theorem init_fallback (p : Page) :
  storage (initSettings p) = storage p ∧
  ((∀ s, storage p !! KEY_theme = Some s → s ∉ THEMES) →
   prefersDark p = true →
   getTheme (initSettings p) = "dark") ∧
  ((∀ s, storage p !! KEY_fontSize = Some s → s ∉ FONT_SIZES) →
   getFontSize (initSettings p) = "normal").
Proof.
  split; [|split].
  - unfold initSettings.
    repeat match goal with |- context [if ?b then _ else _] => destruct b end;
      by rewrite ?storage_unsaved_font, ?storage_unsaved_theme.
  - intros Hnone Hdark. unfold initSettings.
    assert (truthy (storage p !! KEY_theme)
            && includes THEMES (default "" (storage p !! KEY_theme)) = false) as ->.
    { destruct (storage p !! KEY_theme) as [s|] eqn:Hs; [|done].
      unfold includes. rewrite bool_decide_eq_false_2 by auto. apply andb_false_r. }
    rewrite Hdark.
    match goal with |- context [if ?b then _ else _] => destruct b end;
      rewrite getTheme_setFontSize; apply getTheme_setTheme; by_compute.
  - intros Hnone. unfold initSettings.
    match goal with
    | |- context [storage ?q0 !! KEY_fontSize] =>
        assert (Hq : storage q0 = storage p)
          by (destruct (_ && _); apply storage_unsaved_theme);
        rewrite Hq; clear Hq
    end.
    assert (truthy (storage p !! KEY_fontSize)
            && includes FONT_SIZES (default "" (storage p !! KEY_fontSize)) = false) as ->.
    { destruct (storage p !! KEY_fontSize) as [s|] eqn:Hs; [|done].
      unfold includes. rewrite bool_decide_eq_false_2 by auto. apply andb_false_r. }
    apply getFontSize_setFontSize. by_compute.
Qed.

(** After initialisation the applied theme and font size are members of their
    enumerations, whatever was stored. *)
Lemma init_applies_valid_values (p : Page) :
  getTheme (initSettings p) ∈ THEMES ∧ getFontSize (initSettings p) ∈ FONT_SIZES.
Proof.
  unfold initSettings. split.
  - match goal with |- getTheme (if ?c then _ else _) ∈ _ => destruct c end;
      rewrite getTheme_setFontSize.
    all: destruct (_ && _) eqn:Hsaved.
    all: try (apply andb_true_iff in Hsaved as [_ Hin%bool_decide_eq_true_1];
              by rewrite getTheme_setTheme).
    all: destruct (prefersDark p); rewrite getTheme_setTheme by by_compute; by_compute.
  - match goal with |- getFontSize (if ?c then _ else _) ∈ _ => destruct c eqn:Hsaved end.
    + apply andb_true_iff in Hsaved as [_ Hin%bool_decide_eq_true_1].
      by rewrite getFontSize_setFontSize.
    + rewrite getFontSize_setFontSize by by_compute. by_compute.
Qed.

Lemma init_fallback_witness :
  (storage (blank true) !! KEY_theme = None ∧ prefersDark (blank true) = true ∧
   storage (blank true) !! KEY_fontSize = None) ∧
  storage (initSettings (blank true)) = storage (blank true) ∧
  getTheme (initSettings (blank true)) = "dark" ∧
  getFontSize (initSettings (blank true)) = "normal".
Proof.
  destruct (init_fallback (blank true)) as (Hst & Hth & Hfs).
  split; [repeat split; vm_compute; reflexivity|].
  split; [exact Hst|]. split.
  - apply Hth; [|reflexivity]. intros s Hs. vm_compute in Hs. discriminate.
  - apply Hfs. intros s Hs. vm_compute in Hs. discriminate.
Defined.

(** C9. [toggleTheme] always ends on a valid theme. With the attribute unset,
    or holding something that is not a valid theme, the result is "dark".
    From a valid theme, toggling twice brings [getTheme] back to where it
    started. *)
Theorem toggle_total_involutive (p : Page) :
  getTheme (toggleTheme p) ∈ THEMES ∧
  (root p !! "data-theme" = None → getTheme (toggleTheme p) = "dark") ∧
  (getTheme p ∉ THEMES → getTheme (toggleTheme p) = "dark") ∧
  (getTheme p ∈ THEMES → getTheme (toggleTheme (toggleTheme p)) = getTheme p).
Proof.
  assert (Hstep : ∀ q, getTheme (toggleTheme q) =
                       if String.eqb (getTheme q) "dark" then "light" else "dark").
  { intros q. unfold toggleTheme. fold (getTheme q).
    destruct (String.eqb (getTheme q) "dark"); apply getTheme_setTheme; by_compute. }
  split; [|split; [|split]].
  - rewrite Hstep. destruct (String.eqb _ _); by_compute.
  - intros Hnone. rewrite Hstep. unfold getTheme. by rewrite Hnone.
  - intros Hinv. rewrite Hstep.
    destruct (String.eqb_spec (getTheme p) "dark") as [Heq|_]; [|done].
    exfalso. apply Hinv. rewrite Heq. by_compute.
  - intros Hval. rewrite !Hstep.
    revert Hval. unfold THEMES. rewrite !elem_of_cons, elem_of_nil.
    intros [->|[->|[]]]; reflexivity.
Qed.

Lemma toggle_total_involutive_witness :
  (root (blank false) !! "data-theme" = None ∧
   getTheme (toggleTheme (blank false)) = "dark") ∧
  ((getTheme foreign_page ∉ THEMES) ∧
   getTheme (toggleTheme foreign_page) = "dark") ∧
  (getTheme reader_page ∈ THEMES ∧
   getTheme (toggleTheme (toggleTheme reader_page)) = getTheme reader_page).
Proof.
  destruct (toggle_total_involutive (blank false)) as (_ & Hunset & _).
  destruct (toggle_total_involutive foreign_page) as (_ & _ & Hforeign & _).
  destruct (toggle_total_involutive reader_page) as (_ & _ & _ & Htwice).
  assert (H1 : root (blank false) !! "data-theme" = None) by (vm_compute; reflexivity).
  assert (H2 : getTheme foreign_page ∉ THEMES) by by_compute.
  assert (H3 : getTheme reader_page ∈ THEMES) by by_compute.
  split; [split; [exact H1|exact (Hunset H1)]|].
  split; [split; [exact H2|exact (Hforeign H2)]|].
  split; [exact H3|exact (Htwice H3)].
Defined.

End settings_props.


(** ** Sequential presenter *)

Section sequence_props.
Import Loop SequencePopups.
Local Arguments seq : simpl never.

Lemma fire_keeps_clock (cb : callback) (w : W) : clock (settle (fire cb w)) = clock w.
Proof.
  destruct cb; simpl;
    unfold next_timeout, complete_timeout, showCurrentPopup, complete, set_visible;
    simpl; repeat case_match; simpl; reflexivity.
Qed.

Lemma clock_step (e : event) (w : W) :
  clock (step e w) = clock w + match e with Wait ms => ms | _ => 0 end.
Proof.
  assert (Hd : ∀ h n (v : W), (∀ v, clock (settle (h v)) = clock v) →
                                clock (dispatch n h v) = clock v).
  { intros h n. induction n as [|n IH]; intros v Hh; simpl; [done|].
    rewrite IH by done. apply Hh. }
  destruct e; simpl.
  - rewrite Hd; [lia|]. intros v. unfold handleClick, next, set_visible.
    repeat case_match; simpl; reflexivity.
  - rewrite Hd; [lia|]. intros v. unfold handleKeydown, next, set_visible.
    repeat case_match; simpl; reflexivity.
  - apply clock_elapse, fire_keeps_clock.
Qed.

Lemma clock_run (evs : list event) (w : W) : clock (run evs w) = clock w + waited evs.
Proof.
  revert w. induction evs as [|e evs IH]; intros w; simpl; [lia|].
  unfold run in *. simpl. rewrite IH, clock_step. destruct e; lia.
Qed.

Lemma run_app (evs1 evs2 : list event) (w : W) :
  run (evs1 ++ evs2) w = run evs2 (run evs1 w).
Proof. apply foldl_app. Qed.

Variables (its : list Item) (cb : nat) (r0 c0 : list nat) (u0 : nat).
Abbreviation showing := (showing its cb r0 c0 u0).
Abbreviation winding_down := (winding_down its cb r0 c0 u0).
Abbreviation finished := (finished its cb r0 c0 u0).
Abbreviation concluding := (concluding its cb r0 c0 u0).

(** *** Starting *)

Lemma start_nonempty (w : W) :
  its ≠ [] → quiescent w → uncaught w = u0 →
  rendered (page w) = r0 → completed (page w) = c0 →
  init its (Some cb) w = Ok (start its (Some cb) w) ∧
  showing (clock w) 0 (start its (Some cb) w).
Proof.
  intros Hne (Hp & Hb & Hs) Hu Hr Hc.
  destruct its as [|item rest] eqn:Hits; [done|].
  unfold start, init, showCurrentPopup. simpl.
  split; [reflexivity|].
  constructor; simpl; rewrite ?Hp, ?Hb, ?Hs, ?Hr, ?Hc; try done.
  - constructor; simpl; rewrite ?Hb; eauto.
  - lia.
  - lia.
Qed.

Lemma start_empty (w : W) :
  its = [] → quiescent w → uncaught w = u0 →
  rendered (page w) = r0 → completed (page w) = c0 →
  init its (Some cb) w = Ok (start its (Some cb) w) ∧
  winding_down (clock w + 300) (start its (Some cb) w).
Proof.
  intros -> (Hp & Hb & Hs) Hu Hr Hc.
  unfold start, init, showCurrentPopup, complete. simpl.
  split; [reflexivity|].
  constructor; simpl; rewrite ?Hp, ?Hb, ?Hs, ?Hr, ?Hc, ?app_nil_r; try done.
  - constructor; simpl; rewrite ?Hb; eauto.
  - lia.
Qed.

(** *** Inputs *)

Lemma idle_key (key : string) (w : W) :
  advance_key key = false → step (KeyDown key) w = w.
Proof.
  intros Hk. simpl. generalize (listeners w). intros n.
  induction n as [|n IH]; simpl; [done|].
  unfold handleKeydown at 2. rewrite Hk, andb_false_r. simpl. exact IH.
Qed.

Lemma input_when_inactive (e : event) (w : W) :
  isActive (page w) = false → (∀ ms, e ≠ Wait ms) → step e w = w.
Proof.
  intros Hin He. destruct e as [|key|ms]; [| |by destruct (He ms)]; simpl;
    generalize (listeners w); intros n.
  - induction n as [|n IH]; simpl; [done|].
    unfold handleClick at 2. rewrite Hin. simpl. exact IH.
  - induction n as [|n IH]; simpl; [done|].
    unfold handleKeydown at 2. rewrite Hin. simpl. exact IH.
Qed.

Lemma advance_showing (D a : nat) (e : event) (w : W) :
  showing D a w → is_advance e = true →
  showing (clock w + 300) (Datatypes.S a) (step e w).
Proof.
  intros [[Hi Hcb [c Hc] Hst Hu] Hb Hact Hidx Hr Hco Hp HD Hn] He.
  assert (Hstep : step e w = settle (next w)).
  { destruct e as [|key|ms]; [| |done]; simpl; unfold listeners; rewrite Hst, Hb; simpl.
    - unfold handleClick. by rewrite Hact.
    - unfold handleKeydown. simpl in He. by rewrite Hact, He. }
  rewrite Hstep. unfold next, set_visible. rewrite Hc. simpl.
  constructor; simpl; try done.
  - apply Forall_app. split.
    + eapply Forall_impl; [exact Hp|]. simpl. intros t (? & ? & ?). split; [done|lia].
    + constructor; [|done]. simpl. split; [done|lia].
  - rewrite length_app. simpl. lia.
Qed.

(** *** Timers *)

Lemma next_timeout_showing (D b : nat) (w : W) :
  showing D b w → Datatypes.S (currentIndex (page w)) < length its →
  showing D (Datatypes.S b) (settle (next_timeout w)).
Proof.
  intros [[Hi Hcb [c Hc] Hst Hu] Hb Hact Hidx Hr Hco Hp HD Hn] Hlt.
  unfold next_timeout. simpl. rewrite Hi.
  destruct (Nat.ltb_spec (Datatypes.S (currentIndex (page w))) (length its)); [|lia].
  unfold showCurrentPopup. simpl. rewrite Hi.
  destruct (lookup_lt_is_Some_2 its _ Hlt) as [item ->].
  rewrite Hc. simpl.
  constructor; simpl; try done.
  - rewrite Hr. rewrite (seq_S (Datatypes.S (currentIndex (page w))) 0).
    by rewrite app_assoc.
  - lia.
Qed.

Lemma next_timeout_last (D : nat) (w : W) :
  showing D (currentIndex (page w)) w →
  Datatypes.S (currentIndex (page w)) = length its →
  winding_down (clock w + 300) (settle (next_timeout w)).
Proof.
  intros [[Hi Hcb [c Hc] Hst Hu] Hb Hact Hidx Hr Hco Hp HD Hn] Hlast.
  assert (Hnil : pending w = []).
  { destruct (pending w); [done|]. simpl in Hn. lia. }
  unfold next_timeout. simpl. rewrite Hi.
  destruct (Nat.ltb_spec (Datatypes.S (currentIndex (page w))) (length its)); [lia|].
  unfold complete, set_visible. simpl. rewrite Hc. simpl.
  constructor; simpl; try done.
  - rewrite Hr. by rewrite Hlast.
  - by rewrite Hnil.
  - lia.
Qed.

Lemma fire_nexts (due : list (nat * callback)) (D b : nat) (w : W) :
  Forall (fun t => t.2 = NextTimeout) due →
  showing D b w → b + length due ≤ length its →
  showing D (b + length due) (fire_all fire due w) ∨
  (b + length due = length its ∧ winding_down (clock w + 300) (fire_all fire due w)).
Proof.
  revert b w. induction due as [|t due IH]; intros b w Hdue Hsh Hle; simpl.
  { left. by rewrite Nat.add_0_r. }
  apply Forall_cons in Hdue as [Ht Hdue]. rewrite Ht. simpl in Hle |- *.
  pose proof (sh_index _ _ _ _ _ _ _ _ Hsh) as Hidx.
  pose proof (sh_count _ _ _ _ _ _ _ _ Hsh) as Hn.
  destruct (decide (Datatypes.S (currentIndex (page w)) < length its)) as [Hlt|Hge].
  - pose proof (next_timeout_showing D b w Hsh Hlt) as Hsh'.
    destruct (IH (Datatypes.S b) _ Hdue Hsh' ltac:(lia)) as [H|[H1 H2]].
    + left. by rewrite <- Nat.add_succ_comm.
    + right. split; [lia|].
      replace (clock w) with (clock (settle (next_timeout w))); [done|].
      apply (fire_keeps_clock NextTimeout).
  - right.
    assert (due = []) as -> by (destruct due; [done|simpl in Hle; lia]).
    assert (b = currentIndex (page w)) as Hb by (simpl in Hle; lia).
    split; [simpl in *; lia|]. simpl.
    apply (next_timeout_last D); [by rewrite <- Hb|lia].
Qed.

Lemma filter_due_split {A} (now : nat) (l : list (nat * A)) :
  length (filter (fun t => t.1 = now) l) + length (filter (fun t => t.1 ≠ now) l)
  = length l.
Proof.
  induction l as [|t l IH]; [done|].
  destruct (decide (t.1 = now)) as [Ht|Ht].
  - rewrite filter_cons_True, (filter_cons_False (fun t => t.1 ≠ now)) by auto.
    simpl. lia.
  - rewrite filter_cons_False, (filter_cons_True (fun t => t.1 ≠ now)) by auto.
    simpl. lia.
Qed.

Lemma tick_showing (D a : nat) (w : W) :
  showing D a w → a ≤ length its →
  showing D a (tick fire w) ∨
  (a = length its ∧ winding_down (Datatypes.S (clock w) + 300) (tick fire w)).
Proof.
  intros Hsh Hle. pose proof Hsh as [[Hi Hcb Hc Hst Hu] Hb Hact Hidx Hr Hco Hp HD Hn].
  unfold tick.
  set (now := Datatypes.S (clock w)).
  set (due := filter (fun t => t.1 = now) (pending w)).
  set (rest := filter (fun t => t.1 ≠ now) (pending w)).
  pose proof (filter_due_split now (pending w)) as Hlen. fold due rest in Hlen.
  assert (Hsh1 : showing D (a - length due) (mkWorld now rest (uncaught w) (page w))).
  { constructor; simpl; try done.
    - apply Forall_forall. intros t Ht.
      apply list_elem_of_filter in Ht as [Hne Ht].
      rewrite Forall_forall in Hp. destruct (Hp t Ht) as (? & ? & ?).
      split; [done|]. subst now. lia.
    - subst now. lia.
    - lia. }
  assert (Hdue : Forall (fun t => t.2 = NextTimeout) due).
  { apply Forall_forall. intros t Ht.
    apply list_elem_of_filter in Ht as [_ Ht].
    rewrite Forall_forall in Hp. by destruct (Hp t Ht). }
  destruct (fire_nexts due D _ _ Hdue Hsh1 ltac:(lia)) as [H|[H1 H2]].
  - left. by replace (a - length due + length due) with a in H by lia.
  - right. split; [lia|exact H2].
Qed.

Lemma tick_winding_down (T : nat) (w : W) :
  winding_down T w →
  if decide (Datatypes.S (clock w) = T) then finished (tick fire w)
  else winding_down T (tick fire w).
Proof.
  intros [[Hi Hcb [c Hc] Hst Hu] Hb Hact Hr Hco Hp Hd].
  destruct (decide (Datatypes.S (clock w) = T)) as [HT|HT].
  - unfold tick. rewrite Hp.
    rewrite filter_cons_True, filter_cons_False by (simpl; auto).
    rewrite !filter_nil. simpl.
    unfold complete_timeout. simpl. rewrite Hc. simpl.
    constructor; simpl; try done.
    by rewrite Hcb, Hco.
  - rewrite tick_nothing_due by (rewrite Hp; constructor; simpl; auto).
    constructor; simpl; try done. lia.
Qed.

Lemma tick_finished (w : W) : finished w → finished (tick fire w).
Proof.
  intros [[Hi Hcb Hc Hst Hu] Hb Hact Hr Hco Hp].
  rewrite tick_nothing_due by (rewrite Hp; constructor).
  constructor; simpl; done.
Qed.

(** *** Waiting *)

Lemma elapse_finished (ms : nat) (w : W) : finished w → finished (elapse fire ms w).
Proof. apply elapse_invariant, tick_finished. Qed.

Lemma elapse_winding_down (T ms : nat) (w : W) :
  winding_down T w →
  (clock w + ms < T ∧ winding_down T (elapse fire ms w)) ∨
  (T ≤ clock w + ms ∧ finished (elapse fire ms w)).
Proof.
  revert w. induction ms as [|ms IH]; intros w Hw; simpl.
  { left. split; [|done]. pose proof (wd_due _ _ _ _ _ _ _ Hw). lia. }
  pose proof (tick_winding_down T w Hw) as Ht.
  pose proof (wd_due _ _ _ _ _ _ _ Hw) as Hd.
  destruct (decide (Datatypes.S (clock w) = T)) as [HT|HT].
  - right. split; [lia|]. by apply elapse_finished.
  - destruct (IH _ Ht) as [[H1 H2]|[H1 H2]];
      rewrite (clock_tick fire fire_keeps_clock) in H1; [left|right]; split; auto; lia.
Qed.

Lemma concluding_later (d d' : nat) (w : W) :
  concluding d w → d ≤ d' → concluding d' w.
Proof. intros [(T & H & ?)|H] ?; [left; exists T; split; [done|lia]|by right]. Qed.

Lemma elapse_concluding (d ms : nat) (w : W) :
  concluding d w → concluding d (elapse fire ms w).
Proof.
  intros [(T & H & HT)|H]; [|right; by apply elapse_finished].
  destruct (elapse_winding_down T ms w H) as [[_ H']|[_ H']]; [left; eauto|by right].
Qed.

Lemma concluding_finishes (d ms : nat) (w : W) :
  concluding d w → d ≤ clock w + ms → finished (elapse fire ms w).
Proof.
  intros [(T & H & HT)|H] Hd; [|by apply elapse_finished].
  destruct (elapse_winding_down T ms w H) as [[? _]|[_ H']]; [lia|done].
Qed.

Lemma elapse_showing (D a ms : nat) (w : W) :
  showing D a w → a ≤ length its →
  showing D a (elapse fire ms w) ∨
  (a = length its ∧ concluding (clock w + ms + 300) (elapse fire ms w)).
Proof.
  revert w. induction ms as [|ms IH]; intros w Hsh Hle; simpl; [by left|].
  destruct (tick_showing D a w Hsh Hle) as [H|[Ha H]].
  - destruct (IH _ H Hle) as [H'|[Ha H']]; [by left|right].
    split; [done|]. rewrite (clock_tick fire fire_keeps_clock) in H'.
    eapply concluding_later; [exact H'|lia].
  - right. split; [done|]. apply elapse_concluding.
    left. eexists. split; [exact H|lia].
Qed.

(** Once every advance has been accepted, the item on display does not
    outlive the last pending timer. *)
Lemma showing_all_not_due (D : nat) (w : W) :
  showing D (length its) w → clock w < D.
Proof.
  intros [_ _ _ Hidx _ _ Hp _ Hn].
  destruct (pending w) as [|t l]; [simpl in Hn; lia|].
  apply Forall_cons in Hp as [(_ & ? & ?) _]. lia.
Qed.

Lemma last_advance_concludes (D : nat) (w : W) :
  showing D (length its) w → finished (elapse fire 600 w).
Proof.
  intros Hsh. change 600 with (300 + 300). rewrite elapse_add.
  pose proof (sh_deadline _ _ _ _ _ _ _ _ Hsh) as HD.
  destruct (elapse_showing D _ 300 w Hsh ltac:(lia)) as [H|[_ H]].
  - apply showing_all_not_due in H.
    rewrite (clock_elapse fire fire_keeps_clock) in H. lia.
  - eapply concluding_finishes; [exact H|].
    rewrite (clock_elapse fire fire_keeps_clock). lia.
Qed.

(** *** Whole schedules *)

Lemma step_concluding (d : nat) (e : event) (w : W) :
  concluding d w → concluding d (step e w).
Proof.
  intros H. destruct e as [| |ms]; [| |by apply elapse_concluding].
  - rewrite input_when_inactive; [done| |done].
    destruct H as [(T & H & _)|H]; [apply (wd_active _ _ _ _ _ _ _ H)|apply (fi_active _ _ _ _ _ _ H)].
  - rewrite input_when_inactive; [done| |done].
    destruct H as [(T & H & _)|H]; [apply (wd_active _ _ _ _ _ _ _ H)|apply (fi_active _ _ _ _ _ _ H)].
Qed.

Lemma run_concluding (d : nat) (evs : list event) (w : W) :
  concluding d w → concluding d (run evs w).
Proof.
  revert w. induction evs as [|e evs IH]; intros w H; [done|].
  apply IH, step_concluding, H.
Qed.

Lemma advances_cons (e : event) (evs : list event) :
  advances (e :: evs) = (if is_advance e then 1 else 0) + advances evs.
Proof.
  unfold advances. destruct (is_advance e) eqn:He.
  - by rewrite filter_cons_True.
  - rewrite filter_cons_False; [done|]. by rewrite He.
Qed.

Lemma run_showing (evs : list event) (D a : nat) (w : W) :
  showing D a w → a + advances evs ≤ length its →
  (∃ D', showing D' (a + advances evs) (run evs w)) ∨
  (a + advances evs = length its ∧
   concluding (clock (run evs w) + 300) (run evs w)).
Proof.
  revert D a w. induction evs as [|e evs IH]; intros D a w Hsh Hle.
  { left. exists D. change (advances []) with 0. by rewrite Nat.add_0_r. }
  rewrite advances_cons in Hle |- *.
  change (run (e :: evs) w) with (run evs (step e w)).
  assert (Hstep : (∃ D', showing D' (a + if is_advance e then 1 else 0) (step e w)) ∨
                  ((is_advance e = false ∧ a = length its) ∧
                   concluding (clock (step e w) + 300) (step e w))).
  { destruct (is_advance e) eqn:He.
    - left. exists (clock w + 300). rewrite Nat.add_1_r. by eapply advance_showing.
    - rewrite Nat.add_0_r. destruct e as [|key|ms]; [done| |].
      + left. exists D. by rewrite idle_key.
      + destruct (elapse_showing D a ms w Hsh ltac:(lia)) as [H|[Ha H]].
        * left. by exists D.
        * right. split; [done|]. simpl.
          rewrite (clock_elapse fire fire_keeps_clock).
          eapply concluding_later; [exact H|lia]. }
  destruct Hstep as [[D' H]|[[He Ha] H]].
  - rewrite Nat.add_assoc. apply (IH D'); [done|lia].
  - right. rewrite He in *. split; [lia|].
    eapply concluding_later; [by apply run_concluding|].
    rewrite clock_run. lia.
Qed.

Lemma step_finished (e : event) (w : W) : finished w → finished (step e w).
Proof.
  intros H. destruct e as [| |ms]; [| |by apply elapse_finished];
    (rewrite input_when_inactive; [done|apply (fi_active _ _ _ _ _ _ H)|done]).
Qed.

Lemma run_finished (evs : list event) (w : W) : finished w → finished (run evs w).
Proof.
  revert w. induction evs as [|e evs IH]; intros w H; [done|].
  apply IH, step_finished, H.
Qed.

Lemma run_winding_down (T : nat) (evs : list event) (w : W) :
  winding_down T w →
  (clock w + waited evs < T ∧ winding_down T (run evs w)) ∨
  (T ≤ clock w + waited evs ∧ finished (run evs w)).
Proof.
  revert w. induction evs as [|e evs IH]; intros w Hw.
  { left. simpl. split; [|done]. pose proof (wd_due _ _ _ _ _ _ _ Hw). lia. }
  change (run (e :: evs) w) with (run evs (step e w)).
  assert (Hstep : (clock (step e w) < T ∧ winding_down T (step e w)) ∨
                  (T ≤ clock (step e w) ∧ finished (step e w))).
  { destruct e as [| |ms].
    - rewrite input_when_inactive; [left|apply (wd_active _ _ _ _ _ _ _ Hw)|done].
      split; [apply (wd_due _ _ _ _ _ _ _ Hw)|done].
    - rewrite input_when_inactive; [left|apply (wd_active _ _ _ _ _ _ _ Hw)|done].
      split; [apply (wd_due _ _ _ _ _ _ _ Hw)|done].
    - simpl. rewrite (clock_elapse fire fire_keeps_clock).
      apply elapse_winding_down, Hw. }
  assert (Hclock : clock w + waited (e :: evs) = clock (step e w) + waited evs).
  { rewrite clock_step. destruct e; simpl; lia. }
  rewrite Hclock.
  destruct Hstep as [[_ H]|[Hc H]]; [by apply IH|].
  right. split; [lia|by apply run_finished].
Qed.

End sequence_props.

Section sequence_claims.
Import Loop SequencePopups.
Local Arguments seq : simpl never.

(** C2. A sequence of [N > 0] items is started on a page where no sequence
    is under way, and the reader then gives exactly [N] advancing inputs
    (clicks, Enter, Space or Escape), with any pauses and other keys in
    between. Starting returns normally. As long as fewer than [N] advances
    have been given the callback has not run, and the items rendered are
    0, 1, ..., in order and without repetition, never more than one ahead of
    the advances. Once the two animations of 300 ms have run out, exactly
    the [N] items 0 .. N-1 have been rendered, each once, the callback has
    been invoked once, and no later input or pause invokes it again. *)
Theorem sequence_completes_once (its : list Item) (cb : nat) (w : W) (evs : list event)
    (Hne : its ≠ []) (Hq : quiescent w) (Hadv : advances evs = length its) :
  let w0 := start its (Some cb) w in
  let w1 := run (evs ++ [Wait 600]) w0 in
  init its (Some cb) w = Ok w0 ∧
  (∀ pre post, evs = pre ++ post → advances pre < length its →
     completed (page (run pre w0)) = completed (page w) ∧
     isActive (page (run pre w0)) = true ∧
     ∃ m, m ≤ advances pre ∧
          rendered (page (run pre w0)) = rendered (page w) ++ seq 0 (Datatypes.S m)) ∧
  rendered (page w1) = rendered (page w) ++ seq 0 (length its) ∧
  completed (page w1) = completed (page w) ++ [cb] ∧
  isActive (page w1) = false ∧
  (∀ later, completed (page (run later w1)) = completed (page w) ++ [cb] ∧
            rendered (page (run later w1)) = rendered (page w) ++ seq 0 (length its)).
Proof.
  intros w0 w1.
  destruct (start_nonempty its cb (rendered (page w)) (completed (page w)) (uncaught w)
              w Hne Hq eq_refl eq_refl eq_refl) as [Hok Hsh].
  fold w0 in Hok, Hsh.
  split; [exact Hok|]. split.
  { intros pre post Hsplit Hpre.
    destruct (run_showing _ _ _ _ _ pre _ 0 w0 Hsh ltac:(simpl; lia)) as [[D H]|[H _]];
      [|simpl in H; lia].
    simpl in H. destruct H as [_ _ Hact _ Hr Hco _ _ Hn].
    split; [exact Hco|]. split; [exact Hact|].
    exists (currentIndex (page (run pre w0))). split; [lia|exact Hr]. }
  assert (Hfin : finished its cb (rendered (page w)) (completed (page w)) (uncaught w) w1).
  { unfold w1. rewrite run_app.
    change (run [Wait 600] (run evs w0)) with (elapse fire 600 (run evs w0)).
    destruct (run_showing _ _ _ _ _ evs _ 0 w0 Hsh ltac:(simpl; lia)) as [[D H]|[_ H]].
    - rewrite Nat.add_0_l, Hadv in H. eapply last_advance_concludes, H.
    - eapply concluding_finishes; [exact H|lia]. }
  split; [apply (fi_rendered _ _ _ _ _ _ Hfin)|].
  split; [apply (fi_completed _ _ _ _ _ _ Hfin)|].
  split; [apply (fi_active _ _ _ _ _ _ Hfin)|].
  intros later. pose proof (run_finished _ _ _ _ _ later w1 Hfin) as Hlater.
  split; [apply (fi_completed _ _ _ _ _ _ Hlater)|apply (fi_rendered _ _ _ _ _ _ Hlater)].
Qed.

(** C10. Starting with an empty list on a page where no sequence is under
    way returns normally and leaves the presenter inactive at once. Whatever
    the reader does afterwards, no item is ever rendered, no error reaches
    the event loop, the presenter stays inactive, and the callback has been
    invoked exactly once as soon as 300 ms have passed, and not before. *)
Theorem empty_sequence_completes (cb : nat) (w : W) (evs : list event)
    (Hq : quiescent w) :
  let w0 := start [] (Some cb) w in
  let w1 := run evs w0 in
  init [] (Some cb) w = Ok w0 ∧
  isActive (page w1) = false ∧
  rendered (page w1) = rendered (page w) ∧
  uncaught w1 = uncaught w ∧
  completed (page w1) =
    if decide (300 ≤ waited evs) then completed (page w) ++ [cb] else completed (page w).
Proof.
  intros w0 w1.
  destruct (start_empty [] cb (rendered (page w)) (completed (page w)) (uncaught w)
              w eq_refl Hq eq_refl eq_refl eq_refl) as [Hok Hwd].
  fold w0 in Hok, Hwd. split; [exact Hok|].
  assert (Hclock : clock w0 = clock w) by reflexivity.
  destruct (run_winding_down _ _ _ _ _ _ evs w0 Hwd) as [[Ht H]|[Ht H]]; fold w1 in H.
  - destruct H as [[_ _ _ _ Hu] _ Hact Hr Hco _ _].
    rewrite app_nil_r in Hr.
    rewrite decide_False by lia. done.
  - destruct H as [[_ _ _ _ Hu] _ Hact Hr Hco _].
    rewrite app_nil_r in Hr.
    rewrite decide_True by lia. done.
Qed.

(** The statement above is about exactly [N] advances. A further advance that
    arrives while the last item fades out (a double click on it) is accepted
    as well, reaches [complete] a second time, and the callback runs twice. *)
Example double_click_on_last_item :
  completed (page (run [Click; Wait 100; Click; Wait 200; Click; Click; Wait 600]
                       (start story (Some 7) fresh))) = [7; 7].
Proof. vm_compute. reflexivity. Qed.

Lemma fresh_quiescent : quiescent fresh.
Proof. repeat split. Qed.

Lemma sequence_completes_once_witness :
  (story ≠ [] ∧ quiescent fresh ∧ advances three_advances = length story) ∧
  rendered (page (run (three_advances ++ [Wait 600]) (start story (Some 7) fresh)))
    = rendered (page fresh) ++ seq 0 (length story) ∧
  completed (page (run (three_advances ++ [Wait 600]) (start story (Some 7) fresh)))
    = completed (page fresh) ++ [7] ∧
  completed (page (run [Click; Wait 120; KeyDown "Enter"] (start story (Some 7) fresh)))
    = completed (page fresh).
Proof.
  assert (H1 : story ≠ []) by discriminate.
  assert (H3 : advances three_advances = length story) by (vm_compute; reflexivity).
  destruct (sequence_completes_once story 7 fresh three_advances H1 fresh_quiescent H3)
    as (_ & Hbefore & Hr & Hc & _).
  split; [exact (conj H1 (conj fresh_quiescent H3))|].
  split; [exact Hr|]. split; [exact Hc|].
  apply (Hbefore [Click; Wait 120; KeyDown "Enter"] [KeyDown "a"; Wait 300; Click] eq_refl).
  vm_compute. lia.
Defined.

Lemma empty_sequence_completes_witness :
  quiescent fresh ∧
  init [] (Some 7) fresh = Ok (start [] (Some 7) fresh) ∧
  rendered (page (run fidgeting (start [] (Some 7) fresh))) = rendered (page fresh) ∧
  completed (page (run fidgeting (start [] (Some 7) fresh))) = completed (page fresh) ++ [7].
Proof.
  destruct (empty_sequence_completes 7 fresh fidgeting fresh_quiescent)
    as (Hok & _ & Hr & _ & Hc).
  split; [exact fresh_quiescent|]. split; [exact Hok|]. split; [exact Hr|].
  rewrite decide_True in Hc by (vm_compute; lia). exact Hc.
Defined.

End sequence_claims.

(** ** Triggered queue *)

Section system_props.
Import Loop SystemPopups.
Local Arguments elapse : simpl never.

Lemma sys_fire_keeps_clock (cb : callback) (w : W) : clock (settle (fire cb w)) = clock w.
Proof.
  destruct cb; simpl; unfold close_timeout, showNextPopup;
    repeat case_match; reflexivity.
Qed.

(** *** Once per marker *)

Lemma handleEntry_consumed (w : W) (e : entry) (t : Trigger) :
  markers (page w) !! target e = Some t →
  Settings.truthy (popupTriggered t) = true →
  handleEntry w e = w.
Proof.
  intros Ht Hflag. unfold handleEntry. rewrite Ht, Hflag. by destruct (isIntersecting e).
Qed.

Lemma markers_showNextPopup (w : W) :
  markers (page (showNextPopup w)) = markers (page w).
Proof. unfold showNextPopup. by destruct (queue (page w)). Qed.

Lemma handleEntry_marks (w : W) (e : entry) (t : Trigger) :
  isIntersecting e = true →
  markers (page w) !! target e = Some t →
  ∃ t', markers (page (handleEntry w e)) !! target e = Some t' ∧
        Settings.truthy (popupTriggered t') = true.
Proof.
  intros Hint Ht. unfold handleEntry. rewrite Hint, Ht.
  destruct (Settings.truthy (popupTriggered t)) eqn:Hflag; [eauto|].
  simpl. destruct (isShowingPopup (page w)); simpl;
    rewrite ?markers_showNextPopup; simpl;
    unfold unobserve, set_popupTriggered;
    rewrite !list_lookup_alter, Ht, !decide_True by done; simpl; eauto.
Qed.

(** *** First in, first out *)

Lemma fifo_showNextPopup (w : W) :
  presented (page (showNextPopup w)) ++ queue (page (showNextPopup w))
  = presented (page w) ++ queue (page w).
Proof.
  unfold showNextPopup. destruct (queue (page w)) as [|d q] eqn:Hq; simpl.
  - by rewrite Hq.
  - by rewrite <- app_assoc.
Qed.

Lemma fifo_handleEntry (w : W) (e : entry) :
  ∃ new, presented (page (handleEntry w e)) ++ queue (page (handleEntry w e))
         = (presented (page w) ++ queue (page w)) ++ new.
Proof.
  unfold handleEntry.
  destruct (isIntersecting e); [|exists []; by rewrite app_nil_r].
  destruct (markers (page w) !! target e) as [t|]; [|exists []; by rewrite app_nil_r].
  destruct (Settings.truthy (popupTriggered t)); [exists []; by rewrite app_nil_r|].
  exists [descriptor t]. simpl.
  destruct (isShowingPopup (page w)); simpl.
  - by rewrite app_assoc.
  - rewrite fifo_showNextPopup. simpl. by rewrite app_assoc.
Qed.

Lemma fifo_fire (cb : callback) (w : W) :
  presented (page (settle (fire cb w))) ++ queue (page (settle (fire cb w)))
  = presented (page w) ++ queue (page w).
Proof.
  destruct cb; simpl; [|apply fifo_showNextPopup].
  unfold close_timeout. by destruct (currentPopup (page w)).
Qed.

Lemma fifo_step (e : event) (w : W) :
  ∃ new, presented (page (step e w)) ++ queue (page (step e w))
         = (presented (page w) ++ queue (page w)) ++ new.
Proof.
  destruct e as [entries| |key|ms]; simpl.
  - destruct (observer (page w)); [|exists []; by rewrite app_nil_r].
    unfold handleIntersection. revert w.
    induction entries as [|e entries IH]; intros w; simpl;
      [exists []; by rewrite app_nil_r|].
    destruct (IH (handleEntry w e)) as [new2 ->].
    destruct (fifo_handleEntry w e) as [new1 ->].
    exists (new1 ++ new2). by rewrite app_assoc.
  - exists []. rewrite app_nil_r. unfold handleClick, closeCurrentPopup.
    repeat case_match; reflexivity.
  - exists []. rewrite app_nil_r. unfold handleKeydown, closeCurrentPopup.
    repeat case_match; reflexivity.
  - exists []. rewrite app_nil_r.
    apply (elapse_invariant fire
             (fun v => presented (page v) ++ queue (page v)
                       = presented (page w) ++ queue (page w))); [|done].
    intros v Hv. unfold tick.
    generalize (filter (fun t : nat * callback => t.1 = Datatypes.S (clock v)) (pending v)).
    generalize (filter (fun t : nat * callback => t.1 ≠ Datatypes.S (clock v)) (pending v)).
    intros rest due.
    change (presented (page v) ++ queue (page v)) with
      (presented (page (mkWorld (Datatypes.S (clock v)) rest (uncaught v) (page v)))
       ++ queue (page (mkWorld (Datatypes.S (clock v)) rest (uncaught v) (page v)))) in Hv.
    revert Hv. generalize (mkWorld (Datatypes.S (clock v)) rest (uncaught v) (page v)).
    induction due as [|t due IH]; intros u Hu; simpl; [done|].
    apply IH. by rewrite fifo_fire.
Qed.

(** X11. Whatever the reader does and whenever, the popups presented so far
    followed by the queue only ever grow at the end: descriptors are
    presented in the order in which they arrived. *)
Lemma presented_in_arrival_order (evs : list event) (w : W) :
  ∃ new, presented (page (run evs w)) ++ queue (page (run evs w))
         = (presented (page w) ++ queue (page w)) ++ new.
Proof.
  revert w. induction evs as [|e evs IH]; intros w; [exists []; by rewrite app_nil_r|].
  change (run (e :: evs) w) with (run evs (step e w)).
  destruct (IH (step e w)) as [new2 ->].
  destruct (fifo_step e w) as [new1 ->].
  exists (new1 ++ new2). by rewrite app_assoc.
Qed.

(** *** One popup at a time, for an unhurried reader *)

Lemma orderly_body (w : W) : orderly w → length (body (page w)) ≤ 1.
Proof.
  intros [[| |T|T] H]; simpl in H.
  - destruct H as (_ & _ & -> & _). simpl. lia.
  - destruct H as (_ & _ & p & _ & ->). simpl. lia.
  - destruct H as (_ & _ & _ & p & _ & ->). simpl. lia.
  - destruct H as (_ & _ & _ & _ & ->). simpl. lia.
Qed.

Lemma visible_le_body (w : W) : length (visible_popups w) ≤ length (body (page w)).
Proof. apply length_filter. Qed.

Lemma showNextPopup_from_gap (w : W) :
  currentPopup (page w) = None → body (page w) = [] → pending w = [] →
  orderly (showNextPopup w).
Proof.
  intros Hc Hb Hp. unfold showNextPopup.
  destruct (queue (page w)) as [|d q] eqn:Hq.
  - exists Idle. simpl. by rewrite Hc, Hb, Hp, Hq.
  - exists Presenting. simpl. rewrite Hb, Hp. split; [done|]. split; [done|].
    by exists (mkPopup (created (page w)) (glitch d) (popup_content d) true).
Qed.

Lemma handleEntry_orderly (w : W) (e : entry) : orderly w → orderly (handleEntry w e).
Proof.
  intros Hw. unfold handleEntry.
  destruct (isIntersecting e); [|done].
  destruct (markers (page w) !! target e) as [t|]; [|done].
  destruct (Settings.truthy (popupTriggered t)); [done|].
  destruct Hw as [[| |T|T] H]; simpl in H.
  - destruct H as (Hs & Hc & Hb & Hp & Hq). simpl. rewrite Hs. simpl.
    unfold showNextPopup. simpl. rewrite Hq. simpl.
    exists Presenting. simpl. rewrite Hb, Hp. split; [done|]. split; [done|].
    by exists (mkPopup (created (page w)) (glitch (descriptor t))
                       (popup_content (descriptor t)) true).
  - destruct H as (Hs & Hp & p & Hc & Hb). simpl. rewrite Hs. simpl.
    exists Presenting. simpl. rewrite Hs, Hp, Hc, Hb. by eauto 8.
  - destruct H as (Hs & Hp & Hd & p & Hc & Hb). simpl. rewrite Hs. simpl.
    exists (Closing T). simpl. rewrite Hs, Hp, Hc, Hb. by eauto 8.
  - destruct H as (Hs & Hp & Hd & Hc & Hb). simpl. rewrite Hs. simpl.
    exists (Gap T). simpl. by rewrite Hs, Hp, Hc, Hb.
Qed.

Lemma closeCurrentPopup_orderly (w : W) :
  orderly w → closing w = false → orderly (closeCurrentPopup w).
Proof.
  intros [[| |T|T] H] Hnc; simpl in H; unfold closeCurrentPopup.
  - destruct H as (Hs & Hc & Hb & Hp & Hq). rewrite Hc. exists Idle. simpl. done.
  - destruct H as (Hs & Hp & p & Hc & Hb). rewrite Hc.
    exists (Closing (clock w + 300)). simpl. rewrite Hs, Hp, Hc, Hb. simpl.
    rewrite Nat.eqb_refl.
    split; [done|]. split; [done|]. split; [lia|].
    by exists (mkPopup (el p) (glitch_enter p) (body_content p) false).
  - destruct H as (Hs & Hp & Hd & p & Hc & Hb).
    unfold closing in Hnc. rewrite Hp in Hnc. discriminate.
  - destruct H as (Hs & Hp & Hd & Hc & Hb). rewrite Hc. exists (Gap T). simpl. done.
Qed.

Lemma tick_orderly (w : W) : orderly w → orderly (tick fire w).
Proof.
  intros [[| |T|T] H]; simpl in H.
  - destruct H as (Hs & Hc & Hb & Hp & Hq).
    rewrite tick_nothing_due by (rewrite Hp; constructor).
    exists Idle. simpl. done.
  - destruct H as (Hs & Hp & p & Hc & Hb).
    rewrite tick_nothing_due by (rewrite Hp; constructor).
    exists Presenting. simpl. by eauto 8.
  - destruct H as (Hs & Hp & Hd & p & Hc & Hb).
    destruct (decide (Datatypes.S (clock w) = T)) as [HT|HT].
    + unfold tick. rewrite Hp.
      rewrite filter_cons_True, filter_cons_False by (simpl; auto).
      rewrite !filter_nil. simpl. unfold close_timeout. simpl. rewrite Hc. simpl.
      exists (Gap (Datatypes.S (clock w) + 200)). simpl. rewrite Hs, Hb.
      rewrite filter_cons_False, filter_nil by (simpl; auto).
      split; [done|]. split; [done|]. split; [lia|done].
    + rewrite tick_nothing_due by (rewrite Hp; constructor; simpl; auto).
      exists (Closing T). simpl. split; [done|]. split; [done|]. split; [lia|eauto].
  - destruct H as (Hs & Hp & Hd & Hc & Hb).
    destruct (decide (Datatypes.S (clock w) = T)) as [HT|HT].
    + unfold tick. rewrite Hp.
      rewrite filter_cons_True, filter_cons_False by (simpl; auto).
      rewrite !filter_nil. simpl.
      by apply showNextPopup_from_gap.
    + rewrite tick_nothing_due by (rewrite Hp; constructor; simpl; auto).
      exists (Gap T). simpl. split; [done|]. split; [done|]. split; [lia|done].
Qed.

Lemma step_orderly (e : event) (w : W) :
  orderly w → (is_dismiss e = true → closing w = false) → orderly (step e w).
Proof.
  intros Hw He. destruct e as [entries| |key|ms]; simpl.
  - destruct (observer (page w)); [|done].
    unfold handleIntersection. revert w Hw He.
    induction entries as [|e entries IH]; intros w Hw He; simpl; [done|].
    apply IH; [by apply handleEntry_orderly|done].
  - destruct (bound (page w)); [|done]. unfold handleClick.
    destruct (_ && _); [|done]. apply closeCurrentPopup_orderly; auto.
  - destruct (bound (page w)); [|done]. unfold handleKeydown.
    destruct (dismiss_key key) eqn:Hk; [|by rewrite andb_false_r].
    destruct (isShowingPopup (page w)); [|done].
    apply closeCurrentPopup_orderly; auto.
  - by apply elapse_invariant; [apply tick_orderly|].
Qed.

Lemma run_orderly (evs : list event) (w : W) :
  orderly w → unhurried evs w → orderly (run evs w).
Proof.
  revert w. induction evs as [|e evs IH]; intros w Hw Hu; [done|].
  destruct Hu as [He Hu]. apply IH; [by apply step_orderly|done].
Qed.

Lemma unhurried_app (evs1 evs2 : list event) (w : W) :
  unhurried (evs1 ++ evs2) w ↔ unhurried evs1 w ∧ unhurried evs2 (run evs1 w).
Proof.
  revert w. induction evs1 as [|e evs1 IH]; intros w; simpl; [tauto|].
  change (run (e :: evs1) w) with (run evs1 (step e w)).
  rewrite IH. tauto.
Qed.

Lemma init_orderly (ms : list Trigger) : orderly (init (loaded ms)).
Proof.
  exists Idle. unfold init. simpl.
  destruct (length (seq 0 (length ms)) =? 0); simpl; done.
Qed.

(** X12. As long as no dismissing input arrives during the 300 ms in which a
    popup is closing, at most one popup is attached to the page, at the end
    of the schedule and at every point before. *)
Lemma one_popup_for_unhurried_reader (ms : list Trigger) (evs : list event) :
  unhurried evs (init (loaded ms)) →
  ∀ pre post, evs = pre ++ post →
    length (body (page (run pre (init (loaded ms))))) ≤ 1 ∧
    length (visible_popups (run pre (init (loaded ms)))) ≤ 1.
Proof.
  intros Hu pre post ->. apply unhurried_app in Hu as [Hu _].
  pose proof (orderly_body _ (run_orderly pre _ (init_orderly ms) Hu)) as Hb.
  pose proof (visible_le_body (run pre (init (loaded ms)))). lia.
Qed.

(** C1. Three markers enter the band before any dismissal; the reader then
    clicks twice within 100 ms. Both clicks close the first popup, each
    close schedules its own "show next", and 600 ms after the first click
    the second and the third popup are on the page together, both visible,
    with the second one no longer referenced by [currentPopup]. *)
Theorem hasty_dismissal_shows_two_popups :
  let w := run hasty_reader three_markers in
  map el (visible_popups w) = [1; 2] ∧
  currentPopup (page w) = Some 2 ∧
  pending w = [] ∧
  map image (presented (page w)) = [Some "a.png"; Some "b.png"; Some "c.png"].
Proof. vm_compute. repeat split; reflexivity. Qed.

(** The same reader, waiting for the first popup to go before the second
    click, sees one popup after the other. *)
Example patient_dismissal_shows_one_popup :
  let w := run patient_reader three_markers in
  map el (visible_popups w) = [2] ∧
  currentPopup (page w) = Some 2 ∧
  map image (presented (page w)) = [Some "a.png"; Some "b.png"; Some "c.png"].
Proof. vm_compute. repeat split; reflexivity. Qed.

(** *** Every marker is presented, for a patient reader *)

Lemma handleEntry_fresh (w : W) (e : entry) (t : Trigger) :
  isIntersecting e = true →
  markers (page w) !! target e = Some t →
  Settings.truthy (popupTriggered t) = false →
  handleEntry w e =
  with_page (fun s => set_markers (unobserve (target e) (markers s)) s)
    (let w1 := with_page
                 (fun s => set_queue (queue s ++ [descriptor t])
                             (set_markers
                                (set_popupTriggered (Some "true") (target e) (markers s)) s))
                 w in
     if isShowingPopup (page w) then w1 else showNextPopup w1).
Proof.
  intros Hi Ht Hf. unfold handleEntry. rewrite Hi, Ht, Hf. simpl.
  by destruct (isShowingPopup (page w)).
Qed.

Lemma fresh_entries_tail (w : W) (e : entry) (es : list entry) (ds : list PopupData) :
  NoDup (target e :: map target es) →
  fresh_entries w es ds → fresh_entries (handleEntry w e) es ds.
Proof.
  intros Hnd Hes. apply NoDup_cons in Hnd as [Hnotin _].
  assert (Hother : ∀ j, j ≠ target e →
                        markers (page (handleEntry w e)) !! j = markers (page w) !! j).
  { intros j Hj. unfold handleEntry.
    destruct (isIntersecting e); [|done].
    destruct (markers (page w) !! target e) as [t|]; [|done].
    destruct (Settings.truthy (popupTriggered t)); [done|]. simpl.
    destruct (isShowingPopup (page w)); simpl; rewrite ?markers_showNextPopup; simpl;
      unfold unobserve, set_popupTriggered; by rewrite !list_lookup_alter_ne. }
  revert ds Hes. induction es as [|e' es IH]; intros ds Hes.
  - inversion Hes. constructor.
  - inversion Hes as [|? d ? ds' (Hi & t & Ht & Hf & Hd) Hrest]; subst.
    constructor.
    + split; [done|]. exists t. split; [|done].
      rewrite Hother; [done|]. intros Heq. apply Hnotin. simpl. rewrite Heq. left.
    + apply IH; [|done]. intros Hin. apply Hnotin. simpl. by right.
Qed.

(** While a popup is on display, markers that enter the band are queued
    behind it and nothing else changes. *)
Lemma enqueue_while_showing (es : list entry) (ds : list PopupData) (w : W) :
  isShowingPopup (page w) = true →
  NoDup (map target es) → fresh_entries w es ds →
  let w' := handleIntersection es w in
  queue (page w') = queue (page w) ++ ds ∧
  presented (page w') = presented (page w) ∧
  body (page w') = body (page w) ∧
  currentPopup (page w') = currentPopup (page w) ∧
  isShowingPopup (page w') = true ∧
  bound (page w') = bound (page w) ∧
  pending w' = pending w ∧ clock w' = clock w.
Proof.
  revert ds w. induction es as [|e es IH]; intros ds w Hs Hnd Hes; simpl.
  { inversion Hes. by rewrite app_nil_r. }
  inversion Hes as [|? d ? ds' (Hi & t & Ht & Hf & Hd) Hrest]; subst.
  simpl in Hnd. pose proof (fresh_entries_tail w e es ds' Hnd Hrest) as Hrest'.
  apply NoDup_cons in Hnd as [_ Hnd].
  rewrite (handleEntry_fresh w e t Hi Ht Hf) in Hrest' |- *. rewrite Hs in Hrest' |- *.
  match type of Hrest' with fresh_entries ?v _ _ =>
    destruct (IH ds' v Hs Hnd Hrest') as (H1 & H2 & H3 & H4 & H5 & H6 & H7 & H8)
  end.
  rewrite H1, H2, H3, H4, H5, H6, H7, H8.
  simpl. by rewrite <- app_assoc.
Qed.

(** From the idle state the first marker is presented at once and the
    others wait in the queue, in the order in which they were reported. *)
Lemma markers_enter (es : list entry) (d : PopupData) (ds : list PopupData) (w : W) :
  in_stage Idle w → bound (page w) = true →
  NoDup (map target es) → fresh_entries w es (d :: ds) →
  let w' := handleIntersection es w in
  in_stage Presenting w' ∧ bound (page w') = true ∧
  queue (page w') = ds ∧ presented (page w') = presented (page w) ++ [d] ∧
  map body_content (visible_popups w') = [popup_content d].
Proof.
  intros (Hs & Hc & Hb & Hp & Hq) Hbound Hnd Hes.
  destruct es as [|e es]; [by inversion Hes|].
  inversion Hes as [|? ? ? ? (Hi & t & Ht & Hf & Hd) Hrest]; subst.
  simpl in Hnd. pose proof (fresh_entries_tail w e es ds Hnd Hrest) as Hrest'.
  apply NoDup_cons in Hnd as [_ Hnd].
  cbv zeta. change (handleIntersection (e :: es) w)
    with (handleIntersection es (handleEntry w e)).
  set (p := mkPopup (created (page w)) (glitch (descriptor t))
                    (popup_content (descriptor t)) true).
  assert (Hv : isShowingPopup (page (handleEntry w e)) = true ∧
               queue (page (handleEntry w e)) = [] ∧
               presented (page (handleEntry w e)) = presented (page w) ++ [descriptor t] ∧
               body (page (handleEntry w e)) = [p] ∧
               currentPopup (page (handleEntry w e)) = Some (el p) ∧
               bound (page (handleEntry w e)) = true ∧
               pending (handleEntry w e) = []).
  { rewrite (handleEntry_fresh w e t Hi Ht Hf), Hs. unfold showNextPopup. simpl.
    rewrite Hq. simpl. by rewrite Hb, Hp, Hbound. }
  destruct Hv as (Hvs & Hvq & Hvp & Hvb & Hvc & Hvbd & Hvpe).
  destruct (enqueue_while_showing es ds (handleEntry w e) Hvs Hnd Hrest')
    as (Hq' & Hpr' & Hb' & Hc' & Hs' & Hbd' & Hp' & _).
  unfold visible_popups. rewrite Hq', Hpr', Hb', Hbd', Hvq, Hvp, Hvb, Hvbd.
  split.
  - split; [exact Hs'|]. split; [by rewrite Hp'|].
    exists p. by rewrite Hc', Hb', Hvc, Hvb.
  - rewrite filter_cons_True by done. by rewrite filter_nil.
Qed.

(** One dismissal that is left to finish presents the head of the queue, or
    ends in the idle state when the queue is empty. *)
Lemma patient_dismissal (extra : nat) (w : W) :
  in_stage Presenting w → bound (page w) = true →
  let w' := run (dismissal extra) w in
  bound (page w') = true ∧
  match queue (page w) with
  | [] => in_stage Idle w' ∧ presented (page w') = presented (page w)
  | d :: q =>
      in_stage Presenting w' ∧ queue (page w') = q ∧
      presented (page w') = presented (page w) ++ [d] ∧
      map body_content (visible_popups w') = [popup_content d]
  end.
Proof.
  intros (Hs & Hp & p & Hc & Hb) Hbound. cbv zeta.
  assert (Hrun : run (dismissal extra) w
                 = elapse fire extra
                     (elapse fire 200 (elapse fire 300 (closeCurrentPopup w)))).
  { unfold dismissal.
    change (run [Click; Wait (500 + extra)] w)
      with (elapse fire (500 + extra) (step Click w)).
    replace (500 + extra) with (300 + (200 + extra)) by lia.
    rewrite !elapse_add. unfold step, handleClick. by rewrite Hbound, Hs, Hc. }
  rewrite Hrun. clear Hrun.
  assert (Hv1 : closeCurrentPopup w
                = mkWorld (clock w) [(clock w + 300, CloseTimeout)] (uncaught w)
                    (set_backdrop (hideBackdrop (backdrop (page w)))
                       (set_body [mkPopup (el p) (glitch_enter p) (body_content p) false]
                          (page w)))).
  { unfold closeCurrentPopup, setTimeout, with_page. rewrite Hc. simpl.
    rewrite Hp, Hb. simpl. by rewrite Nat.eqb_refl. }
  rewrite Hv1. clear Hv1.
  rewrite (elapse_single fire 299 _ (clock w + 300) CloseTimeout);
    [|reflexivity|simpl; lia].
  assert (Hv2 : ∀ u s0,
            currentPopup s0 = Some (el p) →
            body s0 = [mkPopup (el p) (glitch_enter p) (body_content p) false] →
            settle (fire CloseTimeout (mkWorld (clock w + 300) [] u s0))
            = mkWorld (clock w + 300) [(clock w + 300 + 200, ShowNextTimeout)] u
                (mkSys (markers s0) (triggers s0) (queue s0) None (isShowingPopup s0)
                       (observer s0) (bound s0) [] (created s0) (backdrop s0)
                       (presented s0))).
  { intros u s0 Hc0 Hb0. simpl. unfold close_timeout, setTimeout, with_page. simpl.
    rewrite Hc0. simpl. rewrite Hb0.
    rewrite filter_cons_False, filter_nil by (simpl; auto). reflexivity. }
  rewrite Hv2 by (simpl; auto). clear Hv2.
  rewrite (elapse_single fire 199 _ (clock w + 300 + 200) ShowNextTimeout);
    [|reflexivity|simpl; lia].
  simpl settle. unfold showNextPopup. simpl.
  destruct (queue (page w)) as [|d q] eqn:Hq; simpl;
    (rewrite elapse_nothing_pending by reflexivity); simpl.
  - done.
  - split; [done|]. split; [|done].
    split; [done|]. split; [done|].
    by exists (mkPopup (created (page w)) (glitch d) (popup_content d) true).
Qed.

Lemma run_sys_app (evs1 evs2 : list event) (w : W) :
  run (evs1 ++ evs2) w = run evs2 (run evs1 w).
Proof. apply foldl_app. Qed.

(** A reader who lets every dismissal finish clears a queue of [n] waiting
    descriptors with [n + 1] dismissals, seeing them in queue order. *)
Lemma patient_reader_clears_queue (extras : list nat) (w : W) :
  in_stage Presenting w → bound (page w) = true →
  length extras = Datatypes.S (length (queue (page w))) →
  let w' := run (concat (map dismissal extras)) w in
  in_stage Idle w' ∧ presented (page w') = presented (page w) ++ queue (page w).
Proof.
  revert w. induction extras as [|x extras IH]; intros w Hst Hbound Hlen; [done|].
  cbv zeta. change (concat (map dismissal (x :: extras)))
    with (dismissal x ++ concat (map dismissal extras)).
  rewrite run_sys_app.
  destruct (patient_dismissal x w Hst Hbound) as [Hbound' Hq].
  destruct (queue (page w)) as [|d q] eqn:Hqw.
  - destruct Hq as [Hidle Hpr].
    assert (extras = []) as -> by (destruct extras; [done|simpl in Hlen; lia]).
    simpl. by rewrite app_nil_r.
  - destruct Hq as (Hst' & Hq' & Hpr' & _).
    destruct (IH _ Hst' Hbound' ltac:(rewrite Hq'; simpl in Hlen; lia)) as [Hidle Hpr].
    split; [exact Hidle|]. rewrite Hpr, Hpr', Hq'. by rewrite <- app_assoc.
Qed.

Lemma patient_reader_unhurried (extras : list nat) (w : W) :
  in_stage Presenting w → bound (page w) = true →
  length extras ≤ Datatypes.S (length (queue (page w))) →
  unhurried (concat (map dismissal extras)) w.
Proof.
  revert w. induction extras as [|x extras IH]; intros w Hst Hbound Hlen; [done|].
  change (concat (map dismissal (x :: extras)))
    with (Click :: Wait (500 + x) :: concat (map dismissal extras)).
  split; [|split; [done|]].
  - intros _. destruct Hst as (_ & Hp & _). unfold closing. by rewrite Hp.
  - change (step (Wait (500 + x)) (step Click w)) with (run (dismissal x) w).
    destruct (patient_dismissal x w Hst Hbound) as [Hbound' Hq].
    destruct (queue (page w)) as [|d q] eqn:Hqw.
    + assert (extras = []) as -> by (destruct extras; [done|simpl in Hlen; lia]). done.
    + destruct Hq as (Hst' & Hq' & _).
      apply IH; [done|done|]. rewrite Hq'. simpl in Hlen. lia.
Qed.

Lemma init_idle (ms : list Trigger) :
  ms ≠ [] →
  in_stage Idle (init (loaded ms)) ∧ bound (page (init (loaded ms))) = true ∧
  observer (page (init (loaded ms))) = true ∧ presented (page (init (loaded ms))) = [].
Proof.
  intros Hne. unfold init. simpl. rewrite length_seq.
  destruct ms as [|t ms]; [done|]. simpl. done.
Qed.

(** X13. The queue for a reader who lets each dismissal finish: [M] markers
    enter the band before any dismissal, the first is presented at once, and
    [M] dismissals later every descriptor has been presented, in arrival
    order, the page is idle again, and no dismissing input ever arrived while
    a popup was closing. *)
Lemma patient_reader_sees_every_popup
    (ms : list Trigger) (es : list entry) (d : PopupData) (ds : list PopupData)
    (extras : list nat) :
  ms ≠ [] →
  NoDup (map target es) → fresh_entries (init (loaded ms)) es (d :: ds) →
  length extras = Datatypes.S (length ds) →
  let evs := Intersect es :: concat (map dismissal extras) in
  presented (page (run [Intersect es] (init (loaded ms)))) = [d] ∧
  presented (page (run evs (init (loaded ms)))) = d :: ds ∧
  in_stage Idle (run evs (init (loaded ms))) ∧
  unhurried evs (init (loaded ms)).
Proof.
  intros Hne Hnd Hes Hlen evs.
  destruct (init_idle ms Hne) as (Hidle & Hbound & Hobs & Hpres).
  destruct (markers_enter es d ds _ Hidle Hbound Hnd Hes)
    as (Hst & Hbound' & Hq & Hpr & _).
  assert (Hstep : step (Intersect es) (init (loaded ms))
                  = handleIntersection es (init (loaded ms))).
  { simpl. by rewrite Hobs. }
  unfold evs.
  change (run (Intersect es :: concat (map dismissal extras)) (init (loaded ms)))
    with (run (concat (map dismissal extras)) (step (Intersect es) (init (loaded ms)))).
  change (run [Intersect es] (init (loaded ms)))
    with (step (Intersect es) (init (loaded ms))).
  rewrite Hstep.
  destruct (patient_reader_clears_queue extras _ Hst Hbound' ltac:(by rewrite Hq))
    as [Hend Hall].
  split; [by rewrite Hpr, Hpres|].
  split; [by rewrite Hall, Hpr, Hq, Hpres|].
  split; [exact Hend|].
  split; [done|]. rewrite Hstep.
  apply patient_reader_unhurried; [done|done|]. rewrite Hq. lia.
Qed.

End system_props.

(** ** Paged gallery *)

Section gallery_props.
Import ImageGallery.

Lemma goToPage_out_of_range (i : Z) (g : Gallery) :
  (i < 0 ∨ len g <= i)%Z → goToPage i g = Ok g.
Proof.
  intros Hi. unfold goToPage.
  destruct (Z.ltb_spec i 0); [done|].
  destruct (Z.geb_spec i (len g)); [done|lia].
Qed.

Lemma goToPage_in_range (i : Z) (g : Gallery) (c : Overlay) :
  (0 <= i < len g)%Z → container g = Some c →
  ∃ c', goToPage i g =
        Ok (mkGallery (Some c') (isOpen g) i (images g) (title g) (keyBound g)
                      (scroll_locked g) (warnings g)) ∧
        prev_disabled c' = (i =? 0)%Z ∧
        next_disabled c' = (i =? len g - 1)%Z ∧
        page_label c' = (i + 1)%Z ∧
        img_src c' = image_at (images g) i ∧
        dots c' = imap (fun k _ => (Z.of_nat k =? i)%Z) (dots c).
Proof.
  intros Hi Hc. unfold goToPage.
  destruct (Z.ltb_spec i 0); [lia|].
  destruct (Z.geb_spec i (len g)); [lia|].
  simpl. rewrite Hc. unfold updateNavState. simpl.
  eexists. split; [reflexivity|]. simpl. auto 6.
Qed.

Lemma goToPage_keeps_open (i : Z) (g : Gallery) :
  open_gallery g →
  ∃ g', goToPage i g = Ok g' ∧ open_gallery g' ∧ images g' = images g.
Proof.
  intros (Hopen & Hrange & c & Hc & Hprev & Hnext).
  destruct (decide (0 <= i < len g)%Z) as [Hi|Hi].
  - destruct (goToPage_in_range i g c Hi Hc) as (c' & -> & Hp & Hn & _).
    eexists. split; [reflexivity|]. split; [|reflexivity].
    split; [exact Hopen|]. split; [exact Hi|].
    exists c'. simpl. auto.
  - rewrite goToPage_out_of_range by lia.
    exists g. split; [reflexivity|]. split; [|reflexivity].
    split; [exact Hopen|]. split; [exact Hrange|]. exists c. auto.
Qed.

Lemma open_shows_first_page (o : Options) (g : Gallery) (imgs : list string) :
  isOpen g = false → opt_images o = Some imgs → imgs ≠ [] →
  ∃ g', open o g = Ok g' ∧ open_gallery g' ∧ images g' = imgs ∧ currentPage g' = 0%Z.
Proof.
  intros Hclosed Himgs Hne. unfold open. rewrite Hclosed, Himgs. simpl.
  destruct imgs as [|x imgs]; [done|]. simpl.
  eexists. split; [reflexivity|]. split; [|done].
  split; [done|]. split; [unfold len; simpl; lia|].
  eexists. split; [reflexivity|]. done.
Qed.

Lemma prevPage_keeps_open (g : Gallery) : open_gallery g → keeps_open prevPage g.
Proof.
  intros Hg. unfold keeps_open, prevPage. destruct (currentPage g >? 0)%Z.
  - by apply goToPage_keeps_open.
  - by exists g.
Qed.

Lemma nextPage_keeps_open (g : Gallery) : open_gallery g → keeps_open nextPage g.
Proof.
  intros Hg. unfold keeps_open, nextPage. destruct (currentPage g <? len g - 1)%Z.
  - by apply goToPage_keeps_open.
  - by exists g.
Qed.

Lemma browsing_open_gallery (g : Gallery) : browsing g → open_gallery g.
Proof.
  induction 1 as [o g0 g Hclosed Hopen Hisopen
                 |g g' _ IH Hop|i g g' _ IH Hop|g g' _ IH Hop|g g' _ IH Hop].
  - destruct (opt_images o) as [[|x imgs]|] eqn:Himgs.
    + unfold open in Hopen. rewrite Hclosed, Himgs in Hopen. simpl in Hopen.
      injection Hopen as <-. simpl in Hisopen. congruence.
    + destruct (open_shows_first_page o g0 (x :: imgs) Hclosed Himgs ltac:(done))
        as (g1 & Hg1 & Hinv & _). congruence.
    + unfold open in Hopen. rewrite Hclosed, Himgs in Hopen. simpl in Hopen.
      injection Hopen as <-. simpl in Hisopen. congruence.
  - destruct IH as (Hopen & Hrange & c & Hc & Hp & Hn).
    unfold open_frame in Hop. rewrite Hc in Hop. injection Hop as <-.
    split; [done|]. split; [done|]. eexists. split; [reflexivity|]. done.
  - destruct (goToPage_keeps_open i g IH) as (g1 & Hg1 & Hinv & _). congruence.
  - destruct (prevPage_keeps_open g IH) as (g1 & Hg1 & Hinv & _). congruence.
  - destruct (nextPage_keeps_open g IH) as (g1 & Hg1 & Hinv & _). congruence.
Qed.

(** C3. Let the gallery have been opened and browsed in any way, and let [L]
    be its length. Then [0 <= currentPage < L]; [goToPage i] with [i < 0] or
    [i >= L] changes nothing, and with [0 <= i < L] makes [i] the current
    page; [nextPage] on the last page and [prevPage] on page 0 change
    nothing; the previous button is disabled exactly when the current page
    is 0 and the next button exactly when it is [L - 1]; and [goToPage],
    [prevPage] and [nextPage] all return with the gallery still open on the
    same images, [0 <= currentPage < L] and the buttons in step. *)
Theorem gallery_navigation (g : Gallery) (i : Z) (Hg : browsing g) :
  (0 <= currentPage g < len g)%Z ∧
  ((i < 0 ∨ len g <= i)%Z → goToPage i g = Ok g) ∧
  ((0 <= i < len g)%Z →
     ∃ g', goToPage i g = Ok g' ∧ currentPage g' = i) ∧
  (currentPage g = (len g - 1)%Z → nextPage g = Ok g) ∧
  (currentPage g = 0%Z → prevPage g = Ok g) ∧
  (∃ c, container g = Some c ∧
        (prev_disabled c = true ↔ currentPage g = 0%Z) ∧
        (next_disabled c = true ↔ currentPage g = (len g - 1)%Z)) ∧
  keeps_open (goToPage i) g ∧ keeps_open prevPage g ∧ keeps_open nextPage g.
Proof.
  apply browsing_open_gallery in Hg.
  split; [apply Hg|].
  split; [apply goToPage_out_of_range|].
  split.
  { intros Hi. destruct Hg as (_ & _ & c & Hc & _).
    destruct (goToPage_in_range i g c Hi Hc) as (c' & -> & _).
    eexists. split; reflexivity. }
  split.
  { intros Hlast. unfold nextPage. rewrite Hlast.
    destruct (Z.ltb_spec (len g - 1) (len g - 1)); [lia|done]. }
  split.
  { intros Hfirst. unfold prevPage. rewrite Hfirst. reflexivity. }
  split.
  { destruct Hg as (_ & _ & c & Hc & Hp & Hn). exists c.
    split; [exact Hc|]. rewrite Hp, Hn. split; apply Z.eqb_eq. }
  split; [|split].
  - by apply goToPage_keeps_open.
  - by apply prevPage_keeps_open.
  - by apply nextPage_keeps_open.
Qed.

Lemma first_page_browsing : browsing first_page.
Proof.
  apply (browse_open pamphlet initial); [reflexivity| |];
    vm_compute; reflexivity.
Qed.

Lemma last_page_browsing : browsing last_page.
Proof.
  apply (browse_goTo 2 first_page); [exact first_page_browsing|].
  vm_compute. reflexivity.
Qed.

Lemma gallery_navigation_witness :
  browsing first_page ∧ browsing last_page ∧
  goToPage 7 first_page = Ok first_page ∧
  goToPage (-1) first_page = Ok first_page ∧
  (∃ g', goToPage 2 first_page = Ok g' ∧ currentPage g' = 2%Z) ∧
  prevPage first_page = Ok first_page ∧
  nextPage last_page = Ok last_page ∧
  keeps_open nextPage first_page.
Proof.
  destruct (gallery_navigation first_page 7 first_page_browsing)
    as (_ & Hout & _ & _ & Hprev & _ & _ & _ & Hkeep).
  destruct (gallery_navigation first_page (-1) first_page_browsing) as (_ & Hneg & _).
  destruct (gallery_navigation first_page 2 first_page_browsing) as (_ & _ & Hin & _).
  destruct (gallery_navigation last_page 0 last_page_browsing) as (_ & _ & _ & Hnext & _).
  assert (Hlen : len first_page = 3%Z) by (vm_compute; reflexivity).
  split; [exact first_page_browsing|]. split; [exact last_page_browsing|].
  split; [apply Hout; rewrite Hlen; lia|].
  split; [apply Hneg; lia|].
  split; [apply Hin; rewrite Hlen; lia|].
  split; [apply Hprev; vm_compute; reflexivity|].
  split; [apply Hnext; vm_compute; reflexivity|].
  exact Hkeep.
Defined.

(** The scenario of the specification: three images titled "Pamphlet" open on
    "Page 1 of 3"; two steps forward and one back end on the second page with
    the second indicator active. *)
Example pamphlet_scenario :
  (∃ c, container first_page = Some c ∧ page_label c = 1%Z ∧ page_total c = 3 ∧
        header_title c = "Pamphlet") ∧
  (∃ g c, Ok first_page >>= nextPage >>= nextPage >>= prevPage = Ok g ∧
          currentPage g = 1%Z ∧ container g = Some c ∧
          dots c = [false; true; false] ∧ page_label c = 2%Z).
Proof.
  split.
  - eexists. split; [vm_compute; reflexivity|]. repeat split; reflexivity.
  - do 2 eexists. split; [vm_compute; reflexivity|]. repeat split; reflexivity.
Qed.

(** C8 as the specification states it has [open] with an empty image list
    leave the gallery state unchanged. It does not: [open] stores the list,
    the title and page 0 before it looks at the length of the list. Here a
    gallery that was closed on its second page loses its three images and its
    page. *)
Lemma open_empty_overwrites_state :
  let g := browsed_and_closed in
  let g' := state_of (open (mkOptions (Some []) None) g) in
  isOpen g = false ∧
  ¬ (images g' = images g ∧ currentPage g' = currentPage g ∧ title g' = title g).
Proof.
  split; [vm_compute; reflexivity|]. intros (Himgs & _). vm_compute in Himgs. discriminate.
Qed.

(** C8, as the code has it. [open] on a gallery that is already open changes
    nothing. [open] with no image on a gallery that is not open returns
    normally, logs one warning and builds no overlay: the container, the
    open flag, the keyboard listener and the scroll lock are as before.
    The fields [images], [title] and [currentPage] are assigned before the
    list is inspected: they hold the empty list, the given title (or
    "Gallery") and 0. *)
Theorem open_rejections (o : Options) (g : Gallery) :
  (isOpen g = true → open o g = Ok g) ∧
  (isOpen g = false → default [] (opt_images o) = [] →
   open o g =
   Ok (mkGallery (container g) false 0 [] (Settings.or_default (opt_title o) "Gallery")
                 (keyBound g) (scroll_locked g)
                 (warnings g ++ ["ImageGallery: No images provided"]))).
Proof.
  split.
  - intros Hopen. unfold open. by rewrite Hopen.
  - intros Hclosed Hempty. unfold open. rewrite Hclosed, Hempty. reflexivity.
Qed.

Lemma open_rejections_witness :
  open pamphlet first_page = Ok first_page ∧
  open (mkOptions None (Some "Notes")) browsed_and_closed =
  Ok (mkGallery None false 0 [] "Notes" false false ["ImageGallery: No images provided"]).
Proof.
  split.
  - apply (open_rejections pamphlet first_page). vm_compute. reflexivity.
  - change (Ok (mkGallery None false 0 [] "Notes" false false
                          ["ImageGallery: No images provided"]))
      with (Ok (mkGallery (container browsed_and_closed) false 0 []
                          (Settings.or_default (opt_title (mkOptions None (Some "Notes")))
                                               "Gallery")
                          (keyBound browsed_and_closed) (scroll_locked browsed_and_closed)
                          (warnings browsed_and_closed
                             ++ ["ImageGallery: No images provided"]))).
    apply (open_rejections (mkOptions None (Some "Notes")) browsed_and_closed);
      vm_compute; reflexivity.
Defined.

End gallery_props.


(** ** Preference store: persistence and invariants *)

Section settings_extras.
Import Settings.

Lemma storage_saved_theme (t : string) (p : Page) :
  t ∈ THEMES → storage (setTheme t true p) = <[KEY_theme := t]> (storage p).
Proof. intros Ht. by rewrite setTheme_valid. Qed.

Lemma storage_saved_font (f : string) (p : Page) :
  f ∈ FONT_SIZES → storage (setFontSize f true p) = <[KEY_fontSize := f]> (storage p).
Proof. intros Hf. by rewrite setFontSize_valid. Qed.

Lemma truthy_nonempty (s : string) : s ≠ "" → truthy (Some s) = true.
Proof. intros Hs. simpl. by destruct (String.eqb_spec s ""). Qed.


Lemma getFontSize_setTheme (t : string) (save : bool) (p : Page) :
  getFontSize (setTheme t save p) = getFontSize p.
Proof.
  destruct (decide (t ∈ THEMES)) as [Ht|Ht].
  - unfold getFontSize. rewrite root_setTheme by done. by rewrite lookup_insert_ne.
  - by rewrite setTheme_invalid.
Qed.




(** X2. The listener on the system colour scheme never writes to storage. It
    applies the system's scheme while nothing (or the empty string) is stored
    under the theme key, and it leaves the theme alone once the reader has
    saved one. *)
Theorem system_change_respects_choice (p : Page) (m : bool) :
  storage (onSystemThemeChange m p) = storage p ∧
  (truthy (storage p !! KEY_theme) = false →
   getTheme (onSystemThemeChange m p) = if m then "dark" else "light") ∧
  (truthy (storage p !! KEY_theme) = true →
   getTheme (onSystemThemeChange m p) = getTheme p) ∧
  (∀ t, t ∈ THEMES → getTheme (onSystemThemeChange m (setTheme t true p)) = t).
Proof.
  assert (Hkeep : ∀ q, truthy (storage q !! KEY_theme) = true →
                       getTheme (onSystemThemeChange m q) = getTheme q).
  { intros q Hq. unfold onSystemThemeChange. simpl. by rewrite Hq. }
  split_and!.
  - unfold onSystemThemeChange. simpl. destruct (negb _); [|done].
    by rewrite storage_unsaved_theme.
  - intros Hnone. unfold onSystemThemeChange. simpl. rewrite Hnone. simpl.
    destruct m; apply getTheme_setTheme; by_compute.
  - apply Hkeep.
  - intros t Ht. rewrite Hkeep.
    + by apply getTheme_setTheme.
    + rewrite storage_saved_theme, lookup_insert_eq by done.
      by apply truthy_nonempty, themes_nonempty.
Qed.

Lemma system_change_respects_choice_witness :
  (truthy (storage (blank false) !! KEY_theme) = false ∧
   getTheme (onSystemThemeChange true (blank false)) = "dark") ∧
  (truthy (storage reader_page !! KEY_theme) = true ∧
   getTheme (onSystemThemeChange false reader_page) = getTheme reader_page) ∧
  (("light" ∈ THEMES) ∧
   getTheme (onSystemThemeChange true (setTheme "light" true (blank true))) = "light").
Proof.
  destruct (system_change_respects_choice (blank false) true) as (_ & Hfollow & _).
  destruct (system_change_respects_choice reader_page false) as (_ & _ & Hkeep & _).
  destruct (system_change_respects_choice (blank true) true) as (_ & _ & _ & Hset).
  assert (H1 : truthy (storage (blank false) !! KEY_theme) = false)
    by (vm_compute; reflexivity).
  assert (H2 : truthy (storage reader_page !! KEY_theme) = true)
    by (vm_compute; reflexivity).
  assert (H3 : "light" ∈ THEMES) by by_compute.
  split; [exact (conj H1 (Hfollow H1))|].
  split; [exact (conj H2 (Hkeep H2))|].
  exact (conj H3 (Hset "light" H3)).
Defined.

Lemma increase_position (p : Page) (i : nat) (s : string) :
  FONT_SIZES !! i = Some s → getFontSize p = s →
  FONT_SIZES !! Nat.min (Datatypes.S i) 3 = Some (getFontSize (increaseFontSize p)).
Proof.
  intros Hi Hs. rewrite (increaseFontSize_at p i s Hi Hs).
  destruct (font_index_cases _ _ Hi) as [[-> ->]|[[-> ->]|[[-> ->]|[-> ->]]]];
    simpl; rewrite ?getFontSize_setFontSize by by_compute; congruence.
Qed.

Lemma decrease_position (p : Page) (i : nat) (s : string) :
  FONT_SIZES !! i = Some s → getFontSize p = s →
  FONT_SIZES !! Nat.pred i = Some (getFontSize (decreaseFontSize p)).
Proof.
  intros Hi Hs. rewrite (decreaseFontSize_at p i s Hi Hs).
  destruct (font_index_cases _ _ Hi) as [[-> ->]|[[-> ->]|[[-> ->]|[-> ->]]]];
    simpl; rewrite ?getFontSize_setFontSize by by_compute; congruence.
Qed.

Lemma font_position_unique (i j : nat) (s : string) :
  FONT_SIZES !! i = Some s → FONT_SIZES !! j = Some s → i = j.
Proof.
  intros Hi Hj.
  destruct (font_index_cases _ _ Hi) as [[-> ->]|[[-> ->]|[[-> ->]|[-> ->]]]];
    destruct (font_index_cases _ _ Hj) as [[-> ?]|[[-> ?]|[[-> ?]|[-> ?]]]];
    congruence.
Qed.

(** X3. Stepping composes as on a ladder. Below the top, an increase followed
    by a decrease gives the size back; above the bottom, so does a decrease
    followed by an increase; and from any size three increases end on
    "x-large" and three decreases on "small". *)
Theorem font_steps_compose (p : Page) (i : nat) (s : string)
    (Hi : FONT_SIZES !! i = Some s) (Hs : getFontSize p = s) :
  (i < 3 → getFontSize (decreaseFontSize (increaseFontSize p)) = s) ∧
  (0 < i → getFontSize (increaseFontSize (decreaseFontSize p)) = s) ∧
  getFontSize (Nat.iter 3 increaseFontSize p) = "x-large" ∧
  getFontSize (Nat.iter 3 decreaseFontSize p) = "small".
Proof.
  pose proof (font_index_cases _ _ Hi) as Hcases.
  assert (Hlt : i < 4) by (destruct Hcases as [[-> _]|[[-> _]|[[-> _]|[-> _]]]]; lia).
  split_and!.
  - intros Htop.
    pose proof (increase_position p i s Hi Hs) as Hup.
    pose proof (decrease_position _ _ _ Hup eq_refl) as Hdn.
    replace (Nat.pred (Nat.min (Datatypes.S i) 3)) with i in Hdn by lia. congruence.
  - intros Hbot.
    pose proof (decrease_position p i s Hi Hs) as Hdn.
    pose proof (increase_position _ _ _ Hdn eq_refl) as Hup.
    replace (Nat.min (Datatypes.S (Nat.pred i)) 3) with i in Hup by lia. congruence.
  - pose proof (increase_position p i s Hi Hs) as H1.
    pose proof (increase_position _ _ _ H1 eq_refl) as H2.
    pose proof (increase_position _ _ _ H2 eq_refl) as H3.
    replace (Nat.min (Datatypes.S (Nat.min (Datatypes.S (Nat.min (Datatypes.S i) 3)) 3)) 3)
      with 3 in H3 by lia.
    simpl in H3 |- *. congruence.
  - pose proof (decrease_position p i s Hi Hs) as H1.
    pose proof (decrease_position _ _ _ H1 eq_refl) as H2.
    pose proof (decrease_position _ _ _ H2 eq_refl) as H3.
    replace (Nat.pred (Nat.pred (Nat.pred i))) with 0 in H3 by lia.
    simpl in H3 |- *. congruence.
Qed.

Lemma font_steps_compose_witness :
  (FONT_SIZES !! 2 = Some "large" ∧ getFontSize reader_page = "large" ∧ 2 < 3 ∧ 0 < 2) ∧
  getFontSize (decreaseFontSize (increaseFontSize reader_page)) = "large" ∧
  getFontSize (increaseFontSize (decreaseFontSize reader_page)) = "large".
Proof.
  assert (Hs : getFontSize reader_page = "large") by (vm_compute; reflexivity).
  destruct (font_steps_compose reader_page 2 "large" eq_refl Hs) as (Hud & Hdu & _).
  split; [split; [reflexivity|split; [exact Hs|split; lia]]|].
  split; [apply Hud; lia|apply Hdu; lia].
Defined.

(** *** Invariants of the store *)







Lemma act_valid (a : action) (p : Page) : applied_valid p → applied_valid (act a p).
Proof.
  intros [Hth Hfs].
  assert (HsetT : ∀ t save, applied_valid (setTheme t save p)).
  { intros t save. split; [|by rewrite getFontSize_setTheme].
    destruct (decide (t ∈ THEMES)) as [Ht|Ht].
    - by rewrite getTheme_setTheme.
    - by rewrite setTheme_invalid. }
  assert (HsetF : ∀ f save, applied_valid (setFontSize f save p)).
  { intros f save. split; [by rewrite getTheme_setFontSize|].
    destruct (decide (f ∈ FONT_SIZES)) as [Hf|Hf].
    - by rewrite getFontSize_setFontSize.
    - by rewrite setFontSize_invalid. }
  destruct a as [v save| |v save| | |m]; simpl.
  - apply HsetT.
  - apply HsetT.
  - apply HsetF.
  - unfold increaseFontSize. destruct (_ <? _)%Z; [apply HsetF|by split].
  - unfold decreaseFontSize. destruct (_ >? _)%Z; [apply HsetF|by split].
  - unfold onSystemThemeChange. simpl. destruct (negb _).
    + split; [|by rewrite getFontSize_setTheme].
      destruct m; rewrite getTheme_setTheme by by_compute; by_compute.
    + by split.
Qed.

(** X5. Once the store has initialised, the applied theme and font size are
    members of their enumerations and stay so, whatever is asked of the store:
    invalid values, steps beyond the ends and system scheme changes
    included. *)
Theorem values_stay_valid (l : list action) (p : Page) :
  applied_valid (acts l (initSettings p)).
Proof.
  unfold acts. generalize (init_applies_valid_values p). generalize (initSettings p).
  induction l as [|a l IH]; intros q Hq; simpl; [done|].
  apply IH, act_valid, Hq.
Qed.

Lemma act_writes_valid (a : action) (p : Page) : writes_valid p (act a p).
Proof.
  assert (HsetT : ∀ t save, writes_valid p (setTheme t save p)).
  { intros t save k. destruct (decide (t ∈ THEMES)) as [Ht|Ht].
    - destruct save; [|left; by rewrite storage_unsaved_theme].
      rewrite storage_saved_theme by done.
      destruct (decide (k = KEY_theme)) as [->|Hk].
      + right. left. split; [done|]. exists t. by rewrite lookup_insert_eq.
      + left. by rewrite lookup_insert_ne.
    - left. by rewrite setTheme_invalid. }
  assert (HsetF : ∀ f save, writes_valid p (setFontSize f save p)).
  { intros f save k. destruct (decide (f ∈ FONT_SIZES)) as [Hf|Hf].
    - destruct save; [|left; by rewrite storage_unsaved_font].
      rewrite storage_saved_font by done.
      destruct (decide (k = KEY_fontSize)) as [->|Hk].
      + right. right. split; [done|]. exists f. by rewrite lookup_insert_eq.
      + left. by rewrite lookup_insert_ne.
    - left. by rewrite setFontSize_invalid. }
  destruct a as [v save| |v save| | |m]; simpl.
  - apply HsetT.
  - apply HsetT.
  - apply HsetF.
  - unfold increaseFontSize. destruct (_ <? _)%Z; [apply HsetF|by left].
  - unfold decreaseFontSize. destruct (_ >? _)%Z; [apply HsetF|by left].
  - intros k. left. unfold onSystemThemeChange. simpl. destruct (negb _); [|done].
    by rewrite storage_unsaved_theme.
Qed.

(** X6. The store never writes anything but a valid theme under the theme key
    and a valid size under the font-size key, and it touches no other key:
    after any sequence of requests, from any page, every storage entry is
    either what it was or one of those. *)
Theorem storage_holds_only_valid_values (l : list action) (p : Page) :
  writes_valid p (acts l p).
Proof.
  unfold acts. assert (H0 : writes_valid p p) by (intros k; by left).
  revert H0. generalize p at 2 4 as q.
  induction l as [|a l IH]; intros q Hq; simpl; [done|].
  apply IH. intros k.
  destruct (act_writes_valid a q k) as [Hsame|Hnew]; [|tauto].
  rewrite Hsame. apply Hq.
Qed.

End settings_extras.

(** ** Settings panel *)

Section panel_extras.
Import SettingsPanel.

Lemma toggle_mirrors (forceState : option bool) (s : Panel) :
  panel s ≠ None → aria_mirrors (toggleSettingsPanel forceState s).
Proof.
  intros Hp. unfold toggleSettingsPanel. destruct (panel s) as [isOpen|]; [|done].
  intros b a. simpl. destruct (trigger s); [|done]. by intros [= <-] [= <-].
Qed.

Lemma step_mirrors (i : input) (s : Panel) : aria_mirrors s → aria_mirrors (step i s).
Proof.
  intros Hs.
  assert (Htoggle : ∀ f, aria_mirrors (toggleSettingsPanel f s)).
  { intros f. destruct (panel s) as [b|] eqn:Hp.
    - apply toggle_mirrors. by rewrite Hp.
    - unfold toggleSettingsPanel. by rewrite Hp. }
  destruct i as [|inside| |f]; simpl; auto.
  - destruct (trigger s); auto.
  - unfold handleOutsideClick. destruct (panel s) as [[|]|]; auto.
    destruct (_ && _); auto.
Qed.

(** X7. Whatever the reader does with the settings panel (trigger, clicks in
    and outside the dropdown, Escape, calls from page scripts), after the
    first action that toggles it the trigger's [aria-expanded] says "true"
    exactly when the panel is open; Escape always leaves the panel closed;
    toggling twice leaves it as open as it was; and a click outside closes an
    open panel only if the dropdown element exists. *)
Theorem panel_state_is_announced (l : list input) (s : Panel) (first : option bool) :
  (panel s ≠ None →
   aria_mirrors (run l (toggleSettingsPanel first s))) ∧
  panel (step Escape (run l s)) ≠ Some true ∧
  panel (toggleSettingsPanel None (toggleSettingsPanel None s)) = panel s ∧
  (dropdown s = false → ∀ inside, handleOutsideClick inside s = s) ∧
  (dropdown s = true → panel (handleOutsideClick false s) ≠ Some true).
Proof.
  split_and!.
  - intros Hp. unfold run. generalize (toggle_mirrors first s Hp).
    generalize (toggleSettingsPanel first s).
    induction l as [|i l IH]; intros q Hq; simpl; [done|].
    apply IH, step_mirrors, Hq.
  - simpl. unfold toggleSettingsPanel.
    destruct (panel (run l s)) as [b|] eqn:Hp; simpl; [done|by rewrite Hp].
  - unfold toggleSettingsPanel. destruct (panel s) as [[|]|] eqn:Hp; simpl; by rewrite ?Hp.
  - intros Hd inside. unfold handleOutsideClick. rewrite Hd.
    by destruct (panel s) as [[|]|].
  - intros Hd. unfold handleOutsideClick. rewrite Hd.
    destruct (panel s) as [[|]|] eqn:Hp; simpl; rewrite ?Hp; try done.
    unfold toggleSettingsPanel. by rewrite Hp.
Qed.

Lemma panel_state_is_announced_witness :
  (panel closed_panel ≠ None ∧ dropdown closed_panel = true ∧
   dropdown bare_panel = false) ∧
  aria_mirrors (run [ClickDocument false; ClickTrigger; Escape]
                    (toggleSettingsPanel None closed_panel)) ∧
  panel (handleOutsideClick false closed_panel) ≠ Some true ∧
  handleOutsideClick false bare_panel = bare_panel.
Proof.
  destruct (panel_state_is_announced [ClickDocument false; ClickTrigger; Escape]
              closed_panel None) as (Haria & _ & _ & _ & Hout).
  destruct (panel_state_is_announced [] bare_panel None) as (_ & _ & _ & Hbare & _).
  assert (H1 : panel closed_panel ≠ None) by discriminate.
  split; [split; [exact H1|split; reflexivity]|].
  split; [exact (Haria H1)|]. split; [exact (Hout eq_refl)|exact (Hbare eq_refl false)].
Defined.

End panel_extras.


(** ** Paged gallery: display and reopening *)

Section gallery_extras.
Import ImageGallery.
Local Arguments imap : simpl never.

Lemma open_nonempty (o : Options) (g0 : Gallery) (x : string) (imgs : list string) :
  isOpen g0 = false → opt_images o = Some (x :: imgs) →
  open o g0 =
  Ok (mkGallery
        (Some (mkOverlay false (Settings.or_default (opt_title o) "Gallery")
                         (length (x :: imgs)) 1 x 1 true
                         (0 =? Z.of_nat (length (x :: imgs)) - 1)%Z
                         (imap (fun i _ => (i =? 0)%nat) (x :: imgs))))
        true 0 (x :: imgs) (Settings.or_default (opt_title o) "Gallery") true true
        (warnings g0)).
Proof. intros Hclosed Himgs. unfold open. rewrite Hclosed, Himgs. reflexivity. Qed.





Lemma close_browsing (g : Gallery) :
  browsing g →
  ∃ c, container g = Some c ∧
       close g = Ok (mkGallery
                       (Some (mkOverlay false (header_title c) (page_total c) (page_label c)
                                        (img_src c) (img_alt c) (prev_disabled c)
                                        (next_disabled c) (dots c)))
                       false (currentPage g) (images g) (title g) false false (warnings g)).
Proof.
  intros Hg. apply browsing_open_gallery in Hg as (Hopen & _ & c & Hc & _).
  exists c. split; [done|]. unfold close. rewrite Hopen. simpl. by rewrite Hc.
Qed.

(** X9. Closing a browsed gallery and letting its 300 ms timer run leaves no
    overlay, no keyboard listener and no scroll lock, and every key is
    ignored; the images and the page reached are still held by the object, but
    the next [open] with a non-empty list starts again on the first page of
    the new list. *)
Theorem close_then_reopen (g : Gallery) (o : Options) (x : string) (imgs : list string)
    (Hg : browsing g) (Himgs : opt_images o = Some (x :: imgs)) :
  ∃ g1 g2 g3,
    close g = Ok g1 ∧ close_timeout g1 = Ok g2 ∧
    container g2 = None ∧ isOpen g2 = false ∧ keyBound g2 = false ∧
    scroll_locked g2 = false ∧
    images g2 = images g ∧ currentPage g2 = currentPage g ∧
    (∀ key, keyHandler key g2 = Ok g2) ∧
    open o g2 = Ok g3 ∧ browsing g3 ∧
    currentPage g3 = 0%Z ∧ images g3 = x :: imgs ∧
    keyBound g3 = true ∧ scroll_locked g3 = true.
Proof.
  destruct (close_browsing g Hg) as (c & Hc & Hclose).
  match type of Hclose with _ = Ok ?g1 =>
    pose proof (open_nonempty o (set_container None g1) x imgs eq_refl Himgs) as Hopen;
    exists g1, (set_container None g1)
  end.
  eexists. split; [exact Hclose|]. do 7 (split; [reflexivity|]).
  split; [intros key; reflexivity|].
  split; [exact Hopen|].
  split; [by eapply browse_open; [|exact Hopen|]|].
  repeat split.
Qed.

Lemma close_then_reopen_witness :
  (browsing last_page ∧ opt_images two_pages = Some ["a.png"; "b.png"]) ∧
  ∃ g1 g2 g3,
    close last_page = Ok g1 ∧ close_timeout g1 = Ok g2 ∧
    container g2 = None ∧ isOpen g2 = false ∧ keyBound g2 = false ∧
    scroll_locked g2 = false ∧
    images g2 = images last_page ∧ currentPage g2 = currentPage last_page ∧
    (∀ key, keyHandler key g2 = Ok g2) ∧
    open two_pages g2 = Ok g3 ∧ browsing g3 ∧
    currentPage g3 = 0%Z ∧ images g3 = ["a.png"; "b.png"] ∧
    keyBound g3 = true ∧ scroll_locked g3 = true.
Proof.
  split; [split; [exact last_page_browsing|reflexivity]|].
  exact (close_then_reopen last_page two_pages "a.png" ["b.png"]
           last_page_browsing eq_refl).
Defined.

(** X10. [close] leaves the removal of the overlay to a timer that nothing
    cancels. When the gallery is opened again before that timer has run, the
    timer removes the overlay of the new gallery: the gallery then counts as
    open, holds the scroll lock and the keyboard listener, and has no overlay.
    In that state the right arrow key moves [currentPage] and then fails on
    the missing overlay, Escape clears the open flag and then fails likewise,
    and the left arrow key does nothing. *)
Theorem reopen_before_removal (g : Gallery) (o : Options) (x y : string) (imgs : list string)
    (Hg : browsing g) (Himgs : opt_images o = Some (x :: y :: imgs)) :
  ∃ g1 g2 g3,
    close g = Ok g1 ∧ open o g1 = Ok g2 ∧ browsing g2 ∧ close_timeout g2 = Ok g3 ∧
    isOpen g3 = true ∧ container g3 = None ∧
    scroll_locked g3 = true ∧ keyBound g3 = true ∧
    (∃ g4, keyHandler "ArrowRight" g3 = Err g4 ∧ currentPage g4 = 1%Z) ∧
    (∃ g5, keyHandler "Escape" g3 = Err g5 ∧ isOpen g5 = false) ∧
    keyHandler "ArrowLeft" g3 = Ok g3.
Proof.
  destruct (close_browsing g Hg) as (c & Hc & Hclose).
  match type of Hclose with _ = Ok ?g1 =>
    pose proof (open_nonempty o g1 x (y :: imgs) eq_refl Himgs) as Hopen;
    exists g1
  end.
  do 2 eexists. split; [exact Hclose|].
  split; [exact Hopen|].
  split; [by eapply browse_open; [|exact Hopen|]|].
  do 5 (split; [reflexivity|]).
  split; [|split; [|reflexivity]].
  - eexists. split.
    + unfold keyHandler, nextPage, goToPage. simpl. unfold len. simpl.
      destruct (Z.ltb_spec 0 (Z.of_nat (Datatypes.S (Datatypes.S (length imgs))) - 1));
        [|lia].
      destruct (Z.geb_spec (0 + 1) (Z.of_nat (Datatypes.S (Datatypes.S (length imgs)))));
        [lia|]. reflexivity.
    + reflexivity.
  - eexists. split; reflexivity.
Qed.

Lemma reopen_before_removal_witness :
  (browsing first_page ∧ opt_images pamphlet = Some ["p1.png"; "p2.png"; "p3.png"]) ∧
  ∃ g1 g2 g3,
    close first_page = Ok g1 ∧ open pamphlet g1 = Ok g2 ∧ browsing g2 ∧
    close_timeout g2 = Ok g3 ∧
    isOpen g3 = true ∧ container g3 = None ∧
    scroll_locked g3 = true ∧ keyBound g3 = true ∧
    (∃ g4, keyHandler "ArrowRight" g3 = Err g4 ∧ currentPage g4 = 1%Z) ∧
    (∃ g5, keyHandler "Escape" g3 = Err g5 ∧ isOpen g5 = false) ∧
    keyHandler "ArrowLeft" g3 = Ok g3.
Proof.
  split; [split; [exact first_page_browsing|reflexivity]|].
  exact (reopen_before_removal first_page pamphlet "p1.png" "p2.png" ["p3.png"]
           first_page_browsing eq_refl).
Defined.

End gallery_extras.


(** ** Triggered queue: markers, reset and dormancy *)

Section system_extras.
Import Loop SystemPopups.
Local Arguments elapse : simpl never.

Lemma one_popup_for_unhurried_reader_witness :
  (unhurried patient_reader three_markers ∧
   patient_reader = [Intersect [enters 0]; Intersect [enters 1]; Intersect [enters 2];
                     Click; Wait 100; Wait 500] ++ [Click; Wait 500]) ∧
  length (body (page (run [Intersect [enters 0]; Intersect [enters 1]; Intersect [enters 2];
                           Click; Wait 100; Wait 500]
                          (init (loaded [marker "a.png"; marker "b.png"; marker "c.png"])))))
    ≤ 1.
Proof.
  assert (Hu : unhurried patient_reader three_markers).
  { repeat split; intros H; try (simpl in H; discriminate H); vm_compute; reflexivity. }
  split; [split; [exact Hu|reflexivity]|].
  exact (proj1 (one_popup_for_unhurried_reader
                  [marker "a.png"; marker "b.png"; marker "c.png"] patient_reader Hu
                  [Intersect [enters 0]; Intersect [enters 1]; Intersect [enters 2];
                   Click; Wait 100; Wait 500]
                  [Click; Wait 500] eq_refl)).
Defined.

Lemma patient_reader_sees_every_popup_witness :
  ([marker "a.png"; marker "b.png"; marker "c.png"] ≠ [] ∧
   NoDup (map target [enters 0; enters 1; enters 2]) ∧
   fresh_entries three_markers [enters 0; enters 1; enters 2]
                 [descriptor (marker "a.png"); descriptor (marker "b.png");
                  descriptor (marker "c.png")] ∧
   length no_extras = 3) ∧
  presented (page (run (Intersect [enters 0; enters 1; enters 2]
                          :: concat (map dismissal no_extras))
                       (init (loaded [marker "a.png"; marker "b.png"; marker "c.png"]))))
  = [descriptor (marker "a.png"); descriptor (marker "b.png"); descriptor (marker "c.png")].
Proof.
  assert (H1 : [marker "a.png"; marker "b.png"; marker "c.png"] ≠ []) by discriminate.
  assert (H2 : NoDup (map target [enters 0; enters 1; enters 2])).
  { simpl. repeat constructor; rewrite ?elem_of_cons, ?elem_of_nil; intros H;
      repeat destruct H as [H|H]; try discriminate; done. }
  assert (H3 : fresh_entries three_markers [enters 0; enters 1; enters 2]
                 [descriptor (marker "a.png"); descriptor (marker "b.png");
                  descriptor (marker "c.png")]).
  { assert (Hone : ∀ i img,
              markers (page three_markers) !! i = Some (mkTrigger None (Some img) None None true) →
              isIntersecting (enters i) = true ∧
              ∃ t, markers (page three_markers) !! target (enters i) = Some t ∧
                   Settings.truthy (popupTriggered t) = false ∧
                   descriptor t = descriptor (marker img)).
    { intros i img Hi. split; [reflexivity|]. eexists. split; [exact Hi|].
      split; reflexivity. }
    constructor; [apply Hone; vm_compute; reflexivity|].
    constructor; [apply Hone; vm_compute; reflexivity|].
    constructor; [apply Hone; vm_compute; reflexivity|constructor]. }
  split; [done|].
  exact (proj1 (proj2 (patient_reader_sees_every_popup _ _ _ _ no_extras H1 H2 H3 eq_refl))).
Defined.

Lemma markers_other (w : W) (e : entry) (j : nat) :
  j ≠ target e → markers (page (handleEntry w e)) !! j = markers (page w) !! j.
Proof.
  intros Hj. unfold handleEntry.
  destruct (isIntersecting e); [|done].
  destruct (markers (page w) !! target e) as [t|]; [|done].
  destruct (Settings.truthy (popupTriggered t)); [done|]. simpl.
  destruct (isShowingPopup (page w)); simpl; rewrite ?markers_showNextPopup; simpl;
    unfold unobserve, set_popupTriggered; by rewrite !list_lookup_alter_ne.
Qed.

Lemma consumed_handleEntry (i : nat) (w : W) (e : entry) :
  consumed i w → consumed i (handleEntry w e).
Proof.
  intros (t & Ht & Hflag). destruct (decide (i = target e)) as [->|Hne].
  - destruct (isIntersecting e) eqn:Hi.
    + destruct (handleEntry_marks w e t Hi Ht) as (t' & Ht' & Hflag'). by exists t'.
    + unfold handleEntry. rewrite Hi. by exists t.
  - exists t. by rewrite markers_other.
Qed.

Lemma markers_fire (cb : callback) (w : W) :
  markers (page (settle (fire cb w))) = markers (page w).
Proof.
  destruct cb; simpl; [|apply markers_showNextPopup].
  unfold close_timeout. by destruct (currentPopup (page w)).
Qed.

Lemma markers_elapse (ms : nat) (w : W) :
  markers (page (elapse fire ms w)) = markers (page w).
Proof.
  apply (elapse_invariant fire (fun v => markers (page v) = markers (page w))); [|done].
  intros v Hv. unfold tick.
  generalize (filter (fun t : nat * callback => t.1 = Datatypes.S (clock v)) (pending v)).
  generalize (filter (fun t : nat * callback => t.1 ≠ Datatypes.S (clock v)) (pending v)).
  intros rest due.
  change (markers (page v))
    with (markers (page (mkWorld (Datatypes.S (clock v)) rest (uncaught v) (page v)))) in Hv.
  revert Hv. generalize (mkWorld (Datatypes.S (clock v)) rest (uncaught v) (page v)).
  induction due as [|t due IH]; intros u Hu; simpl; [done|].
  apply IH. by rewrite markers_fire.
Qed.

Lemma consumed_step (i : nat) (e : event) (w : W) : consumed i w → consumed i (step e w).
Proof.
  intros Hc. destruct e as [entries| |key|ms]; simpl.
  - destruct (observer (page w)); [|done].
    unfold handleIntersection. revert w Hc.
    induction entries as [|e entries IH]; intros w Hc; simpl; [done|].
    apply IH, consumed_handleEntry, Hc.
  - destruct (bound (page w)); [|done]. unfold handleClick, closeCurrentPopup.
    destruct (_ && _); [|done]. by destruct (currentPopup (page w)).
  - destruct (bound (page w)); [|done]. unfold handleKeydown, closeCurrentPopup.
    destruct (_ && _); [|done]. by destruct (currentPopup (page w)).
  - destruct Hc as (t & Ht & Hflag). exists t. by rewrite markers_elapse.
Qed.

Lemma consumed_run (i : nat) (evs : list event) (w : W) :
  consumed i w → consumed i (run evs w).
Proof.
  revert w. induction evs as [|e evs IH]; intros w Hc; [done|].
  apply IH, consumed_step, Hc.
Qed.

(** X14. A marker fires once. After the observer has reported a marker as
    intersecting, no later report of the same marker changes anything,
    whatever the reader and the clock have done in between: nothing is queued,
    nothing is shown, no flag is touched. *)
Theorem marker_fires_once (w : W) (e e' : entry) (evs : list event)
    (Hi : isIntersecting e = true) (Hin : is_Some (markers (page w) !! target e))
    (Hsame : target e' = target e) :
  handleEntry (run evs (handleEntry w e)) e' = run evs (handleEntry w e).
Proof.
  destruct Hin as [t Ht].
  destruct (handleEntry_marks w e t Hi Ht) as (t' & Ht' & Hflag').
  destruct (consumed_run (target e) evs (handleEntry w e)) as (t2 & Ht2 & Hflag2).
  { by exists t'. }
  apply (handleEntry_consumed _ e' t2); [by rewrite Hsame|done].
Qed.

Lemma marker_fires_once_witness :
  (isIntersecting (enters 1) = true ∧
   is_Some (markers (page three_markers) !! target (enters 1)) ∧
   target (enters 1) = target (enters 1)) ∧
  handleEntry (run (dismissal 0) (handleEntry three_markers (enters 1))) (enters 1)
  = run (dismissal 0) (handleEntry three_markers (enters 1)).
Proof.
  assert (Hin : is_Some (markers (page three_markers) !! target (enters 1))).
  { eexists. vm_compute. reflexivity. }
  split; [split; [reflexivity|split; [exact Hin|reflexivity]]|].
  exact (marker_fires_once three_markers (enters 1) (enters 1) (dismissal 0)
           eq_refl Hin eq_refl).
Defined.

Lemma rearm_idempotent (t : Trigger) : rearm (rearm t) = rearm t.
Proof. reflexivity. Qed.

Lemma lookup_rearm_all (l : list nat) (ms : list Trigger) (i : nat) :
  foldl (fun ms i => observe i (set_popupTriggered None i ms)) ms l !! i
  = if decide (i ∈ l) then rearm <$> ms !! i else ms !! i.
Proof.
  revert ms. induction l as [|j l IH]; intros ms.
  { case_decide as Hin; [by apply elem_of_nil in Hin|done]. }
  change (foldl _ ms (j :: l)) with
    (foldl (fun ms i => observe i (set_popupTriggered None i ms))
           (observe j (set_popupTriggered None j ms)) l).
  rewrite IH.
  assert (Hone : observe j (set_popupTriggered None j ms) !! i
                 = if decide (i = j) then rearm <$> ms !! i else ms !! i).
  { unfold observe, set_popupTriggered. destruct (decide (i = j)) as [->|Hne].
    - rewrite !list_lookup_alter, !decide_True by done. by destruct (ms !! j).
    - by rewrite !list_lookup_alter_ne. }
  rewrite Hone. clear Hone IH.
  destruct (decide (i ∈ l)) as [Hl|Hl]; destruct (decide (i = j)) as [->|Hne];
    destruct (decide (_ ∈ j :: l)) as [Hin|Hin];
    try done; try (exfalso; rewrite elem_of_cons in Hin; tauto).
  by destruct (ms !! j).
Qed.

(** X15. [reset] arms the markers again and empties the queue, and touches
    nothing else: every marker the queue had collected at [init] loses its
    consumed flag and is observed again, with its popup data as before; other
    elements are untouched; descriptors still waiting in the queue are
    dropped; the popup on display, the timers and the record of what was
    presented stay as they are. A consumed marker that enters the band after
    the reset is therefore queued once more. *)
Theorem reset_rearms_markers (w : W) (Hobs : observer (page w) = true) :
  ∃ w', reset w = Ok w' ∧
        queue (page w') = [] ∧
        (∀ i, markers (page w') !! i
              = if decide (i ∈ triggers (page w)) then rearm <$> markers (page w) !! i
                else markers (page w) !! i) ∧
        currentPopup (page w') = currentPopup (page w) ∧
        body (page w') = body (page w) ∧
        isShowingPopup (page w') = isShowingPopup (page w) ∧
        presented (page w') = presented (page w) ∧
        pending w' = pending w ∧
        (∀ i t, i ∈ triggers (page w) → markers (page w) !! i = Some t →
                presented (page (handleEntry w' (enters i)))
                ++ queue (page (handleEntry w' (enters i)))
                = presented (page w) ++ [descriptor t]).
Proof.
  unfold reset. rewrite Hobs. simpl. eexists. split; [reflexivity|]. simpl.
  split; [done|]. split; [apply lookup_rearm_all|]. do 5 (split; [done|]).
  intros i t Hi Ht.
  match goal with |- context [handleEntry ?v _] => set (w' := v) end.
  assert (Ht' : markers (page w') !! target (enters i) = Some (rearm t)).
  { simpl. rewrite lookup_rearm_all, decide_True by done. by rewrite Ht. }
  rewrite (handleEntry_fresh w' (enters i) (rearm t) eq_refl Ht' eq_refl).
  simpl. destruct (isShowingPopup (page w)); simpl.
  - reflexivity.
  - unfold showNextPopup. simpl. by rewrite <- app_assoc.
Qed.

Lemma reset_rearms_markers_witness :
  observer (page (run hasty_reader three_markers)) = true ∧
  ∃ w', reset (run hasty_reader three_markers) = Ok w' ∧ queue (page w') = [].
Proof.
  assert (Hobs : observer (page (run hasty_reader three_markers)) = true)
    by (vm_compute; reflexivity).
  split; [exact Hobs|].
  destruct (reset_rearms_markers (run hasty_reader three_markers) Hobs)
    as (w' & Hreset & Hq & _).
  exists w'. exact (conj Hreset Hq).
Defined.


End system_extras.


(** ** Sequential presenter: restarts and impatient readers *)

Section sequence_extras.
Import Loop SequencePopups.
Local Arguments seq : simpl never.
Local Arguments elapse : simpl never.

Lemma stale_fire (cb : callback) (w : W) :
  staleHandlers (page (settle (fire cb w))) = staleHandlers (page w).
Proof.
  destruct cb; simpl;
    unfold next_timeout, complete_timeout, showCurrentPopup, complete, set_visible;
    simpl; repeat case_match; simpl; reflexivity.
Qed.

Lemma stale_step (e : event) (w : W) :
  staleHandlers (page (step e w)) = staleHandlers (page w).
Proof.
  assert (Hd : ∀ h n (v : W),
             (∀ v, staleHandlers (page (settle (h v))) = staleHandlers (page v)) →
             staleHandlers (page (dispatch n h v)) = staleHandlers (page v)).
  { intros h n. induction n as [|n IH]; intros v Hh; simpl; [done|].
    rewrite IH by done. apply Hh. }
  destruct e as [|key|ms]; simpl.
  - apply Hd. intros v. unfold handleClick, next, set_visible.
    repeat case_match; simpl; reflexivity.
  - apply Hd. intros v. unfold handleKeydown, next, set_visible.
    repeat case_match; simpl; reflexivity.
  - apply (elapse_invariant fire
             (fun v => staleHandlers (page v) = staleHandlers (page w))); [|done].
    intros v Hv. unfold tick.
    generalize (filter (fun t : nat * callback => t.1 = Datatypes.S (clock v)) (pending v)).
    generalize (filter (fun t : nat * callback => t.1 ≠ Datatypes.S (clock v)) (pending v)).
    intros rest due.
    change (staleHandlers (page v))
      with (staleHandlers (page (mkWorld (Datatypes.S (clock v)) rest (uncaught v) (page v))))
      in Hv.
    revert Hv. generalize (mkWorld (Datatypes.S (clock v)) rest (uncaught v) (page v)).
    induction due as [|t due IH]; intros u Hu; simpl; [done|].
    apply IH. by rewrite stale_fire.
Qed.

Lemma stale_run (evs : list event) (w : W) :
  staleHandlers (page (run evs w)) = staleHandlers (page w).
Proof.
  revert w. induction evs as [|e evs IH]; intros w; [done|].
  change (run (e :: evs) w) with (run evs (step e w)). by rewrite IH, stale_step.
Qed.

Lemma click_once (w : W) (c : Container) :
  isActive (page w) = true → container (page w) = Some c →
  settle (handleClick w)
  = mkWorld (clock w) (pending w ++ [(clock w + 300, NextTimeout)]) (uncaught w)
      (set_container (Some (mkContainer (attached c) false (shown c))) (page w)).
Proof.
  intros Hact Hc. unfold handleClick, next, set_visible. rewrite Hact, Hc. reflexivity.
Qed.

(** Every listener of a click on an active presenter schedules an advance. *)
Lemma clicks_schedule (n : nat) (w : W) :
  isActive (page w) = true → is_Some (container (page w)) →
  pending (dispatch n handleClick w)
  = pending w ++ replicate n (clock w + 300, NextTimeout) ∧
  clock (dispatch n handleClick w) = clock w ∧
  uncaught (dispatch n handleClick w) = uncaught w ∧
  ∃ c, page (dispatch n handleClick w) = set_container (Some c) (page w).
Proof.
  revert w. induction n as [|n IH]; intros w Hact [c Hc].
  { simpl. rewrite app_nil_r. split_and!; try done. exists c. destruct (page w); simpl in *.
    by rewrite Hc. }
  change (dispatch (Datatypes.S n) handleClick w)
    with (dispatch n handleClick (settle (handleClick w))).
  rewrite (click_once w c Hact Hc).
  match goal with |- context [dispatch n handleClick ?v] =>
    destruct (IH v) as (Hp & Hcl & Hu & c' & Hpage); [exact Hact|by eexists|]
  end.
  rewrite Hp, Hcl, Hu, Hpage. simpl. split_and!; try done.
  - rewrite <- app_assoc. done.
  - by exists c'.
Qed.

(** X17. [start] never fails, and every call registers a new pair of
    listeners without removing the pair of a sequence that is still bound:
    nothing the reader does or the clock brings ever removes such a stale
    pair. After a restart of a running sequence one click therefore schedules
    one advance per registered pair, all due together, and the timers of the
    replaced sequence are still pending. *)
Theorem restart_leaves_stale_listeners
    (its : list Item) (cb : option nat) (w : W) (evs : list event) :
  init its cb w = Ok (start its cb w) ∧
  listeners (start its cb w) = Datatypes.S (listeners w) ∧
  staleHandlers (page (run evs (start its cb w)))
  = staleHandlers (page w) + (if handlerBound (page w) then 1 else 0) ∧
  (its ≠ [] →
   pending (step Click (start its cb w))
   = pending w ++ replicate (Datatypes.S (listeners w)) (clock w + 300, NextTimeout)).
Proof.
  assert (Hok : init its cb w = Ok (start its cb w)).
  { unfold start, init, showCurrentPopup, complete, set_visible. simpl.
    destruct (its !! 0); reflexivity. }
  assert (Hstale : staleHandlers (page (start its cb w))
                   = staleHandlers (page w) + (if handlerBound (page w) then 1 else 0)).
  { unfold start, init, showCurrentPopup, complete, set_visible. simpl.
    destruct (its !! 0); simpl; destruct (handlerBound (page w)); lia. }
  assert (Hbound : handlerBound (page (start its cb w)) = true).
  { unfold start, init, showCurrentPopup, complete, set_visible. simpl.
    destruct (its !! 0); reflexivity. }
  split; [exact Hok|].
  assert (Hl : listeners (start its cb w) = Datatypes.S (listeners w)).
  { unfold listeners. rewrite Hstale, Hbound. destruct (handlerBound (page w)); lia. }
  split; [exact Hl|]. split; [by rewrite stale_run|].
  intros Hne. destruct its as [|item rest]; [done|].
  simpl step. rewrite Hl.
  destruct (clicks_schedule (Datatypes.S (listeners w)) (start (item :: rest) cb w))
    as (Hp & _); [reflexivity|by eexists|].
  rewrite Hp. reflexivity.
Qed.

Lemma restart_leaves_stale_listeners_witness :
  story ≠ [] ∧
  pending (step Click (start story None (start story (Some 7) fresh)))
  = pending (start story (Some 7) fresh)
    ++ replicate (Datatypes.S (listeners (start story (Some 7) fresh)))
         (clock (start story (Some 7) fresh) + 300, NextTimeout).
Proof.
  assert (Hne : story ≠ []) by discriminate.
  split; [exact Hne|].
  exact (proj2 (proj2 (proj2
           (restart_leaves_stale_listeners story None (start story (Some 7) fresh) []))) Hne).
Defined.

End sequence_extras.

(** ** Document viewer *)

Section viewer_extras.
Import Loop DocumentViewer.
Local Arguments elapse : simpl never.

Lemma remove_timeout_twice (w : W) : remove_timeout (remove_timeout w) = remove_timeout w.
Proof. unfold remove_timeout. destruct (container (page w)) eqn:Hc; simpl; by rewrite ?Hc. Qed.

Lemma fire_all_remove (due : list (nat * callback)) (w : W) :
  fire_all fire due w = match due with [] => w | _ => remove_timeout w end.
Proof.
  revert w. induction due as [|[T []] due IH]; intros w; [done|].
  change (fire_all fire ((T, RemoveTimeout) :: due) w)
    with (fire_all fire due (remove_timeout w)).
  rewrite IH. destruct due; [done|]. apply remove_timeout_twice.
Qed.

Lemma tick_viewer (w : W) :
  tick fire w
  = let v := mkWorld (S (clock w)) (filter (fun t => t.1 ≠ S (clock w)) (pending w))
                     (uncaught w) (page w) in
    match filter (fun t => t.1 = S (clock w)) (pending w) with
    | [] => v
    | _ => remove_timeout v
    end.
Proof. unfold tick. by rewrite fire_all_remove. Qed.

Lemma remove_timeout_spec (w : W) :
  clock (remove_timeout w) = clock w ∧ pending (remove_timeout w) = pending w ∧
  uncaught (remove_timeout w) = uncaught w ∧
  container (page (remove_timeout w)) = None ∧
  isOpen (page (remove_timeout w)) = isOpen (page w) ∧
  backdrop (page (remove_timeout w)) = backdrop (page w) ∧
  onceListeners (page (remove_timeout w)) = onceListeners (page w) ∧
  bound (page (remove_timeout w)) = bound (page w).
Proof. unfold remove_timeout. destruct (container (page w)) eqn:Hc; simpl; by rewrite ?Hc. Qed.

(** What a millisecond does to the viewer: timers due now are taken off the
    list, and nothing but the container can change. *)
Lemma tick_spec (w : W) :
  clock (tick fire w) = S (clock w) ∧
  pending (tick fire w) = filter (fun t => t.1 ≠ S (clock w)) (pending w) ∧
  uncaught (tick fire w) = uncaught w ∧
  isOpen (page (tick fire w)) = isOpen (page w) ∧
  backdrop (page (tick fire w)) = backdrop (page w) ∧
  onceListeners (page (tick fire w)) = onceListeners (page w) ∧
  bound (page (tick fire w)) = bound (page w) ∧
  (container (page (tick fire w)) = None ∨
   (container (page (tick fire w)) = container (page w) ∧
    filter (fun t => t.1 = S (clock w)) (pending w) = [])).
Proof.
  rewrite tick_viewer. simpl.
  destruct (filter (fun t => t.1 = S (clock w)) (pending w)) as [|t due].
  - simpl. split_and!; try done. by right.
  - match goal with |- context [remove_timeout ?v] =>
      destruct (remove_timeout_spec v) as (-> & -> & -> & -> & -> & -> & -> & ->)
    end.
    simpl. split_and!; try done. by left.
Qed.

Lemma elapse_spec (ms : nat) (w : W) :
  clock (elapse fire ms w) = clock w + ms ∧
  uncaught (elapse fire ms w) = uncaught w ∧
  isOpen (page (elapse fire ms w)) = isOpen (page w) ∧
  backdrop (page (elapse fire ms w)) = backdrop (page w) ∧
  onceListeners (page (elapse fire ms w)) = onceListeners (page w) ∧
  bound (page (elapse fire ms w)) = bound (page w) ∧
  (container (page w) = None → container (page (elapse fire ms w)) = None).
Proof.
  revert w. induction ms as [|ms IH]; intros w.
  { change (elapse fire 0 w) with w. split_and!; try done; lia. }
  change (elapse fire (S ms) w) with (elapse fire ms (tick fire w)).
  destruct (IH (tick fire w)) as (-> & -> & -> & -> & -> & -> & Hc).
  destruct (tick_spec w) as (-> & _ & -> & -> & -> & -> & -> & Ht).
  split_and!; try done; try lia.
  intros Hnone. apply Hc. destruct Ht as [Ht|[Ht _]]; [done|by rewrite Ht].
Qed.

(** Once every timer has fallen due, none is left. *)
Lemma pending_drained (k : nat) (w : W) :
  Forall (fun t => clock w < t.1 ≤ clock w + k) (pending w) →
  pending (elapse fire k w) = [].
Proof.
  revert w. induction k as [|k IH]; intros w Hp.
  { change (elapse fire 0 w) with w. destruct (pending w) as [|t l]; [done|].
    apply Forall_cons in Hp as [Ht _]. lia. }
  change (elapse fire (S k) w) with (elapse fire k (tick fire w)).
  apply IH. destruct (tick_spec w) as (-> & -> & _).
  apply Forall_forall. intros t Ht. apply list_elem_of_filter in Ht as [Hne Ht].
  rewrite Forall_forall in Hp. specialize (Hp t Ht). lia.
Qed.

(** A timer stays pending until its time has come. *)
Lemma pending_later (d : nat) (w : W) (t : nat * callback) :
  t ∈ pending w → clock w + d < t.1 → t ∈ pending (elapse fire d w).
Proof.
  revert w. induction d as [|d IH]; intros w Ht Hlt; [done|].
  change (elapse fire (S d) w) with (elapse fire d (tick fire w)).
  destruct (tick_spec w) as (Hcl & Hp & _).
  apply IH; [|lia]. rewrite Hp. apply list_elem_of_filter. split; [lia|done].
Qed.

(** A timer that falls due removes whatever viewer is in the document. *)
Lemma fired_removes (k : nat) (w : W) (t : nat * callback) :
  t ∈ pending w → clock w < t.1 ≤ clock w + k →
  container (page (elapse fire k w)) = None.
Proof.
  revert w. induction k as [|k IH]; intros w Ht Hdue; [lia|].
  change (elapse fire (S k) w) with (elapse fire k (tick fire w)).
  destruct (tick_spec w) as (Hcl & Hp & _ & _ & _ & _ & _ & Hc).
  destruct (decide (t.1 = S (clock w))) as [Hnow|Hlater].
  - apply elapse_spec. destruct Hc as [Hc|[_ Hdue']]; [done|].
    assert (Hin : t ∈ filter (fun t : nat * callback => t.1 = S (clock w)) (pending w))
      by (apply list_elem_of_filter; done).
    rewrite Hdue' in Hin. by apply elem_of_nil in Hin.
  - apply IH; [|lia]. rewrite Hp. apply list_elem_of_filter. done.
Qed.

Lemma close_spec (w : W) (c : Container) :
  container (page w) = Some c →
  close w
  = mkWorld (clock w) (pending w ++ [(clock w + 300, RemoveTimeout)]) (uncaught w)
      (mkViewer (Some (set_visible false c)) false (hideBackdrop (backdrop (page w)))
                (onceListeners (page w)) (bound (page w))).
Proof. intros Hc. unfold close. rewrite Hc. reflexivity. Qed.

Lemma close_nothing (w : W) : container (page w) = None → close w = w.
Proof. intros Hc. unfold close. by rewrite Hc. Qed.

Lemma coherent_loaded : coherent loaded.
Proof.
  unfold coherent. simpl. split_and!; try done; by intros [c Hc].
Qed.

Lemma coherent_open (o : Options) (w : W) : coherent w → coherent (open o w).
Proof.
  intros (Hv & Hl & Hc & Hp & Hr & Hn & Hb).
  unfold coherent, open, createContainer. simpl.
  split_and!; try done.
  - by intros c [= <-].
  - intros _ _. lia.
Qed.

Lemma coherent_close (w : W) : coherent w → coherent (close w).
Proof.
  intros Hw. destruct (container (page w)) as [c|] eqn:Hc; [|by rewrite close_nothing].
  rewrite (close_spec w c Hc).
  destruct Hw as (Hv & Hl & Hcv & Hp & Hr & Hn & Hb).
  unfold coherent. simpl. split_and!; try done.
  - by intros c' [= <-].
  - apply Forall_app. split; [exact Hp|]. constructor; [simpl; lia|constructor].
  - intros _ _. by destruct (pending w).
Qed.

Lemma coherent_closes (n : nat) (w : W) :
  coherent w → coherent (dispatch n (fun w => Ok (close w)) w).
Proof.
  revert w. induction n as [|n IH]; intros w Hw; [done|].
  apply IH. simpl. by apply coherent_close.
Qed.

Lemma isOpen_close (w : W) :
  is_Some (container (page w)) ∨ isOpen (page w) = false → isOpen (page (close w)) = false.
Proof.
  intros [[c Hc]|Hf].
  - by rewrite (close_spec w c Hc).
  - destruct (container (page w)) as [c|] eqn:Hc.
    + by rewrite (close_spec w c Hc).
    + by rewrite close_nothing.
Qed.

Lemma isOpen_closes (n : nat) (w : W) :
  isOpen (page w) = false → isOpen (page (dispatch n (fun w => Ok (close w)) w)) = false.
Proof.
  revert w. induction n as [|n IH]; intros w Hw; [done|].
  apply IH. simpl. apply isOpen_close. by right.
Qed.

Lemma closes_nothing (n : nat) (w : W) :
  container (page w) = None → dispatch n (fun w => Ok (close w)) w = w.
Proof.
  induction n as [|n IH]; intros Hc; [done|].
  simpl. rewrite close_nothing by done. by apply IH.
Qed.

Lemma coherent_tick (w : W) : coherent w → coherent (tick fire w).
Proof.
  intros (Hv & Hl & Hcv & Hp & Hr & Hn & Hb).
  destruct (tick_spec w) as (Hcl & Hpe & _ & Ho & Hbd & Hol & Hbo & Hc).
  unfold coherent. rewrite Hcl, Hpe, Ho, Hbd, Hol, Hbo.
  split_and!; try done.
  - intros c Hsome. destruct Hc as [Hc|[Hc _]]; [congruence|].
    apply Hcv. by rewrite <- Hc.
  - apply Forall_forall. intros t Ht. apply list_elem_of_filter in Ht as [Hne Ht].
    rewrite Forall_forall in Hp. specialize (Hp t Ht). lia.
  - intros [c Hsome] Hclosed.
    destruct Hc as [Hc|[Hc Hdue]]; [congruence|].
    assert (Hsame : filter (fun t : nat * callback => t.1 ≠ S (clock w)) (pending w)
                    = pending w).
    { clear -Hdue. induction (pending w) as [|t l IH]; [done|].
      destruct (decide (t.1 = S (clock w))) as [Ht|Ht].
      - rewrite filter_cons_True in Hdue by done. done.
      - rewrite filter_cons_False in Hdue by done.
        rewrite filter_cons_True by done. by rewrite IH. }
    rewrite Hsame. apply Hr; [|done]. rewrite <- Hc. by exists c.
  - intros [c Hsome] Hopen. destruct Hc as [Hc|[Hc _]]; [congruence|].
    apply Hn; [|done]. rewrite <- Hc. by exists c.
Qed.

Lemma coherent_step (e : event) (w : W) : coherent w → coherent (step e w).
Proof.
  intros Hw. destruct e as [l| | |key|o| |ms]; simpl.
  - destruct (bound (page w)); [|done]. by apply coherent_open.
  - destruct (container (page w)); [|done]. by apply coherent_close.
  - unfold clickBackdrop.
    destruct (decide (onceListeners (page w) = 0)) as [Hz|Hz].
    + rewrite Hz. simpl. destruct Hw as (Hv & Hl & Hcv & Hp & Hr & Hn & Hb).
      unfold coherent. simpl. split_and!; try done.
      intros Hs Ho. specialize (Hn Hs Ho). lia.
    + destruct (onceListeners (page w)) as [|n] eqn:Hn'; [done|].
      change (dispatch (S n) ?h ?v) with (dispatch n h (settle (h v))).
      cbv beta. change (settle (Ok ?v)) with v.
      match goal with |- coherent (dispatch n _ (close ?v)) => set (v0 := v) end.
      destruct Hw as (Hv & Hl & Hcv & Hp & Hr & Hn & Hb).
      destruct (container (page w)) as [c|] eqn:Hc.
      * apply coherent_closes. rewrite (close_spec v0 c) by done.
        unfold coherent. simpl. split_and!; try done.
        -- by intros c' [= <-].
        -- apply Forall_app. split; [exact Hp|]. constructor; [simpl; lia|constructor].
        -- intros _ _. by destruct (pending w).
      * rewrite close_nothing by done. rewrite closes_nothing by done.
        unfold coherent, v0. simpl. rewrite Hc. split_and!; try done; by intros [c Hs].
  - destruct (bound (page w)); [|done]. unfold handleKeydown.
    destruct (isOpen (page w) && String.eqb key "Escape"); [|done].
    by apply coherent_close.
  - by apply coherent_open.
  - by apply coherent_close.
  - apply elapse_invariant; [apply coherent_tick|done].
Qed.

Lemma coherent_run (evs : list event) (w : W) : coherent w → coherent (run evs w).
Proof.
  revert w. induction evs as [|e evs IH]; intros w Hw; [done|].
  change (run (e :: evs) w) with (run evs (step e w)). by apply IH, coherent_step.
Qed.

(** X18. Whatever the reader and the callers of the public interface do once
    the page is loaded, the viewer stays coherent: the backdrop is visible and
    the page is locked against scrolling exactly when the viewer counts as
    open, a viewer in the document is visible exactly then, every timer is at
    most 300 ms away, a closed viewer still in the document has its removal
    pending, and a document on display has a listener waiting on the
    backdrop. *)
Theorem viewer_stays_coherent (evs : list event) : coherent (run evs loaded).
Proof. apply coherent_run, coherent_loaded. Qed.

(** X19. In every state the page can reach in which a document is on display,
    each of the closing inputs (the close button, a click on the backdrop,
    Escape, the public [close]) closes the viewer at once, and 300 ms later
    the viewer has left the document, no timer is left, the backdrop is hidden
    and the page scrolls again. *)
Theorem every_gesture_closes (evs : list event) (e : event) (ms : nat) :
  closes e = true →
  isOpen (page (run evs loaded)) = true →
  is_Some (container (page (run evs loaded))) →
  300 ≤ ms →
  isOpen (page (step e (run evs loaded))) = false ∧
  container (page (run [e; Wait ms] (run evs loaded))) = None ∧
  isOpen (page (run [e; Wait ms] (run evs loaded))) = false ∧
  pending (run [e; Wait ms] (run evs loaded)) = [] ∧
  bd_visible (backdrop (page (run [e; Wait ms] (run evs loaded)))) = false ∧
  bd_scroll_locked (backdrop (page (run [e; Wait ms] (run evs loaded)))) = false.
Proof.
  pose proof (coherent_run evs loaded coherent_loaded) as Hw.
  generalize dependent (run evs loaded). intros w Hw He Hopen [c Hc] Hms.
  assert (Hclosed : isOpen (page (step e w)) = false).
  { pose proof Hw as (_ & _ & _ & _ & _ & Hn & Hb).
    destruct e as [l| | |key|o| |m]; simpl in He |- *; try discriminate He.
    - rewrite Hc. apply isOpen_close. left. by exists c.
    - unfold clickBackdrop.
      destruct (onceListeners (page w)) as [|n] eqn:Hl.
      { specialize (Hn ltac:(by exists c) Hopen). lia. }
      change (dispatch (S n) ?h ?v) with (dispatch n h (settle (h v))).
      cbv beta. change (settle (Ok ?v)) with v.
      apply isOpen_closes, isOpen_close. left. simpl. by exists c.
    - rewrite Hb. unfold handleKeydown. rewrite Hopen, He. simpl.
      apply isOpen_close. left. by exists c.
    - apply isOpen_close. left. by exists c. }
  split; [exact Hclosed|].
  pose proof (coherent_step e w Hw) as Hw1.
  change (run [e; Wait ms] w) with (elapse fire ms (step e w)).
  generalize dependent (step e w). intros w1 Hclosed Hw1.
  pose proof (elapse_spec ms w1) as (Hcl & _ & Ho & Hbd & _ & _ & _).
  assert (Hdrained : pending (elapse fire ms w1) = []).
  { apply pending_drained. destruct Hw1 as (_ & _ & _ & Hp & _).
    eapply Forall_impl; [exact Hp|]. simpl. intros t Ht. lia. }
  pose proof (elapse_invariant fire coherent ms w1 coherent_tick Hw1)
    as (Hv & Hl & _ & _ & Hr & _).
  rewrite Ho, Hclosed in *.
  split_and!; try done.
  destruct (container (page (elapse fire ms w1))) as [c'|] eqn:Hc'; [|done].
  destruct (Hr ltac:(by exists c') eq_refl). exact Hdrained.
Qed.

Lemma every_gesture_closes_witness :
  (closes ClickBackdrop = true ∧
   isOpen (page (run [Open memo; KeyDown "Escape"; Open scan] loaded)) = true ∧
   is_Some (container (page (run [Open memo; KeyDown "Escape"; Open scan] loaded))) ∧
   300 ≤ 300) ∧
  container (page (run [ClickBackdrop; Wait 300]
                       (run [Open memo; KeyDown "Escape"; Open scan] loaded))) = None ∧
  bd_scroll_locked
    (backdrop (page (run [ClickBackdrop; Wait 300]
                         (run [Open memo; KeyDown "Escape"; Open scan] loaded)))) = false.
Proof.
  assert (H1 : closes ClickBackdrop = true) by reflexivity.
  assert (H2 : isOpen (page (run [Open memo; KeyDown "Escape"; Open scan] loaded)) = true)
    by (vm_compute; reflexivity).
  assert (H3 : is_Some (container (page (run [Open memo; KeyDown "Escape"; Open scan]
                                             loaded))))
    by (vm_compute; eexists; reflexivity).
  assert (H4 : 300 ≤ 300) by lia.
  destruct (every_gesture_closes [Open memo; KeyDown "Escape"; Open scan]
              ClickBackdrop 300 H1 H2 H3 H4) as (_ & Hc & _ & _ & _ & Hl).
  split; [exact (conj H1 (conj H2 (conj H3 H4)))|]. split; [exact Hc|exact Hl].
Defined.

(** X20. The removal timer of [close] is not cancelled by a later [open]. If
    a viewer in the document is closed and another document is opened less
    than 300 ms later, the new document is displayed at first, but the old
    timer then removes it: the viewer is gone while it still counts as
    open, the backdrop stays visible and the page stays locked against
    scrolling, and no input other than opening a further document changes
    that, since [close] then returns at once. *)
Theorem reopened_viewer_is_lost
    (evs : list event) (d ms : nat) (o : Options) (rest : list event) :
  is_Some (container (page (run evs loaded))) →
  d < 300 → 300 ≤ d + ms →
  Forall (fun e => opens e = false) rest →
  (∃ c, container (page (run [Close; Wait d; Open o] (run evs loaded))) = Some c ∧
        visible c = true) ∧
  container (page (run ([Close; Wait d; Open o; Wait ms] ++ rest) (run evs loaded))) = None ∧
  isOpen (page (run ([Close; Wait d; Open o; Wait ms] ++ rest) (run evs loaded))) = true ∧
  bd_visible
    (backdrop (page (run ([Close; Wait d; Open o; Wait ms] ++ rest) (run evs loaded))))
  = true ∧
  bd_scroll_locked
    (backdrop (page (run ([Close; Wait d; Open o; Wait ms] ++ rest) (run evs loaded))))
  = true.
Proof.
  pose proof (coherent_run evs loaded coherent_loaded) as Hw.
  generalize dependent (run evs loaded). intros w Hw [c Hc] Hd Hms Hrest.
  split.
  { change (run [Close; Wait d; Open o] w) with (open o (elapse fire d (close w))).
    unfold open, createContainer. simpl. eexists. split; reflexivity. }
  set (w3 := open o (elapse fire d (close w))).
  assert (Htimer : (clock w + 300, RemoveTimeout) ∈ pending w3 ∧ clock w3 = clock w + d).
  { unfold w3, open. simpl.
    destruct (elapse_spec d (close w)) as (-> & _).
    rewrite (close_spec w c Hc). simpl. split; [|done].
    apply pending_later; simpl; [|lia].
    apply elem_of_app. right. apply list_elem_of_singleton. done. }
  destruct Htimer as [Hin Hcl].
  set (w4 := elapse fire ms w3).
  assert (Hlost : container (page w4) = None ∧ isOpen (page w4) = true ∧
                  backdrop (page w4) = mkBackdrop true true true).
  { unfold w4. destruct (elapse_spec ms w3) as (_ & _ & -> & -> & _).
    split; [|done].
    apply (fired_removes ms w3 _ Hin).
    change ((clock w + 300, RemoveTimeout).1) with (clock w + 300). rewrite Hcl. lia. }
  change (run ([Close; Wait d; Open o; Wait ms] ++ rest) w) with (run rest w4).
  clearbody w4. clear -Hlost Hrest. revert w4 Hlost.
  induction Hrest as [|e rest He _ IH]; intros v (Hc & Ho & Hb).
  { simpl. rewrite Hb. done. }
  change (run (e :: rest) v) with (run rest (step e v)). apply IH.
  destruct e as [l| | |key|o'| |m]; simpl in He |- *; try discriminate He.
  - by rewrite Hc.
  - unfold clickBackdrop. rewrite closes_nothing by done. done.
  - destruct (bound (page v)); [|done]. unfold handleKeydown.
    destruct (isOpen (page v) && String.eqb key "Escape"); [|done].
    by rewrite close_nothing.
  - by rewrite close_nothing.
  - destruct (elapse_spec m v) as (_ & _ & -> & -> & _ & _ & Hn). split; [by apply Hn|done].
Qed.

Lemma reopened_viewer_is_lost_witness :
  (is_Some (container (page (run [Open memo] loaded))) ∧ 100 < 300 ∧ 300 ≤ 100 + 300 ∧
   Forall (fun e => opens e = false)
          [KeyDown "Escape"; ClickBackdrop; Close; ClickCloseButton; Wait 1000]) ∧
  container
    (page (run ([Close; Wait 100; Open scan; Wait 300]
                ++ [KeyDown "Escape"; ClickBackdrop; Close; ClickCloseButton; Wait 1000])
               (run [Open memo] loaded))) = None ∧
  bd_scroll_locked
    (backdrop
       (page (run ([Close; Wait 100; Open scan; Wait 300]
                   ++ [KeyDown "Escape"; ClickBackdrop; Close; ClickCloseButton; Wait 1000])
                  (run [Open memo] loaded)))) = true.
Proof.
  assert (H1 : is_Some (container (page (run [Open memo] loaded))))
    by (vm_compute; eexists; reflexivity).
  assert (H2 : 100 < 300) by lia.
  assert (H3 : 300 ≤ 100 + 300) by lia.
  assert (H4 : Forall (fun e => opens e = false)
                 [KeyDown "Escape"; ClickBackdrop; Close; ClickCloseButton; Wait 1000])
    by (repeat constructor).
  destruct (reopened_viewer_is_lost [Open memo] 100 300 scan _ H1 H2 H3 H4)
    as (_ & Hc & _ & _ & Hl).
  split; [exact (conj H1 (conj H2 (conj H3 H4)))|]. split; [exact Hc|exact Hl].
Defined.

End viewer_extras.

(** ** Sequential presenter: advances beyond the last item *)

Section sequence_overrun.
Import Loop SequencePopups.
Local Arguments seq : simpl never.
Local Arguments elapse : simpl never.
Variables (its : list Item) (cb : nat) (r0 c0 : list nat) (u0 : nat).

Lemma count_app (b : bool) (l1 l2 : list (nat * callback)) :
  count b (l1 ++ l2) = count b l1 + count b l2.
Proof. unfold count. by rewrite filter_app, length_app. Qed.

Lemma count_cons (b : bool) (t : nat * callback) (l : list (nat * callback)) :
  count b (t :: l) = (if decide (is_next t.2 = b) then 1 else 0) + count b l.
Proof.
  unfold count. destruct (decide (is_next t.2 = b)) as [H|H].
  - by rewrite filter_cons_True.
  - by rewrite filter_cons_False.
Qed.

Lemma count_next (b : bool) (T : nat) (l : list (nat * callback)) :
  count b ((T, NextTimeout) :: l) = (if b then 1 else 0) + count b l.
Proof. rewrite count_cons. simpl. by destruct b. Qed.

Lemma count_complete (b : bool) (T : nat) (l : list (nat * callback)) :
  count b ((T, CompleteTimeout) :: l) = (if b then 0 else 1) + count b l.
Proof. rewrite count_cons. simpl. by destruct b. Qed.

Lemma count_due_split (b : bool) (now : nat) (l : list (nat * callback)) :
  count b (filter (fun t => t.1 = now) l ++ filter (fun t => t.1 ≠ now) l) = count b l.
Proof.
  rewrite count_app. induction l as [|t l IH]; [done|].
  destruct (decide (t.1 = now)) as [Ht|Ht].
  - rewrite filter_cons_True, (filter_cons_False (fun t => t.1 ≠ now)) by auto.
    rewrite !count_cons. lia.
  - rewrite filter_cons_False, (filter_cons_True (fun t => t.1 ≠ now)) by auto.
    rewrite !count_cons. lia.
Qed.

Lemma count_all_next (l : list (nat * callback)) (P : nat * callback → Prop) :
  Forall (fun t => t.2 = NextTimeout ∧ P t) l →
  count true l = length l ∧ count false l = 0.
Proof.
  induction 1 as [|t l [Ht _] _ [IH1 IH2]]; [done|].
  rewrite !count_cons, Ht, IH1, IH2. simpl. done.
Qed.

(** A timer that runs keeps the account. *)
Lemma overrun_fire (a D : nat) (t : nat * callback) (due : list (nat * callback)) (v : W) :
  overrun its cb r0 c0 u0 a D (t :: due) v →
  overrun its cb r0 c0 u0 a D due (settle (fire t.2 v)).
Proof.
  intros [[Hi Hcb [c Hc] Hst Hu] Hcount Hsh Hco Hp Hdue].
  apply Forall_cons in Hdue as [Ht Hdue].
  change ((t :: due) ++ pending v) with (t :: (due ++ pending v)) in *.
  destruct t as [T [|]].
  - (* an advance *)
    rewrite count_next in Hcount.
    assert (Hsh' : currentIndex (page v) < length its →
                   isActive (page v) = true ∧
                   rendered (page v) = r0 ++ seq 0 (S (currentIndex (page v))) ∧
                   completed (page v) = c0 ∧ count false (due ++ pending v) = 0).
    { intros Hlt. destruct (Hsh Hlt) as (? & ? & ? & Hq). by rewrite count_next in Hq. }
    assert (Hco' : length its ≤ currentIndex (page v) →
                   isActive (page v) = false ∧
                   rendered (page v) = r0 ++ seq 0 (length its) ∧
                   ∃ k, completed (page v) = c0 ++ replicate k cb ∧
                        k + count false (due ++ pending v)
                        = S (currentIndex (page v) - length its)).
    { intros Hle. destruct (Hco Hle) as (? & ? & k & ? & Hq).
      rewrite count_next in Hq. split_and!; try done. by exists k. }
    clear Hsh Hco. change ((T, NextTimeout).2) with NextTimeout in *.
    change (fire NextTimeout v) with (next_timeout v).
    unfold next_timeout. simpl. rewrite Hi.
    destruct (Nat.ltb_spec (S (currentIndex (page v))) (length its)) as [Hlt|Hge].
    + destruct (Hsh' ltac:(lia)) as (Hact & Hr & Hcd & Hq).
      unfold showCurrentPopup. simpl. rewrite Hi.
      destruct (lookup_lt_is_Some_2 its _ Hlt) as [item ->].
      rewrite Hc. simpl.
      constructor; simpl;
        [constructor; simpl; eauto|simpl in Hcount; lia| |intros ?; lia|exact Hp|exact Hdue].
      intros _. split_and!; try done.
      rewrite Hr. rewrite (seq_S (S (currentIndex (page v))) 0).
      by rewrite app_assoc.
    + unfold complete, set_visible. simpl. rewrite Hc. simpl.
      assert (Hnew : ∀ b, count b (due ++ pending v ++ [(clock v + 300, CompleteTimeout)])
                          = count b (due ++ pending v) + (if b then 0 else 1)).
      { intros b. rewrite app_assoc, count_app, count_complete.
        change (count b []) with 0. lia. }
      constructor; simpl;
        [constructor; simpl; eauto|rewrite Hnew; simpl in Hcount; lia|intros ?; lia
        | | |exact Hdue].
      * intros _. rewrite Hnew. split; [done|].
        destruct (decide (currentIndex (page v) < length its)) as [Hlt|Hnlt].
        -- destruct (Hsh' Hlt) as (_ & Hr & Hcd & Hq).
           split; [rewrite Hr; f_equal; f_equal; lia|].
           exists 0. simpl. rewrite app_nil_r. split; [done|]. lia.
        -- destruct (Hco' ltac:(lia)) as (_ & Hr & k & Hk & Hq).
           split; [done|]. exists k. split; [done|]. lia.
      * apply Forall_app. split; [exact Hp|].
        constructor; [|done]. simpl. split; [|done]. specialize (Ht eq_refl). lia.
  - (* a completion *)
    rewrite count_complete in Hcount.
    assert (Hidx : length its ≤ currentIndex (page v)).
    { destruct (decide (currentIndex (page v) < length its)) as [Hlt|]; [|lia].
      destruct (Hsh Hlt) as (_ & _ & _ & Hq). rewrite count_complete in Hq. lia. }
    destruct (Hco Hidx) as (Hact & Hr & k & Hk & Hq).
    rewrite count_complete in Hq.
    change (fire (T, CompleteTimeout).2 v) with (complete_timeout v).
    unfold complete_timeout. rewrite Hc. simpl.
    constructor; simpl;
      [constructor; simpl; eauto|simpl in Hcount; lia|intros ?; lia| |exact Hp|exact Hdue].
    intros _. rewrite Hcb. split_and!; try done.
    exists (S k). split; [|lia].
    rewrite Hk, <- app_assoc. f_equal.
    change [cb] with (replicate 1 cb). rewrite <- replicate_add.
    f_equal. lia.
Qed.

Lemma overrun_fire_all (a D : nat) (due : list (nat * callback)) (v : W) :
  overrun its cb r0 c0 u0 a D due v →
  overrun its cb r0 c0 u0 a D [] (fire_all fire due v).
Proof.
  revert v. induction due as [|t due IH]; intros v Hv; [done|].
  apply IH. by apply overrun_fire.
Qed.

Lemma overrun_tick (a D : nat) (w : W) :
  overrun its cb r0 c0 u0 a D [] w → overrun its cb r0 c0 u0 a D [] (tick fire w).
Proof.
  intros [Hst Hcount Hsh Hco Hp _].
  change ([] ++ pending w) with (pending w) in *.
  unfold tick. apply overrun_fire_all.
  constructor; cbn [page pending clock uncaught]; rewrite ?count_due_split.
  - destruct Hst. by constructor.
  - exact Hcount.
  - exact Hsh.
  - exact Hco.
  - apply Forall_forall. intros t Ht. apply list_elem_of_filter in Ht as [Hne Ht].
    rewrite Forall_forall in Hp. destruct (Hp t Ht) as [? ?]. split; [lia|done].
  - apply Forall_forall. intros t Ht. apply list_elem_of_filter in Ht as [Hnow Ht].
    rewrite Forall_forall in Hp. destruct (Hp t Ht) as [? Hn].
    intros Hnext. specialize (Hn Hnext). lia.
Qed.

(** All accepted advances are still waiting: the account is open. *)
Lemma showing_overrun (D a : nat) (w : W) :
  showing its cb r0 c0 u0 D a w → overrun its cb r0 c0 u0 a (clock w + 300) [] w.
Proof.
  intros [Hst Hb Hact Hidx Hr Hco Hp HD Hn].
  destruct (count_all_next (pending w) (fun t => clock w < t.1 ≤ D) Hp) as [Hc1 Hc2].
  constructor; change ([] ++ pending w) with (pending w).
  - exact Hst.
  - by rewrite Hc1.
  - done.
  - intros ?. lia.
  - eapply Forall_impl; [exact Hp|]. simpl. intros t (_ & ? & ?). split; lia.
  - constructor.
Qed.

(** Inputs without a pause in between keep an item on display. *)
Lemma burst_showing (burst : list event) (D a : nat) (w : W) :
  Forall (fun e => is_wait e = false) burst → showing its cb r0 c0 u0 D a w →
  ∃ D', showing its cb r0 c0 u0 D' (a + advances burst) (run burst w).
Proof.
  intros Hb. revert D a w. induction Hb as [|e burst He _ IH]; intros D a w Hsh.
  { exists D. change (advances []) with 0. by rewrite Nat.add_0_r. }
  change (run (e :: burst) w) with (run burst (step e w)).
  rewrite advances_cons.
  destruct (is_advance e) eqn:Hadv.
  - destruct (IH _ _ _ (advance_showing its cb r0 c0 u0 D a e w Hsh Hadv)) as [D' H].
    exists D'. by replace (a + (1 + advances burst)) with (S a + advances burst) by lia.
  - destruct e as [|key|ms]; [done| |done].
    rewrite idle_key by done. simpl. by apply (IH D).
Qed.

End sequence_overrun.

Section sequence_overrun_claims.
Import Loop SequencePopups.
Local Arguments seq : simpl never.
Local Arguments elapse : simpl never.

(** X21. The callback runs once more for every advance that is accepted
    beyond the last item. A sequence of [N > 0] items is started where none is
    under way and receives exactly [N] advances; while the last item is still
    on display, that is before its fade-out has ended, the reader gives
    further inputs without pausing. When the animations have run out, the
    items have been rendered once each, no error has reached the event loop,
    and the callback has been invoked once, plus once for every advance among
    the further inputs. *)
Theorem extra_advances_repeat_callback
    (its : list Item) (cb : nat) (w : W) (evs burst : list event) :
  its ≠ [] → quiescent w → advances evs = length its →
  isActive (page (run evs (start its (Some cb) w))) = true →
  Forall (fun e => is_wait e = false) burst →
  completed (page (run (evs ++ burst ++ [Wait 600]) (start its (Some cb) w)))
  = completed (page w) ++ replicate (S (advances burst)) cb ∧
  rendered (page (run (evs ++ burst ++ [Wait 600]) (start its (Some cb) w)))
  = rendered (page w) ++ seq 0 (length its) ∧
  uncaught (run (evs ++ burst ++ [Wait 600]) (start its (Some cb) w)) = uncaught w.
Proof.
  intros Hne Hq Hadv Hact Hburst.
  set (r0 := rendered (page w)). set (c0 := completed (page w)). set (u0 := uncaught w).
  destruct (start_nonempty its cb r0 c0 u0 w Hne Hq eq_refl eq_refl eq_refl) as [_ Hsh].
  set (w0 := start its (Some cb) w) in *.
  assert (Hsh1 : ∃ D, showing its cb r0 c0 u0 D (length its) (run evs w0)).
  { destruct (run_showing its cb r0 c0 u0 evs _ 0 w0 Hsh ltac:(simpl; lia))
      as [[D H]|[_ H]].
    - exists D. by rewrite Nat.add_0_l, Hadv in H.
    - exfalso. destruct H as [(T & H & _)|H].
      + rewrite (wd_active _ _ _ _ _ _ _ H) in Hact. discriminate.
      + rewrite (fi_active _ _ _ _ _ _ H) in Hact. discriminate. }
  destruct Hsh1 as [D Hsh1].
  destruct (burst_showing its cb r0 c0 u0 burst D _ _ Hburst Hsh1) as [D' Hsh2].
  rewrite !run_app.
  generalize dependent (run burst (run evs w0)). intros w2 Hsh2.
  change (run [Wait 600] w2) with (elapse fire 600 w2).
  pose proof (showing_overrun its cb r0 c0 u0 _ _ _ Hsh2) as Hov.
  pose proof (elapse_invariant fire _ 600 w2
                (overrun_tick its cb r0 c0 u0 _ _) Hov) as [Hst Hcount Hs Hco Hp _].
  pose proof (clock_elapse fire fire_keeps_clock 600 w2) as Hcl.
  generalize dependent (elapse fire 600 w2). intros w3 Hst Hcount Hs Hco Hp Hcl.
  simpl in *.
  assert (Hnil : pending w3 = []).
  { destruct (pending w3) as [|t l]; [done|].
    apply Forall_cons in Hp as [[? _] _]. lia. }
  rewrite Hnil in *. change (count _ []) with 0 in *.
  assert (Hidx : length its ≤ currentIndex (page w3)) by lia.
  destruct (Hco Hidx) as (_ & Hr & k & Hk & Hk2).
  split_and!.
  - rewrite Hk. change (cb :: replicate ?n cb) with (replicate (S n) cb).
    f_equal. f_equal. lia.
  - exact Hr.
  - apply (st_uncaught _ _ _ _ Hst).
Qed.

Lemma extra_advances_repeat_callback_witness :
  (story ≠ [] ∧ quiescent fresh ∧ advances [Click; Click; Click] = length story ∧
   isActive (page (run [Click; Click; Click] (start story (Some 7) fresh))) = true ∧
   Forall (fun e => is_wait e = false) [Click; KeyDown "a"; KeyDown "Enter"]) ∧
  completed (page (run ([Click; Click; Click] ++ [Click; KeyDown "a"; KeyDown "Enter"]
                        ++ [Wait 600])
                       (start story (Some 7) fresh)))
  = completed (page fresh) ++ replicate (S (advances [Click; KeyDown "a"; KeyDown "Enter"])) 7.
Proof.
  assert (H1 : story ≠ []) by discriminate.
  assert (H2 : quiescent fresh) by (repeat split).
  assert (H3 : advances [Click; Click; Click] = length story) by (vm_compute; reflexivity).
  assert (H4 : isActive (page (run [Click; Click; Click] (start story (Some 7) fresh))) = true)
    by (vm_compute; reflexivity).
  assert (H5 : Forall (fun e => is_wait e = false) [Click; KeyDown "a"; KeyDown "Enter"])
    by (repeat constructor).
  destruct (extra_advances_repeat_callback story 7 fresh _ _ H1 H2 H3 H4 H5) as (Hc & _).
  split; [exact (conj H1 (conj H2 (conj H3 (conj H4 H5))))|exact Hc].
Defined.

End sequence_overrun_claims.
